(** * annotator: symbol detection and documentation insertion

    A shallow embedding of the analysis and insertion core of the
    [annotator] package:

    - [annotator/ui/diff_viewer.py]   ([_apply_proposals_to_source]),
    - [annotator/languages/python_analyzer.py],
    - [annotator/languages/typescript_analyzer.py],
    - [annotator/languages/base.py]   ([SymbolInfo]).

    Python [str] values are lists of Unicode code points, Python [int]
    values are [Z], exceptions are an explicit [result] type. *)

From Stdlib Require Import List ZArith NArith Lia Bool String Ascii.
From Stdlib Require Import Permutation Sorted.
Import ListNotations.

Set Implicit Arguments.
Set Warnings "-register-all".

(* ================================================================== *)
(** * Python runtime: exceptions *)
(* ================================================================== *)

Module Py.

Inductive exn : Type :=
| IndexError
| SyntaxError
| ValueError
| RecursionError
| AttributeError
| LoopBudget.          (* a bounded loop of the model ran out of steps *)

Inductive result (A : Type) : Type :=
| Ok (a : A)
| Raise (e : exn).

Arguments Ok {A} a.
Arguments Raise {A} e.

Definition bind {A B} (m : result A) (f : A -> result B) : result B :=
  match m with
  | Ok a => f a
  | Raise e => Raise e
  end.

End Py.

Import Py.

Declare Scope py_scope.
Delimit Scope py_scope with py.
Notation "x <- m ;; k" := (bind m (fun x => k))
  (at level 61, m at next level, right associativity) : py_scope.
Open Scope py_scope.

(* ================================================================== *)
(** * Python runtime: [str] *)
(* ================================================================== *)

Module Str.

(** A character is a Unicode code point; a [str] is a sequence of them. *)
Definition char := N.
Definition str := list char.

(** ASCII literals of the source text. *)
Definition lit (s : string) : str :=
  map N_of_ascii (list_ascii_of_string s).

Definition NL : char := 10%N.
Definition CR : char := 13%N.
Definition SPACE : char := 32%N.
Definition DQUOTE : char := 34%N.
Definition SQUOTE : char := 39%N.
Definition BACKTICK : char := 96%N.

Definition within (lo hi c : N) : bool := (N.leb lo c && N.leb c hi)%bool.

(** [str.isspace] for one code point (CPython [_PyUnicode_IsWhitespace]):
    U+0009..000D, U+001C..001F, U+0020, U+0085, U+00A0, U+1680,
    U+2000..200A, U+2028, U+2029, U+202F, U+205F, U+3000. *)
Definition isspace (c : char) : bool :=
  (within 9 13 c || within 28 31 c || N.eqb c 32 || N.eqb c 133
   || N.eqb c 160 || N.eqb c 5760 || within 8192 8202 c
   || N.eqb c 8232 || N.eqb c 8233 || N.eqb c 8239 || N.eqb c 8287
   || N.eqb c 12288)%bool.

(** Line boundaries of [str.splitlines] (CPython [_PyUnicode_IsLinebreak]):
    U+000A..000D, U+001C..001E, U+0085, U+2028, U+2029. *)
Definition is_linebreak (c : char) : bool :=
  (within 10 13 c || within 28 30 c || N.eqb c 133
   || N.eqb c 8232 || N.eqb c 8233)%bool.

Definition char_eqb (a b : char) : bool := N.eqb a b.

Fixpoint eqb (a b : str) : bool :=
  match a, b with
  | [], [] => true
  | x :: a', y :: b' => (char_eqb x y && eqb a' b')%bool
  | _, _ => false
  end.

(** [s.startswith(prefix)] *)
Fixpoint startswith (s prefix : str) : bool :=
  match prefix, s with
  | [], _ => true
  | p :: prefix', c :: s' => (char_eqb p c && startswith s' prefix')%bool
  | _ :: _, [] => false
  end.

(** [s.endswith(suffix)] *)
Definition endswith (s suffix : str) : bool :=
  startswith (rev s) (rev suffix).

Fixpoint dropwhile (p : char -> bool) (s : str) : str :=
  match s with
  | [] => []
  | c :: t => if p c then dropwhile p t else s
  end.

(** [s.lstrip()], [s.rstrip()], [s.strip()]: whitespace is [isspace]. *)
Definition lstrip (s : str) : str := dropwhile isspace s.
Definition rstrip (s : str) : str := rev (dropwhile isspace (rev s)).
Definition strip (s : str) : str := lstrip (rstrip s).

(** [s.lstrip(chars)], [s.rstrip(chars)], [s.strip(chars)] *)
Definition mem (chars : str) (c : char) : bool := existsb (char_eqb c) chars.
Definition lstrip_chars (chars s : str) : str := dropwhile (mem chars) s.
Definition rstrip_chars (chars s : str) : str :=
  rev (dropwhile (mem chars) (rev s)).
Definition strip_chars (chars s : str) : str :=
  lstrip_chars chars (rstrip_chars chars s).

(** Truth value of a [str]: non-empty. *)
Definition truthy (s : str) : bool :=
  match s with [] => false | _ :: _ => true end.

(** [sep.join(parts)] *)
Fixpoint join (sep : str) (parts : list str) : str :=
  match parts with
  | [] => []
  | [p] => p
  | p :: rest => p ++ sep ++ join sep rest
  end.

(** [s.count(c)] for a one-character needle. *)
Definition count (c : char) (s : str) : nat :=
  List.length (filter (char_eqb c) s).

(** [s.replace(a, b)] for one-character [a] and [b]. *)
Definition replace (a b : char) (s : str) : str :=
  map (fun c => if char_eqb c a then b else c) s.

(** [s.splitlines(keepends)]: the scan of CPython's [PyUnicode_Splitlines].
    [cur] holds the characters of the line being read, newest first.  A
    CR immediately followed by LF is one boundary.  A final line with no
    terminator is produced only when it is non-empty. *)
Fixpoint splitlines_from (keepends : bool) (cur : str) (s : str)
  : list str :=
  match s with
  | [] => match cur with [] => [] | _ :: _ => [rev cur] end
  | c :: t =>
      if is_linebreak c then
        match t with
        | d :: t' =>
            if (char_eqb c CR && char_eqb d NL)%bool then
              rev (if keepends then d :: c :: cur else cur)
                :: splitlines_from keepends [] t'
            else
              rev (if keepends then c :: cur else cur)
                :: splitlines_from keepends [] t
        | [] => [rev (if keepends then c :: cur else cur)]
        end
      else splitlines_from keepends (c :: cur) t
  end.

Definition splitlines (keepends : bool) (s : str) : list str :=
  splitlines_from keepends [] s.

End Str.

Import Str.

(* ================================================================== *)
(** * Python runtime: [list] and [int] *)
(* ================================================================== *)

Module PyList.

Definition len {A} (l : list A) : Z := Z.of_nat (List.length l).

(** Normalisation of a possibly negative index, as in [l[i]]. *)
Definition norm_index {A} (l : list A) (i : Z) : Z :=
  if (i <? 0)%Z then (i + len l)%Z else i.

(** [l[i]]: raises [IndexError] outside [-len(l) .. len(l)-1]. *)
Definition getitem {A} (l : list A) (i : Z) : result A :=
  let j := norm_index l i in
  if (j <? 0)%Z then Raise IndexError
  else match nth_error l (Z.to_nat j) with
       | Some x => Ok x
       | None => Raise IndexError
       end.

(** Clamping of a slice or insertion bound to [0 .. len(l)]. *)
Definition clamp {A} (l : list A) (i : Z) : nat :=
  let j := norm_index l i in
  Z.to_nat (Z.min (Z.max j 0) (len l)).

(** [l.insert(i, x)]: never raises; the position is clamped. *)
Definition insert {A} (l : list A) (i : Z) (x : A) : list A :=
  let k := clamp l i in
  firstn k l ++ x :: skipn k l.

(** [l[lo:hi]] *)
Definition slice {A} (l : list A) (lo hi : Z) : list A :=
  let a := clamp l lo in
  let b := clamp l hi in
  firstn (b - a) (skipn a l).

End PyList.

Import PyList.

(* ================================================================== *)
(** * annotator/client.py: [DocProposal] *)
(* ================================================================== *)

(** The insertion engine reads [line] and [proposed_doc] only; the two
    optional snippet dictionaries of the dataclass are carried as an
    uninterpreted payload. *)
Record DocProposal : Type := {
  symbol_name : str;
  line : Z;
  proposed_doc : str;
  snippets : nat
}.

(* ================================================================== *)
(** * annotator/ui/diff_viewer.py *)
(* ================================================================== *)

Module DiffViewer.

(** [sorted(proposals, key=lambda p: p.line, reverse=True)]: a stable
    sort into descending key order (equal keys keep their input order). *)
Fixpoint insert_desc (p : DocProposal) (l : list DocProposal)
  : list DocProposal :=
  match l with
  | [] => [p]
  | q :: t => if (line q <=? line p)%Z then p :: l
              else q :: insert_desc p t
  end.

Definition sorted_desc (proposals : list DocProposal) : list DocProposal :=
  fold_right insert_desc [] proposals.

(** Descending line order between an element and a later one. *)
Definition ge_line (p q : DocProposal) : Prop := (line q <= line p)%Z.

(** The [while] loop of the python branch:
<<
    while body_start < len(lines) and lines[body_start - 1].rstrip().endswith(","):
        body_start += 1
>>
    [steps] bounds the number of iterations. *)
Fixpoint find_body_start (steps : nat) (lines : list str) (body_start : Z)
  : result Z :=
  if (body_start <? len lines)%Z then
    prev <- getitem lines (body_start - 1) ;;
    if endswith (rstrip prev) (lit ",") then
      match steps with
      | O => Raise LoopBudget
      | S steps' => find_body_start steps' lines (body_start + 1)
      end
    else Ok body_start
  else Ok body_start.

(** The generator expression
    [prefix + l if l.strip() else l for l in doc.rstrip("\n").splitlines()]
    joined with a newline and closed by one. *)
Definition indent_doc (prefix doc : str) : str :=
  join [NL]
       (map (fun l => if truthy (strip l) then prefix ++ l else l)
            (splitlines false (rstrip_chars [NL] doc)))
  ++ [NL].

(** The guard [insert_at < 0 or insert_at > len(lines)] of the loop body,
    with [insert_at = prop.line - 1]. *)
Definition out_of_range (lines : list str) (prop : DocProposal) : bool :=
  let insert_at := (line prop - 1)%Z in
  ((insert_at <? 0)%Z || (insert_at >? len lines)%Z)%bool.

(** [if not doc.endswith(newline): doc += newline] *)
Definition with_newline (doc : str) : str :=
  if endswith doc [NL] then doc else doc ++ [NL].

(** One iteration of [for prop in sorted_props]. *)
Definition apply_one (language : str) (lines : list str) (prop : DocProposal)
  : result (list str) :=
  let insert_at := (line prop - 1)%Z in
  if out_of_range lines prop then Ok lines
  else
    let doc := with_newline (proposed_doc prop) in
    func_line <- (if (insert_at <? len lines)%Z
                  then getitem lines insert_at else Ok []) ;;
    let indent := (len func_line - len (lstrip func_line))%Z in
    let indent_str := repeat SPACE (Z.to_nat indent) in
    if Str.eqb language (lit "python") then
      body_start <- find_body_start (List.length lines) lines (insert_at + 1) ;;
      let body_indent := indent_str ++ lit "    " in
      let doc_indented := indent_doc body_indent doc in
      Ok (insert lines body_start doc_indented)
    else
      let doc_indented := indent_doc indent_str doc in
      Ok (insert lines insert_at doc_indented).

(** The [for] loop: [lines] is threaded through the iterations. *)
Fixpoint apply_loop (language : str) (lines : list str)
  (props : list DocProposal) : result (list str) :=
  match props with
  | [] => Ok lines
  | prop :: rest =>
      lines' <- apply_one language lines prop ;;
      apply_loop language lines' rest
  end.

(** The value of [lines] when the loop ends. *)
Definition final_lines (source : str) (proposals : list DocProposal)
  (language : str) : result (list str) :=
  let lines := splitlines true source in
  let sorted_props := sorted_desc proposals in
  apply_loop language lines sorted_props.

Definition _apply_proposals_to_source (source : str)
  (proposals : list DocProposal) (language : str) : result str :=
  lines <- final_lines source proposals language ;;
  Ok (join [] lines).

End DiffViewer.

(* ================================================================== *)
(** * Python runtime: case mapping and character classes *)
(* ================================================================== *)

Module Unicode.

(** The part of the interpreter's Unicode database the analyzers reach:
    case mapping of strings that hold a non-ASCII character, and the
    alphanumeric class of non-ASCII code points.  ASCII behaviour is
    written out below and does not depend on the database. *)
Record DB : Type := {
  db_upper : str -> str;
  db_lower : str -> str;
  db_isalnum : char -> bool
}.

Definition is_ascii (c : char) : bool := N.ltb c 128.

Definition ascii_upper (c : char) : char :=
  if within 97 122 c then (c - 32)%N else c.

Definition ascii_lower (c : char) : char :=
  if within 65 90 c then (c + 32)%N else c.

(** [s.upper()] *)
Definition upper (db : DB) (s : str) : str :=
  if forallb is_ascii s then map ascii_upper s else db_upper db s.

(** [s.lower()] *)
Definition lower (db : DB) (s : str) : str :=
  if forallb is_ascii s then map ascii_lower s else db_lower db s.

(** The class [\w] of [re] on [str] patterns. *)
Definition is_word (db : DB) (c : char) : bool :=
  if is_ascii c then
    (within 97 122 c || within 65 90 c || within 48 57 c || N.eqb c 95)%bool
  else db_isalnum db c.

(** A database that leaves non-ASCII text alone; used to evaluate the
    model on ASCII inputs. *)
Definition ascii_db : DB :=
  {| db_upper := fun s => s; db_lower := fun s => s;
     db_isalnum := fun _ => false |}.

End Unicode.

Import Unicode.

(* ================================================================== *)
(** * annotator/languages/base.py *)
(* ================================================================== *)

(** [Literal["function", "class", "endpoint"]] *)
Inductive symbol_type : Type := TFunction | TClass | TEndpoint.

Record SymbolInfo : Type := {
  name : str;
  sym_line : Z;
  type : symbol_type;
  has_docs : bool;
  endpoint_method : option str;
  endpoint_path : option str;
  source_lines : list str
}.

(** The invariant of the two endpoint fields: both present or both
    absent. *)
Definition paired (s : SymbolInfo) : Prop :=
  match endpoint_method s, endpoint_path s with
  | Some _, Some _ => True
  | None, None => True
  | _, _ => False
  end.

(* ================================================================== *)
(** * annotator/languages/python_analyzer.py *)
(* ================================================================== *)

Module PythonAnalyzer.

(** ** The fragment of [ast] the analyzer inspects *)

(** [ast.Constant.value]: a [str], or any other constant, of which only
    the text [str(value)] is read. *)
Inductive constant : Type :=
| CStr (s : str)
| COther (text : str).

Definition py_str (c : constant) : str :=
  match c with CStr s => s | COther text => text end.

Inductive expr : Type :=
| Call (func : expr) (args : list expr) (keywords : list keyword)
| Attribute (value : expr) (attr : str)
| Constant (value : constant)
| ListE (elts : list expr)
| Name (id : str)
| OtherExpr
with keyword : Type :=
| Keyword (arg : option str) (value : expr).

(** Statement-level nodes.  [FunctionDef] stands for both [ast.FunctionDef]
    and [ast.AsyncFunctionDef] ([is_async] tells them apart); [end_lineno]
    is [None] when the attribute is missing.  [OtherNode] is any node that
    is neither, with the child nodes that may hold definitions (a module,
    a class, a compound statement, an [except] handler). *)
Inductive node : Type :=
| FunctionDef (is_async : bool) (fname : str) (decorator_list : list expr)
    (body : list node) (lineno : Z) (end_lineno : option Z)
| ExprStmt (value : expr)
| OtherNode (children : list node).

(** [ast.iter_child_nodes], restricted to nodes that can contain a
    definition (expressions contain none). *)
Definition iter_child_nodes (n : node) : list node :=
  match n with
  | FunctionDef _ _ _ body _ _ => body
  | ExprStmt _ => []
  | OtherNode children => children
  end.

Fixpoint size (n : node) : nat :=
  match n with
  | FunctionDef _ _ _ body _ _ => S (list_sum (map size body))
  | ExprStmt _ => 1
  | OtherNode children => S (list_sum (map size children))
  end.

(** [ast.walk]: breadth first, through a queue.
<<
    todo = deque([node])
    while todo:
        node = todo.popleft()
        todo.extend(iter_child_nodes(node))
        yield node
>>
    [steps] bounds the iterations; [size tree] of them empty the queue. *)
Fixpoint walk_queue (steps : nat) (todo : list node) : list node :=
  match steps with
  | O => []
  | S steps' =>
      match todo with
      | [] => []
      | n :: rest => n :: walk_queue steps' (rest ++ iter_child_nodes n)
      end
  end.

Definition walk (tree : node) : list node := walk_queue (size tree) [tree].

(** ** The module *)

Definition HTTP_METHODS : list str :=
  [lit "GET"; lit "POST"; lit "PUT"; lit "DELETE"; lit "PATCH";
   lit "HEAD"; lit "OPTIONS"].

Definition str_in (s : str) (l : list str) : bool := existsb (Str.eqb s) l.

(** The receiver names of the module constant [_FASTAPI_DECORATOR_RE].
    No function of the module refers to that constant. *)
Definition RECEIVER_NAMES : list str := [lit "app"; lit "router"; lit "api"].

Definition receiver_listed (receiver : expr) : bool :=
  match receiver with
  | Name id => str_in id RECEIVER_NAMES
  | _ => false
  end.

(** [decorator.args and isinstance(decorator.args[0], ast.Constant)] *)
Definition first_arg_constant (args : list expr) : option constant :=
  match args with
  | Constant c :: _ => Some c
  | _ => None
  end.

(** [for elt in kw.value.elts: if isinstance(elt, ast.Constant): return ...] *)
Fixpoint first_constant (elts : list expr) : option constant :=
  match elts with
  | [] => None
  | Constant c :: _ => Some c
  | _ :: rest => first_constant rest
  end.

Definition arg_is (arg : option str) (s : str) : bool :=
  match arg with Some a => Str.eqb a s | None => false end.

(** [for kw in decorator.keywords: ...]: the first [methods=[...]] keyword
    whose list holds a constant decides. *)
Fixpoint methods_keyword (db : DB) (keywords : list keyword) (path : str)
  : option (str * str) :=
  match keywords with
  | [] => None
  | Keyword arg value :: rest =>
      let found :=
        if arg_is arg (lit "methods") then
          match value with
          | ListE elts => first_constant elts
          | _ => None
          end
        else None in
      match found with
      | Some c => Some (upper db (py_str c), path)
      | None => methods_keyword db rest path
      end
  end.

Definition _decorator_to_endpoint (db : DB) (decorator : expr)
  : option (str * str) :=
  match decorator with
  | Call (Attribute _ attr) args keywords =>
      let method_name := upper db attr in
      let verb_result :=
        if str_in method_name HTTP_METHODS then
          match first_arg_constant args with
          | Some c => Some (method_name, py_str c)
          | None => None
          end
        else None in
      match verb_result with
      | Some r => Some r
      | None =>
          if Str.eqb method_name (lit "ROUTE") then
            match first_arg_constant args with
            | None => None
            | Some c =>
                let path := py_str c in
                match methods_keyword db keywords path with
                | Some r => Some r
                | None => Some (lit "GET", path)
                end
            end
          else None
      end
  | _ => None
  end.

Definition _has_docstring (body : list node) : bool :=
  match body with
  | ExprStmt (Constant (CStr _)) :: _ => true
  | _ => false
  end.

(** [for decorator in node.decorator_list: ... break]: the values of
    [endpoint_method], [endpoint_path] and [symbol_type] after the loop. *)
Fixpoint scan_decorators (db : DB) (decorator_list : list expr)
  : option str * option str * symbol_type :=
  match decorator_list with
  | [] => (None, None, TFunction)
  | decorator :: rest =>
      match _decorator_to_endpoint db decorator with
      | Some (m, p) => (Some m, Some p, TEndpoint)
      | None => scan_decorators db rest
      end
  end.

(** The body of [for node in ast.walk(tree)], on the list [symbols]. *)
Definition visit (db : DB) (lines : list str) (symbols : list SymbolInfo)
  (n : node) : list SymbolInfo :=
  match n with
  | FunctionDef _ fname decorator_list body lineno end_lineno =>
      if (startswith fname (lit "__")
          && negb (Str.eqb fname (lit "__init__")))%bool
      then symbols
      else
        let has_docs := _has_docstring body in
        let '(endpoint_method, endpoint_path, symbol_type) :=
          scan_decorators db decorator_list in
        if negb has_docs then
          let start := (lineno - 1)%Z in
          let end_ := match end_lineno with
                      | Some e => Z.min e (start + 30)
                      | None => (start + 10)%Z
                      end in
          let source_lines := slice lines start end_ in
          symbols ++
            [{| name := fname; sym_line := lineno; type := symbol_type;
                has_docs := false; endpoint_method := endpoint_method;
                endpoint_path := endpoint_path;
                source_lines := source_lines |}]
        else symbols
  | _ => symbols
  end.

Section Analyze.

(** [ast.parse]: the interpreter's parser.  It returns the module node or
    raises; [SyntaxError] is one of the exceptions it can raise. *)
Variable ast_parse : str -> result node.
Variable db : DB.

Definition analyze (content : str) : result (list SymbolInfo) :=
  match ast_parse content with
  | Raise SyntaxError => Ok []
  | Raise e => Raise e
  | Ok tree =>
      let lines := splitlines false content in
      Ok (fold_left (visit db lines) (walk tree) [])
  end.

End Analyze.

End PythonAnalyzer.

(* ================================================================== *)
(** * Python runtime: the [re] constructs the analyzers use *)
(* ================================================================== *)

Module Re.

(** Patterns.  Repetition is only ever applied to a one-character class
    in the patterns of this package ([\s*], [\w+], [[\s\S]*?], ...), so
    [Star] takes the class directly. *)
Inductive regex : Type :=
| Eps
| Class (p : char -> bool)            (* one character of a class *)
| Seq (a b : regex)
| Alt (a b : regex)                   (* [a|b], [a] tried first *)
| Star (greedy : bool) (p : char -> bool)
| Group (n : nat) (a : regex)         (* capturing group number [n] *)
| Bol                                 (* [^] under [re.MULTILINE] *)
| Eos.                                (* [$] without [re.MULTILINE] *)

(** A position in the subject: the text before it (nearest character
    first), the text after it, and the groups captured so far. *)
Record mstate : Type := {
  before : str;
  after : str;
  groups : list (nat * str)
}.

Abbreviation pos b a g := {| before := b; after := a; groups := g |}.

Definition cont := mstate -> option mstate.

Definition orelse (a : option mstate) (b : unit -> option mstate)
  : option mstate :=
  match a with Some r => Some r | None => b tt end.

(** [p*]: longest repetition first. *)
Fixpoint star_greedy (p : char -> bool) (bef aft : str)
  (g : list (nat * str)) (k : cont) : option mstate :=
  let stop := fun _ : unit => k {| before := bef; after := aft; groups := g |} in
  match aft with
  | c :: t =>
      if p c then orelse (star_greedy p (c :: bef) t g k) stop
      else stop tt
  | [] => stop tt
  end.

(** [p*?]: shortest repetition first. *)
Fixpoint star_lazy (p : char -> bool) (bef aft : str)
  (g : list (nat * str)) (k : cont) : option mstate :=
  orelse (k {| before := bef; after := aft; groups := g |})
    (fun _ =>
       match aft with
       | c :: t => if p c then star_lazy p (c :: bef) t g k else None
       | [] => None
       end).

(** The text between two positions of the same subject. *)
Definition consumed (st st' : mstate) : str :=
  rev (firstn (List.length (before st') - List.length (before st))
              (before st')).

(** [^] under [re.MULTILINE]: at the start of the subject or just after a
    newline.  [$] without it: at the end of the subject or just before a
    newline that ends it. *)
Definition at_bol (bef : str) : bool :=
  match bef with
  | [] => true
  | c :: _ => char_eqb c NL
  end.

Definition at_eos (aft : str) : bool :=
  match aft with
  | [] => true
  | [c] => char_eqb c NL
  | _ => false
  end.

(** Backtracking matcher: [run r st k] matches [r] at [st] and hands the
    position reached to [k]; when [k] fails, the next alternative of [r]
    is tried. *)
Fixpoint run (r : regex) (st : mstate) (k : cont) : option mstate :=
  match r with
  | Eps => k st
  | Class p =>
      match after st with
      | c :: t =>
          if p c then k {| before := c :: before st; after := t;
                           groups := groups st |}
          else None
      | [] => None
      end
  | Seq a b => run a st (fun st' => run b st' k)
  | Alt a b => orelse (run a st k) (fun _ => run b st k)
  | Star true p => star_greedy p (before st) (after st) (groups st) k
  | Star false p => star_lazy p (before st) (after st) (groups st) k
  | Group n a =>
      run a st (fun st' =>
        k {| before := before st'; after := after st';
             groups := (n, consumed st st') :: groups st' |})
  | Bol => if at_bol (before st) then k st else None
  | Eos => if at_eos (after st) then k st else None
  end.

(** What a pattern can match, without the order of the attempts:
    [derives r st st'] when some way of matching [r] at [st] ends at
    [st'].  [run] explores exactly these (see [run_sound] and
    [run_complete]). *)
Inductive derives : regex -> mstate -> mstate -> Prop :=
| D_Eps st : derives Eps st st
| D_Class p c t bef g :
    p c = true ->
    derives (Class p) {| before := bef; after := c :: t; groups := g |}
                      {| before := c :: bef; after := t; groups := g |}
| D_Seq a b st1 st2 st3 :
    derives a st1 st2 -> derives b st2 st3 -> derives (Seq a b) st1 st3
| D_AltL a b st st' : derives a st st' -> derives (Alt a b) st st'
| D_AltR a b st st' : derives b st st' -> derives (Alt a b) st st'
| D_StarStop gr p st : derives (Star gr p) st st
| D_StarStep gr p c t bef g st' :
    p c = true ->
    derives (Star gr p) {| before := c :: bef; after := t; groups := g |} st' ->
    derives (Star gr p) {| before := bef; after := c :: t; groups := g |} st'
| D_Group n a st st' :
    derives a st st' ->
    derives (Group n a) st
            {| before := before st'; after := after st';
               groups := (n, consumed st st') :: groups st' |}
| D_Bol st : at_bol (before st) = true -> derives Bol st st
| D_Eos st : at_eos (after st) = true -> derives Eos st st.

(** [sets n r]: every way through [r] passes group [n]. *)
Fixpoint sets (n : nat) (r : regex) : bool :=
  match r with
  | Group m a => (Nat.eqb m n || sets n a)%bool
  | Seq a b => (sets n a || sets n b)%bool
  | Alt a b => (sets n a && sets n b)%bool
  | _ => false
  end.

(** A match object: [m.start()], [m.end()], and the captured groups. *)
Record rmatch : Type := {
  m_start : nat;
  m_end : nat;
  m_groups : list (nat * str)
}.

(** [m.group(n)]: [None] when the group took no part in the match. *)
Fixpoint lookup_group (n : nat) (g : list (nat * str)) : option str :=
  match g with
  | [] => None
  | (i, s) :: rest => if Nat.eqb i n then Some s else lookup_group n rest
  end.

Definition group (m : rmatch) (n : nat) : option str :=
  lookup_group n (m_groups m).

Definition match_at (r : regex) (bef aft : str) : option rmatch :=
  match run r {| before := bef; after := aft; groups := [] |}
            (fun st => Some st) with
  | Some st => Some {| m_start := List.length bef;
                       m_end := List.length (before st);
                       m_groups := groups st |}
  | None => None
  end.

(** [pattern.search(s)]: the match at the leftmost position that has one. *)
Fixpoint search_from (r : regex) (bef aft : str) : option rmatch :=
  match match_at r bef aft with
  | Some m => Some m
  | None =>
      match aft with
      | [] => None
      | c :: t => search_from r (c :: bef) t
      end
  end.

Definition search (r : regex) (s : str) : option rmatch :=
  search_from r [] s.

(** [pattern.finditer(s)]: successive non-overlapping matches, left to
    right.  [skip] counts the characters still covered by the previous
    match.  (No pattern of this package matches the empty string.) *)
Fixpoint scan (r : regex) (bef aft : str) (skip : nat) : list rmatch :=
  match skip with
  | S skip' =>
      match aft with
      | [] => []
      | c :: t => scan r (c :: bef) t skip'
      end
  | O =>
      match match_at r bef aft with
      | Some m =>
          m :: match aft with
               | [] => []
               | c :: t => scan r (c :: bef) t (m_end m - m_start m - 1)
               end
      | None =>
          match aft with
          | [] => []
          | c :: t => scan r (c :: bef) t 0
          end
      end
  end.

Definition finditer (r : regex) (s : str) : list rmatch := scan r [] s 0.

(** ** Pattern syntax *)

Definition chr (c : char) : regex := Class (char_eqb c).

(** A literal character under [re.IGNORECASE]: equal after simple
    lower-casing, or one of the extra case pairs of [re] (dotless and
    dotted I with [i], long S with [s], the Kelvin sign with [k]). *)
Definition ci_char (pc c : char) : bool :=
  let lp := ascii_lower pc in
  (N.eqb (ascii_lower c) lp
   || (N.eqb lp 105 && (N.eqb c 304 || N.eqb c 305))
   || (N.eqb lp 115 && N.eqb c 383)
   || (N.eqb lp 107 && N.eqb c 8490))%bool.

Definition chri (c : char) : regex := Class (ci_char c).

Fixpoint text (s : str) : regex :=
  match s with
  | [] => Eps
  | c :: t => Seq (chr c) (text t)
  end.

Fixpoint texti (s : str) : regex :=
  match s with
  | [] => Eps
  | c :: t => Seq (chri c) (texti t)
  end.

Fixpoint seq (l : list regex) : regex :=
  match l with
  | [] => Eps
  | [r] => r
  | r :: rest => Seq r (seq rest)
  end.

Fixpoint alt (first : regex) (others : list regex) : regex :=
  match others with
  | [] => first
  | r :: rest => Alt first (alt r rest)
  end.

(** [r?], [p+], [p*] *)
Definition opt (r : regex) : regex := Alt r Eps.
Definition plus (p : char -> bool) : regex := Seq (Class p) (Star true p).
Definition star (p : char -> bool) : regex := Star true p.

End Re.

(* ================================================================== *)
(** * annotator/languages/typescript_analyzer.py *)
(* ================================================================== *)

Module TypeScriptAnalyzer.

Import Re.

(** ** Ordered dictionaries ([dict[int, ...]]) and the [set] of seen lines *)

(** [d[k] = v]: an existing key keeps its place; a new one goes last. *)
Fixpoint dict_set {V} (k : Z) (v : V) (d : list (Z * V)) : list (Z * V) :=
  match d with
  | [] => [(k, v)]
  | (k', v') :: rest =>
      if (k' =? k)%Z then (k, v) :: rest else (k', v') :: dict_set k v rest
  end.

Definition set_mem (x : Z) (s : list Z) : bool := existsb (Z.eqb x) s.
Definition set_add (x : Z) (s : list Z) : list Z :=
  if set_mem x s then s else x :: s.

(** ** Patterns *)

Section Patterns.

Variable db : DB.

Definition ws : char -> bool := isspace.
Definition word : char -> bool := is_word db.
Definition any_char : char -> bool := fun _ => true.

(** The patterns below are quoted in [re.VERBOSE] layout (blanks between
    the pieces are not part of the pattern), with [\x22] for the double
    quote and [\x20] for the blank.

    The quote class ['\x22`] and the negated class [^'\x22`\x20] of a
    path. *)
Definition quote (c : char) : bool :=
  (char_eqb c SQUOTE || char_eqb c DQUOTE || char_eqb c BACKTICK)%bool.
Definition path_char (c : char) : bool :=
  negb (quote c || char_eqb c SPACE).

Definition OPEN_PAREN : regex := chr 40%N.
Definition CLOSE_PAREN : regex := chr 41%N.

(** [re.MULTILINE]:
    [^ (?:export\s+)? (?:async\s+)? function \s+ (\w+) \s* \(] *)
Definition FUNC_PATTERN_0 : regex :=
  seq [Bol;
       opt (seq [text (lit "export"); plus ws]);
       opt (seq [text (lit "async"); plus ws]);
       text (lit "function"); plus ws;
       Group 1 (plus word); star ws; OPEN_PAREN].

(** [re.MULTILINE]:
    [^ (?:export\s+)? const \s+ (\w+) \s* = \s* (?:async\s+)? \(] *)
Definition FUNC_PATTERN_1 : regex :=
  seq [Bol;
       opt (seq [text (lit "export"); plus ws]);
       text (lit "const"); plus ws;
       Group 1 (plus word); star ws; chr 61%N; star ws;
       opt (seq [text (lit "async"); plus ws]);
       OPEN_PAREN].

(** [re.MULTILINE]:
    [^ (?:export\s+)? const \s+ (\w+) \s* = \s* async \s+ function \s* \(] *)
Definition FUNC_PATTERN_2 : regex :=
  seq [Bol;
       opt (seq [text (lit "export"); plus ws]);
       text (lit "const"); plus ws;
       Group 1 (plus word); star ws; chr 61%N; star ws;
       text (lit "async"); plus ws; text (lit "function"); star ws;
       OPEN_PAREN].

Definition _FUNC_PATTERNS : list regex :=
  [FUNC_PATTERN_0; FUNC_PATTERN_1; FUNC_PATTERN_2].

(** The alternation [get|post|put|delete|patch|head|options] under
    [re.IGNORECASE]. *)
Definition VERBS : regex :=
  alt (texti (lit "get"))
      [texti (lit "post"); texti (lit "put"); texti (lit "delete");
       texti (lit "patch"); texti (lit "head"); texti (lit "options")].

(** [re.IGNORECASE]:
    [(?:app|router|server) \. (get|post|put|delete|patch|head|options)
     \s* \( \s* ['\x22`] ( [^'\x22`\x20]+ ) ['\x22`]] *)
Definition _EXPRESS_RE : regex :=
  seq [alt (texti (lit "app")) [texti (lit "router"); texti (lit "server")];
       chr 46%N;
       Group 1 VERBS;
       star ws; OPEN_PAREN; star ws;
       Class quote; Group 2 (plus path_char); Class quote].

(** [re.IGNORECASE]:
    [@ (Get|Post|Put|Delete|Patch|Head|Options)
     \s* \( \s* (?: ['\x22`] ( [^'\x22`\x20]* ) ['\x22`] )? \s* \)] *)
Definition _NESTJS_ENDPOINT_RE : regex :=
  seq [chr 64%N;
       Group 1 VERBS;
       star ws; OPEN_PAREN; star ws;
       opt (seq [Class quote; Group 2 (star path_char); Class quote]);
       star ws; CLOSE_PAREN].

(** [re.IGNORECASE]:
    [@Controller
     \s* \( \s* (?: ['\x22`] ( [^'\x22`\x20]* ) ['\x22`] )? \s* \)] *)
Definition _NESTJS_CONTROLLER_RE : regex :=
  seq [texti (64%N :: lit "Controller");
       star ws; OPEN_PAREN; star ws;
       opt (seq [Class quote; Group 1 (star path_char); Class quote]);
       star ws; CLOSE_PAREN].

(** No flag: [/\*\* [\s\S]*? \*/ \s* $] *)
Definition _JSDOC_RE : regex :=
  seq [text (lit "/**"); Star false any_char; text (lit "*/");
       star ws; Eos].

Definition SLASH : char := 47%N.

(** ** Functions *)

(** The text searched for a doc comment: the lines
    [lines[search_start:func_line_idx]], joined by newlines. *)
Definition window (lines : list str) (func_line_idx : Z) : str :=
  let search_start := Z.max 0 (func_line_idx - 20) in
  join [NL] (slice lines search_start func_line_idx).

Definition _has_jsdoc_before (lines : list str) (func_line_idx : Z) : bool :=
  if (func_line_idx =? 0)%Z then false
  else
    let block := window lines func_line_idx in
    match search _JSDOC_RE block with
    | Some _ => true
    | None => false
    end.

(** A doc comment somewhere in a text: the opening token, later the
    closing token.  A doc comment that ends the text: the same, with
    nothing but whitespace after the closing token. *)
Definition DOC_OPEN : str := lit "/**".
Definition DOC_CLOSE : str := lit "*/".

Definition doc_block_anywhere (s : str) : Prop :=
  exists pre mid post, s = pre ++ DOC_OPEN ++ mid ++ DOC_CLOSE ++ post.

Definition doc_block_at_end (s : str) : Prop :=
  exists pre mid post,
    s = pre ++ DOC_OPEN ++ mid ++ DOC_CLOSE ++ post
    /\ forallb isspace post = true.

(** [content[: m.start()].count("\n")] *)
Definition line_of (content : str) (m : rmatch) : Z :=
  Z.of_nat (count NL (firstn (m_start m) content)).

(** A method call on a group that may be [None]. *)
Definition attr_of (g : option str) : result str :=
  match g with
  | Some s => Ok s
  | None => Raise AttributeError
  end.

(** [x or empty], for a group that may be [None] or empty. *)
Definition or_empty (g : option str) : str :=
  match g with
  | Some [] => []
  | Some s => s
  | None => []
  end.

(** [f"/{controller_base.strip('/')}/{path_part.strip('/')}".rstrip("/")],
    then a leading slash is restored when the result lost it. *)
Definition full_path_of (controller_base path_part : str) : str :=
  let full_path :=
    rstrip_chars [SLASH]
      ([SLASH] ++ strip_chars [SLASH] controller_base
       ++ [SLASH] ++ strip_chars [SLASH] path_part) in
  if negb (startswith full_path [SLASH]) then [SLASH] ++ full_path
  else full_path.

(** [for offset in range(1, 6): nestjs_endpoints[decorator_line + offset] = ...] *)
Definition spread (decorator_line : Z) (v : str * str)
  (d : list (Z * (str * str))) : list (Z * (str * str)) :=
  fold_left (fun d offset => dict_set (decorator_line + offset)%Z v d)
            [1; 2; 3; 4; 5]%Z d.

(** The loop that fills [nestjs_endpoints]. *)
Fixpoint nestjs_loop (content controller_base : str) (ms : list rmatch)
  (d : list (Z * (str * str))) : result (list (Z * (str * str))) :=
  match ms with
  | [] => Ok d
  | m :: rest =>
      let decorator_line := line_of content m in
      g1 <- attr_of (group m 1) ;;
      let method := upper db g1 in
      let path_part := or_empty (group m 2) in
      let full_path := full_path_of controller_base path_part in
      nestjs_loop content controller_base rest
                  (spread decorator_line (method, full_path) d)
  end.

(** The loop that fills [express_endpoints]. *)
Fixpoint express_loop (content : str) (ms : list rmatch)
  (d : list (Z * (str * option str)))
  : result (list (Z * (str * option str))) :=
  match ms with
  | [] => Ok d
  | m :: rest =>
      let line_no := line_of content m in
      g1 <- attr_of (group m 1) ;;
      express_loop content rest (dict_set line_no (upper db g1, group m 2) d)
  end.

(** [for ep_line, (...) in express_endpoints.items():
       if abs(ep_line - line_no) <= 1: ... break] *)
Fixpoint near_express (d : list (Z * (str * option str))) (line_no : Z)
  : option (str * option str) :=
  match d with
  | [] => None
  | (ep_line, v) :: rest =>
      if (Z.abs (ep_line - line_no) <=? 1)%Z then Some v
      else near_express rest line_no
  end.

(** [for ep_line, (...) in nestjs_endpoints.items():
       if line_no == ep_line: ... break] *)
Fixpoint at_nestjs (d : list (Z * (str * str))) (line_no : Z)
  : option (str * str) :=
  match d with
  | [] => None
  | (ep_line, v) :: rest =>
      if (line_no =? ep_line)%Z then Some v else at_nestjs rest line_no
  end.

(** State of the detection loops: [symbols] and [seen_lines]. *)
Definition acc : Type := (list SymbolInfo * list Z)%type.

(** Every entry of [express_endpoints] carries a path; every symbol
    collected so far has its endpoint fields paired. *)
Definition has_path (kv : Z * (str * option str)) : Prop :=
  snd (snd kv) <> None.

Definition symbols_paired (a : acc) : Prop := Forall paired (fst a).

(** The body of [for m in pattern.finditer(content)]. *)
Definition func_step (content : str) (lines : list str)
  (express_endpoints : list (Z * (str * option str)))
  (nestjs_endpoints : list (Z * (str * str)))
  (a : acc) (m : rmatch) : result acc :=
  let '(symbols, seen_lines) := a in
  let line_no := line_of content m in
  if set_mem line_no seen_lines then Ok a
  else
    let seen_lines := set_add line_no seen_lines in
    fname <- attr_of (group m 1) ;;
    if startswith fname (lit "_") then Ok (symbols, seen_lines)
    else
      let has_docs := _has_jsdoc_before lines line_no in
      let '(endpoint_method, endpoint_path, symbol_type) :=
        match near_express express_endpoints line_no with
        | Some (ep_method, ep_path) => (Some ep_method, ep_path, TEndpoint)
        | None =>
            match at_nestjs nestjs_endpoints line_no with
            | Some (ep_method, ep_path) =>
                (Some ep_method, Some ep_path, TEndpoint)
            | None => (None, None, TFunction)
            end
        end in
      if negb has_docs then
        let start := line_no in
        let end_ := Z.min (len lines) (start + 30) in
        Ok (symbols ++
              [{| name := fname; sym_line := (line_no + 1)%Z;
                  type := symbol_type; has_docs := false;
                  endpoint_method := endpoint_method;
                  endpoint_path := endpoint_path;
                  source_lines := slice lines start end_ |}],
            seen_lines)
      else Ok (symbols, seen_lines).

Fixpoint for_each {A S} (f : S -> A -> result S) (l : list A) (s : S)
  : result S :=
  match l with
  | [] => Ok s
  | x :: rest => s' <- f s x ;; for_each f rest s'
  end.

(** The body of the final loop over [express_endpoints.items()]. *)
Definition standalone_step (lines : list str) (a : acc)
  (item : Z * (str * option str)) : result acc :=
  let '(symbols, seen_lines) := a in
  let '(ep_line, (ep_method, ep_path)) := item in
  if negb (set_mem ep_line seen_lines) then
    let seen_lines := set_add ep_line seen_lines in
    let has_docs := _has_jsdoc_before lines ep_line in
    if negb has_docs then
      let start := ep_line in
      let end_ := Z.min (len lines) (start + 30) in
      p <- attr_of ep_path ;;
      Ok (symbols ++
            [{| name := lower db ep_method ++ lit "_"
                        ++ strip_chars (lit "_") (replace SLASH 95%N p);
                sym_line := (ep_line + 1)%Z;
                type := TEndpoint; has_docs := false;
                endpoint_method := Some ep_method;
                endpoint_path := ep_path;
                source_lines := slice lines start end_ |}],
          seen_lines)
    else Ok (symbols, seen_lines)
  else Ok a.

(** [symbols.sort(key=lambda s: s.line)]: stable, ascending. *)
Fixpoint insert_by_line (s : SymbolInfo) (l : list SymbolInfo)
  : list SymbolInfo :=
  match l with
  | [] => [s]
  | t :: rest => if (sym_line s <=? sym_line t)%Z then s :: l
                 else t :: insert_by_line s rest
  end.

Definition sort_by_line (l : list SymbolInfo) : list SymbolInfo :=
  fold_right insert_by_line [] l.

Definition analyze (content : str) : result (list SymbolInfo) :=
  let lines := splitlines false content in
  let controller_base :=
    match search _NESTJS_CONTROLLER_RE content with
    | Some controller_match => or_empty (group controller_match 1)
    | None => []
    end in
  nestjs_endpoints <-
    nestjs_loop content controller_base
                (finditer _NESTJS_ENDPOINT_RE content) [] ;;
  express_endpoints <-
    express_loop content (finditer _EXPRESS_RE content) [] ;;
  a <- for_each
         (fun a pattern =>
            for_each (func_step content lines express_endpoints
                                nestjs_endpoints)
                     (finditer pattern content) a)
         _FUNC_PATTERNS ([], []) ;;
  a <- for_each (standalone_step lines) express_endpoints a ;;
  Ok (sort_by_line (fst a)).

End Patterns.

End TypeScriptAnalyzer.

(* ================================================================== *)
(** * Concrete inputs *)
(* ================================================================== *)

Module Scenarios.

Import DiffViewer.

(** The source, the doc string and the proposal of scenario C. *)
Definition TRIPLE_QUOTE : str := [DQUOTE; DQUOTE; DQUOTE].

Definition scenario_source : str :=
  lit "def f(a, b):" ++ [NL] ++ lit "    return a + b" ++ [NL].

Definition scenario_doc : str :=
  TRIPLE_QUOTE ++ lit "Adds two numbers." ++ TRIPLE_QUOTE.

Definition scenario_proposal : DocProposal :=
  {| symbol_name := lit "f"; line := 1; proposed_doc := scenario_doc;
     snippets := 0 |}.

(** Proposals anchored one line and two lines past the last line of
    the two-line source. *)
Definition proposal_line3 : DocProposal :=
  {| symbol_name := lit "h"; line := 3; proposed_doc := lit "# end";
     snippets := 0 |}.

Definition proposal_line4 : DocProposal :=
  {| symbol_name := lit "k"; line := 4; proposed_doc := lit "# lost";
     snippets := 0 |}.

(** Two proposals at lines 2 and 1 of the same source. *)
Definition proposal_line2 : DocProposal :=
  {| symbol_name := lit "g"; line := 2; proposed_doc := lit "# two";
     snippets := 0 |}.

(** A parser given by a finite table, standing for [ast.parse] on the
    inputs of the examples; any other text is refused. *)
Fixpoint table_parse (table : list (str * result PythonAnalyzer.node))
  (content : str) : result PythonAnalyzer.node :=
  match table with
  | [] => Raise ValueError
  | (text, r) :: rest =>
      if Str.eqb text content then r else table_parse rest content
  end.

Import PythonAnalyzer.

(** The malformed input of [test_syntax_error_returns_empty]. *)
Definition malformed_source : str :=
  lit "def foo(:" ++ [NL] ++ lit "    pass".

(** Scenario B: [@app.get] with the path [/users] above
    [async def get_users(): return []]. *)
Definition users_path : str := lit "/users".

Definition scenario_b_source : str :=
  lit "@app.get(" ++ [DQUOTE] ++ users_path ++ [DQUOTE] ++ lit ")" ++ [NL]
  ++ lit "async def get_users():" ++ [NL]
  ++ lit "    return []" ++ [NL].

Definition scenario_b_tree : node :=
  OtherNode
    [FunctionDef true (lit "get_users")
       [Call (Attribute (Name (lit "app")) (lit "get"))
             [Constant (CStr users_path)] []]
       [OtherNode []] 2 (Some 3%Z)].

(** The same definition under a receiver that is not a listed name. *)
Definition unlisted_decorator : expr :=
  Call (Attribute (Name (lit "accounts")) (lit "get"))
       [Constant (CStr users_path)] [].

Definition unlisted_source : str :=
  lit "@accounts.get(" ++ [DQUOTE] ++ users_path ++ [DQUOTE] ++ lit ")"
  ++ [NL] ++ lit "async def get_users():" ++ [NL]
  ++ lit "    return []" ++ [NL].

Definition unlisted_tree : node :=
  OtherNode
    [FunctionDef true (lit "get_users") [unlisted_decorator]
       [OtherNode []] 2 (Some 3%Z)].

(** A route decorator with a path and a keyword other than [methods]. *)
Definition route_decorator : expr :=
  Call (Attribute (Name (lit "app")) (lit "route"))
       [Constant (CStr users_path)]
       [Keyword (Some (lit "strict_slashes")) (Constant (COther (lit "False")))].

Definition example_parse : str -> result node :=
  table_parse [(malformed_source, Raise SyntaxError);
               (scenario_b_source, Ok scenario_b_tree);
               (unlisted_source, Ok unlisted_tree)].

Import TypeScriptAnalyzer.

(** A doc comment, an unrelated statement, then the candidate at index 2. *)
Definition separated_lines : list str :=
  [lit "/** Adds. */"; lit "const x = 1;"; lit "function f() {}"].

Definition adjacent_lines : list str :=
  [lit "/** Adds. */"; lit "function f() {}"].

(** Scenario A: one undocumented function. *)
Definition scenario_a_source : str :=
  lit "function greet(name: string): string {" ++ [NL]
  ++ lit "  return `Hello ${name}`;" ++ [NL]
  ++ lit "}" ++ [NL].

(** A controller base path and a method path above a function. *)
Definition nest_source : str :=
  lit "@Controller('/api/')" ++ [NL]
  ++ lit "@Get('users')" ++ [NL]
  ++ lit "function list() {}" ++ [NL].

End Scenarios.

(* ================================================================== *)
(** * Relations used to state further properties *)
(* ================================================================== *)

(** [subsequence l1 l2]: [l1] is [l2] with some elements left out, the
    others in the same order. *)
Inductive subsequence {A : Type} : list A -> list A -> Prop :=
| sub_nil l : subsequence [] l
| sub_take x l1 l2 : subsequence l1 l2 -> subsequence (x :: l1) (x :: l2)
| sub_skip x l1 l2 : subsequence l1 l2 -> subsequence l1 (x :: l2).

Module DiffViewerSpec.

Import DiffViewer.

(** The test of the [while] loop on one line:
    [line.rstrip().endswith(",")]. *)
Definition continues (l : str) : bool := endswith (rstrip l) (lit ",").

(** The line at a 0-based position, the empty string outside the list
    (as in [lines[insert_at] if insert_at < len(lines) else empty]). *)
Definition line_at (lines : list str) (k : nat) : str := nth k lines [].

(** [len(func_line) - len(func_line.lstrip())] *)
Definition indent_of (func_line : str) : nat :=
  List.length func_line - List.length (lstrip func_line).

(** The doc block of a proposal as it is inserted under an anchor line:
    [extra] is 4 in the python family and 0 otherwise. *)
Definition block_for (func_line : str) (extra : nat) (p : DocProposal) : str :=
  indent_doc (repeat SPACE (indent_of func_line + extra))
             (with_newline (proposed_doc p)).

(** What happens to one line of a doc block:
    [prefix + l if l.strip() else l]. *)
Definition indent_line (prefix l : str) : str :=
  if truthy (strip l) then prefix ++ l else l.

(** A line that holds no line boundary of [splitlines]. *)
Definition single_line (s : str) : Prop :=
  Forall (fun c => is_linebreak c = false) s.

(** A three-line doc comment with a blank line in the middle. *)
Definition doc_lines : list str := [lit "/**"; []; lit " * Adds."].
Definition doc_last_line : str := lit " */".

End DiffViewerSpec.

Module AnalyzerSpec.

Import TypeScriptAnalyzer.

(** The kind of a symbol agrees with its endpoint fields. *)
Definition kind_matches (s : SymbolInfo) : Prop :=
  type s = TEndpoint <-> endpoint_method s <> None.

(** Number of newline characters of a text, as an [int]. *)
Definition newlines (content : str) : Z := Z.of_nat (count NL content).

(** What holds of the accumulator of the pattern-based analyzer between
    two iterations: every collected symbol is well formed, no two share a
    line, and the line of each is recorded in [seen_lines]. *)
Definition ts_symbol_ok (content : str) (s : SymbolInfo) : Prop :=
  has_docs s = false
  /\ kind_matches s
  /\ (List.length (source_lines s) <= 30)%nat
  /\ (1 <= sym_line s <= newlines content + 1)%Z
  /\ (type s = TFunction -> startswith (name s) (lit "_") = false).

Definition ts_inv (content : str) (a : acc) : Prop :=
  Forall (ts_symbol_ok content) (fst a)
  /\ NoDup (map sym_line (fst a))
  /\ Forall (fun s => set_mem (sym_line s - 1) (snd a) = true) (fst a).

Definition key_in_text (content : str) (kv : Z * (str * option str)) : Prop :=
  (0 <= fst kv <= newlines content)%Z.

(** Ascending and strictly ascending order of reported lines. *)
Definition le_line (s t : SymbolInfo) : Prop := (sym_line s <= sym_line t)%Z.
Definition lt_line (s t : SymbolInfo) : Prop := (sym_line s < sym_line t)%Z.

(** A name the grammar-based analyzer leaves out: it starts with two
    underscores and is not [__init__]. *)
Definition excluded_name (fname : str) : bool :=
  (startswith fname (lit "__") && negb (Str.eqb fname (lit "__init__")))%bool.

Definition py_symbol_ok (s : SymbolInfo) : Prop :=
  has_docs s = false /\ kind_matches s /\ excluded_name (name s) = false.

End AnalyzerSpec.

Module PythonAnalyzerSpec.

Import PythonAnalyzer AnalyzerSpec.

(** All nodes of a tree, the tree itself first. *)
Fixpoint nodes_of (n : node) : list node :=
  n :: match n with
       | FunctionDef _ _ _ body _ _ => flat_map nodes_of body
       | ExprStmt _ => []
       | OtherNode children => flat_map nodes_of children
       end.

(** A definition the analyzer reports: not an excluded name, no
    docstring. *)
Definition reported (n : node) : bool :=
  match n with
  | FunctionDef _ fname _ body _ _ =>
      (negb (excluded_name fname) && negb (_has_docstring body))%bool
  | _ => false
  end.

(** Name and line of a definition. *)
Definition name_and_line (n : node) : str * Z :=
  match n with
  | FunctionDef _ fname _ _ lineno _ => (fname, lineno)
  | _ => ([], 0%Z)
  end.

Definition symbol_name_and_line (s : SymbolInfo) : str * Z :=
  (name s, sym_line s).

(** A keyword that is not [methods=...]. *)
Definition not_methods (kw : keyword) : Prop :=
  match kw with
  | Keyword arg _ => arg_is arg (lit "methods") = false
  end.

End PythonAnalyzerSpec.

Module MoreScenarios.

Import PythonAnalyzer.

(** A method [create] inside a class, itself holding a nested function
    [helper] with a docstring and a nested function [inner] without. *)
Definition inner_def : node :=
  FunctionDef false (lit "inner") [] [OtherNode []] 6 (Some 7%Z).

Definition nested_tree : node :=
  OtherNode
    [OtherNode
       [FunctionDef false (lit "create") []
          [FunctionDef false (lit "helper") []
             [ExprStmt (Constant (CStr (lit "Help."))); OtherNode []]
             3 (Some 5%Z);
           inner_def;
           OtherNode []]
          2 (Some 8%Z)]].

Definition nested_source : str := lit "nested".

Definition nested_parse : str -> result node :=
  Scenarios.table_parse [(nested_source, Ok nested_tree)].

(** [@bp.route] with the path [/users] and [methods=["post", "put"]]
    after another keyword. *)
Definition route_with_methods : expr :=
  Call (Attribute (Name (lit "bp")) (lit "route"))
       [Constant (CStr Scenarios.users_path)]
       [Keyword (Some (lit "strict_slashes"))
                (Constant (COther (lit "False")));
        Keyword (Some (lit "methods"))
                (ListE [Constant (CStr (lit "post"));
                        Constant (CStr (lit "put"))])].

End MoreScenarios.

Module PathSpec.

Import TypeScriptAnalyzer.

(** [s.strip("/")] *)
Definition trim_slashes (s : str) : str := strip_chars [SLASH] s.

(** The values [full_path] takes, by the trimmed base and path. *)
Definition joined_path (b p : str) : str :=
  match p, b with
  | [], [] => [SLASH]
  | [], _ :: _ => [SLASH] ++ b
  | _ :: _, _ => [SLASH] ++ b ++ [SLASH] ++ p
  end.

(** Twenty lines that end with a doc comment. *)
Definition twenty_lines : list str :=
  repeat (lit "let x = 1;") 19 ++ [lit "/** Adds. */"].

End PathSpec.

(* ================================================================== *)
(** * annotator/ui/diff_viewer.py: [show_file_proposals] *)
(* ================================================================== *)

Module Prompting.

(** What [Prompt.ask] can return with [choices=["y", "n", "s", "a"]]. *)
Inductive answer : Type := AnsY | AnsN | AnsS | AnsA.

(** [Decision] *)
Record Decision : Type := {
  file_path : str;
  accepted : list DocProposal;
  rejected : list DocProposal
}.

(** The [while True] loop for one proposal.  The user's answers are read
    from a list; [s] shows a diff on the console and asks again.  [None]
    when the answers run out (the prompt would wait).  What is printed
    is not part of the model: it does not reach the returned value. *)
Fixpoint ask (answers : list answer) : option (answer * list answer) :=
  match answers with
  | [] => None
  | AnsS :: rest => ask rest
  | choice :: rest => Some (choice, rest)
  end.

(** [for prop in proposals], on [accepted], [rejected], [accept_all] and
    the answers still to be read. *)
Fixpoint decide (proposals : list DocProposal) (accept_all : bool)
  (answers : list answer) (accepted rejected : list DocProposal)
  : option (list DocProposal * list DocProposal * list answer) :=
  match proposals with
  | [] => Some (accepted, rejected, answers)
  | prop :: rest =>
      if accept_all then
        decide rest true answers (accepted ++ [prop]) rejected
      else
        match ask answers with
        | None => None
        | Some (AnsA, answers') =>
            decide rest true answers' (accepted ++ [prop]) rejected
        | Some (AnsY, answers') =>
            decide rest false answers' (accepted ++ [prop]) rejected
        | Some (_, answers') =>
            decide rest false answers' accepted (rejected ++ [prop])
        end
  end.

(** The function returns the decision; the model also returns the
    answers it did not read. *)
Definition show_file_proposals (path : str) (proposals : list DocProposal)
  (accept_all : bool) (answers : list answer)
  : option (Decision * list answer) :=
  match proposals with
  | [] => Some ({| file_path := path; accepted := []; rejected := [] |},
                answers)
  | _ :: _ =>
      match decide proposals accept_all answers [] [] with
      | Some (acc, rej, answers') =>
          Some ({| file_path := path; accepted := acc; rejected := rej |},
                answers')
      | None => None
      end
  end.

End Prompting.

(* ================================================================== *)
(** * annotator/client.py: the reply of the model, before [json.loads] *)
(* ================================================================== *)

Module Client.

Definition FENCE : str := lit "```".

(** The lines of [generate_docs] between [raw = ....strip()] and
    [json.loads(raw)]:
<<
    if raw.startswith(FENCE):
        lines = raw.splitlines()
        raw = NL.join(lines[1:-1] if lines[-1] == FENCE else lines[1:])
>>
    [lines[1:]] is [lines[1:len(lines)]]. *)
Definition strip_fence (raw : str) : result str :=
  if startswith raw FENCE then
    let lines := splitlines false raw in
    last <- getitem lines (-1) ;;
    Ok (join [NL] (if Str.eqb last FENCE
                   then slice lines 1 (-1)
                   else slice lines 1 (len lines)))
  else Ok raw.

(** A line that holds no line boundary of [splitlines]. *)
Definition one_line (s : str) : Prop :=
  Forall (fun c => is_linebreak c = false) s.

(** A fenced reply: an opening fence line with a language tag, two
    payload lines, a closing fence. *)
Definition payload_lines : list str :=
  [lit "{"; lit "}"].

Definition fenced_reply : str :=
  join [NL] ((FENCE ++ lit "json") :: payload_lines ++ [FENCE]).

End Client.

(* ================================================================== *)
(** * annotator/api_docs/openapi.py: [update_operation] *)
(* ================================================================== *)

Module OpenApi.

(** The data [json.load] or the YAML loader returns. *)
Inductive json : Type :=
| JNull
| JBool (b : bool)
| JNum (text : str)
| JStr (s : str)
| JList (items : list json)
| JDict (entries : list (str * json)).

Inductive failure : Type := TypeError | AttributeError | KeyError.

Inductive outcome (A : Type) : Type :=
| Done (a : A)
| Fails (f : failure).

Arguments Done {A} a.
Arguments Fails {A} f.

(** Dictionaries keep their insertion order. *)
Definition dict : Type := list (str * json).

(** [d.get(k)] *)
Fixpoint dict_get (k : str) (d : dict) : option json :=
  match d with
  | [] => None
  | (k', v) :: rest => if Str.eqb k' k then Some v else dict_get k rest
  end.

(** [d[k] = v]: an existing key keeps its place. *)
Fixpoint dict_put (k : str) (v : json) (d : dict) : dict :=
  match d with
  | [] => [(k, v)]
  | (k', v') :: rest =>
      if Str.eqb k' k then (k, v) :: rest else (k', v') :: dict_put k v rest
  end.

(** [k in d] *)
Definition has_key (k : str) (d : dict) : bool :=
  match dict_get k d with Some _ => true | None => false end.

(** [d[k]] *)
Definition subscript (k : str) (d : dict) : outcome json :=
  match dict_get k d with
  | Some v => Done v
  | None => Fails KeyError
  end.

(** [if k not in d: d[k] = {}] *)
Definition ensure (k : str) (d : dict) : dict :=
  if has_key k d then d else dict_put k (JDict []) d.

(** [{**existing, **operation}] *)
Definition merge (existing operation : dict) : dict :=
  fold_left (fun d kv => dict_put (fst kv) (snd kv) d) operation existing.

Definition PATHS : str := lit "paths".

(** [endpoint_path if endpoint_path.startswith("/") else f"/{endpoint_path}"] *)
Definition path_key_of (endpoint_path : str) : str :=
  if startswith endpoint_path (lit "/") then endpoint_path
  else lit "/" ++ endpoint_path.

(** The data [update_operation] saves, from the data it loaded.  A value
    that is not a dictionary where one is needed raises: [TypeError] for
    the membership test, the subscript or the [**] unpacking,
    [AttributeError] for [.get]. *)
Definition update_operation (db : DB) (data : json)
  (http_method endpoint_path : str) (operation : dict) : outcome json :=
  match data with
  | JDict top =>
      let top := ensure PATHS top in
      let path_key := path_key_of endpoint_path in
      let method_key := lower db http_method in
      match subscript PATHS top with
      | Done (JDict paths) =>
          let paths := ensure path_key paths in
          match subscript path_key paths with
          | Done (JDict item) =>
              match dict_get method_key item with
              | Some (JDict existing) =>
                  let merged := merge existing operation in
                  Done (JDict (dict_put PATHS
                          (JDict (dict_put path_key
                             (JDict (dict_put method_key (JDict merged) item))
                             paths)) top))
              | None =>
                  let merged := merge [] operation in
                  Done (JDict (dict_put PATHS
                          (JDict (dict_put path_key
                             (JDict (dict_put method_key (JDict merged) item))
                             paths)) top))
              | Some _ => Fails TypeError
              end
          | Done _ => Fails AttributeError
          | Fails f => Fails f
          end
      | Done _ => Fails TypeError
      | Fails f => Fails f
      end
  | _ => Fails TypeError
  end.

(** The operation object stored under a path and a method, if any. *)
Definition operation_at (data : json) (path_key method_key : str)
  : option json :=
  match data with
  | JDict top =>
      match dict_get PATHS top with
      | Some (JDict paths) =>
          match dict_get path_key paths with
          | Some (JDict item) => dict_get method_key item
          | _ => None
          end
      | _ => None
      end
  | _ => None
  end.

(** The entries of the operation stored before the update; none when
    there was no such operation. *)
Definition entries_at (data : json) (path_key method_key : str) : dict :=
  match operation_at data path_key method_key with
  | Some (JDict existing) => existing
  | _ => []
  end.

(** A spec with one documented operation, and a new operation object. *)
Definition sample_spec : json :=
  JDict [(lit "openapi", JStr (lit "3.0.0"));
         (PATHS,
          JDict [(lit "/users",
                  JDict [(lit "get",
                          JDict [(lit "summary", JStr (lit "List"));
                                 (lit "tags", JList [])])])])].

Definition sample_operation : dict :=
  [(lit "summary", JStr (lit "List users"));
   (lit "description", JStr (lit "All of them."))].

Definition sample_updated : json :=
  JDict [(lit "openapi", JStr (lit "3.0.0"));
         (PATHS,
          JDict [(lit "/users",
                  JDict [(lit "get",
                          JDict [(lit "summary", JStr (lit "List users"));
                                 (lit "tags", JList []);
                                 (lit "description",
                                  JStr (lit "All of them."))])])])].

End OpenApi.

(* ================================================================== *)
(** * [update_operation] on the objects it mutates *)
(* ================================================================== *)

(** [update_operation] assigns into the object the loader returned.  The
    loaded data is a graph of objects: [json.load] builds a fresh object
    for every dictionary and list of the file, the YAML loader gives one
    object to an anchor and all its aliases.  Here the memory is a store
    of objects, a value is a scalar or a reference into the store, and an
    assignment [obj[k] = v] replaces the object in the store, so every
    reference to it sees the new entry. *)
Module OpenApiStore.

Import OpenApi.

Inductive value : Type :=
| VNull
| VBool (b : bool)
| VNum (text : str)
| VStr (s : str)
| VRef (r : nat).

(** The entries of a dictionary, in insertion order. *)
Definition entries : Type := list (str * value).

Inductive object : Type :=
| ODict (d : entries)
| OList (items : list value).

(** The object a reference [r] denotes is the one at index [r]. *)
Definition store : Type := list object.

(** [d.get(k)] *)
Fixpoint get (k : str) (d : entries) : option value :=
  match d with
  | [] => None
  | (k', v) :: rest => if Str.eqb k' k then Some v else get k rest
  end.

(** [d[k] = v] on the entries: an existing key keeps its place. *)
Fixpoint put (k : str) (v : value) (d : entries) : entries :=
  match d with
  | [] => [(k, v)]
  | (k', v') :: rest =>
      if Str.eqb k' k then (k, v) :: rest else (k', v') :: put k v rest
  end.

(** [{**existing, **operation}] *)
Definition merge (existing operation : entries) : entries :=
  fold_left (fun d kv => put (fst kv) (snd kv) d) operation existing.

(** [d[k]] *)
Definition subscript (d : entries) (k : str) : outcome value :=
  match get k d with
  | Some v => Done v
  | None => Fails KeyError
  end.

(** The dictionary a value refers to, with its reference.  Where the
    source needs a dictionary and has another value it raises [f]. *)
Definition as_dict (h : store) (v : value) (f : failure)
  : outcome (nat * entries) :=
  match v with
  | VRef r =>
      match nth_error h r with
      | Some (ODict d) => Done (r, d)
      | _ => Fails f
      end
  | _ => Fails f
  end.

(** The store with the object at [r] replaced. *)
Fixpoint set_object (h : store) (r : nat) (o : object) : store :=
  match h, r with
  | [], _ => []
  | _ :: rest, O => o :: rest
  | x :: rest, S r => x :: set_object rest r o
  end.

(** [obj[k] = v] for the dictionary at [r]. *)
Definition setitem (h : store) (r : nat) (k : str) (v : value) : store :=
  match nth_error h r with
  | Some (ODict d) => set_object h r (ODict (put k v d))
  | _ => h
  end.

(** [if k not in obj: obj[k] = {}] for the dictionary at [r], whose
    entries are [d]: the empty dictionary is a new object. *)
Definition ensure (h : store) (r : nat) (d : entries) (k : str) : store :=
  match get k d with
  | Some _ => h
  | None => setitem (h ++ [ODict []]) r k (VRef (List.length h))
  end.

(** [data["paths"]], for [data] the dictionary at [r]. *)
Definition paths_of (h : store) (r : nat) : outcome (nat * entries) :=
  match as_dict h (VRef r) TypeError with
  | Done (_, top) =>
      match subscript top PATHS with
      | Done pv => as_dict h pv TypeError
      | Fails f => Fails f
      end
  | Fails f => Fails f
  end.

(** [data["paths"][path_key]]; [f] is raised when it is no dictionary. *)
Definition item_of (h : store) (r : nat) (path_key : str) (f : failure)
  : outcome (nat * entries) :=
  match paths_of h r with
  | Done (_, paths) =>
      match subscript paths path_key with
      | Done iv => as_dict h iv f
      | Fails f' => Fails f'
      end
  | Fails f' => Fails f'
  end.

(** The entries [{**existing}] unpacks, for [existing] the result of
    [.get(method_key, {})]. *)
Definition existing_of (h : store) (found : option value)
  : outcome entries :=
  match found with
  | None => Done []
  | Some ev =>
      match as_dict h ev TypeError with
      | Done (_, existing) => Done existing
      | Fails f => Fails f
      end
  end.

(** The store after [update_operation] has run on the loaded [data], up
    to the call that saves it.  Every [data["paths"]] and
    [data["paths"][path_key]] of the source is read from the store at the
    point where the source evaluates it. *)
Definition update_operation (db : DB) (h : store) (data : value)
  (http_method endpoint_path : str) (operation : entries) : outcome store :=
  match as_dict h data TypeError with
  | Fails f => Fails f
  | Done (r, top) =>
      let h := ensure h r top PATHS in
      let path_key := path_key_of endpoint_path in
      let method_key := lower db http_method in
      match paths_of h r with
      | Fails f => Fails f
      | Done (pid, paths) =>
          let h := ensure h pid paths path_key in
          match item_of h r path_key AttributeError with
          | Fails f => Fails f
          | Done (_, item) =>
              match existing_of h (get method_key item) with
              | Fails f => Fails f
              | Done existing =>
                  let merged := List.length h in
                  let h := h ++ [ODict (merge existing operation)] in
                  match item_of h r path_key TypeError with
                  | Fails f => Fails f
                  | Done (iid, _) =>
                      Done (setitem h iid method_key (VRef merged))
                  end
              end
          end
      end
  end.

(** What the dictionary at [r] holds under [k]. *)
Definition entry (h : store) (r : nat) (k : str) : option value :=
  match nth_error h r with
  | Some (ODict d) => get k d
  | _ => None
  end.


(** A spec in which [/people] is an alias of [/users]: both keys hold
    the reference 2.  Object 0 is the top level, 1 the paths, 2 the
    shared path item, 3 the operation under [get], 4 its tags. *)
Definition aliased_store : store :=
  [ODict [(lit "openapi", VStr (lit "3.0.0")); (PATHS, VRef 1)];
   ODict [(lit "/users", VRef 2); (lit "/people", VRef 2)];
   ODict [(lit "get", VRef 3)];
   ODict [(lit "summary", VStr (lit "List")); (lit "tags", VRef 4)];
   OList []].

Definition aliased_operation : entries :=
  [(lit "summary", VStr (lit "List users"));
   (lit "description", VStr (lit "All of them."))].

Definition aliased_updated : store :=
  [ODict [(lit "openapi", VStr (lit "3.0.0")); (PATHS, VRef 1)];
   ODict [(lit "/users", VRef 2); (lit "/people", VRef 2)];
   ODict [(lit "get", VRef 5)];
   ODict [(lit "summary", VStr (lit "List")); (lit "tags", VRef 4)];
   OList [];
   ODict [(lit "summary", VStr (lit "List users"));
          (lit "tags", VRef 4);
          (lit "description", VStr (lit "All of them."))]].

End OpenApiStore.

(* ================================================================== *)
(** * What the insertion engine adds, written out from the doc text *)
(* ================================================================== *)

Module InsertionSpec.

Import DiffViewerSpec.

(** The element inserted for a doc at an indentation of [m] spaces,
    written from the text of the doc alone: a newline is added to the doc
    when it does not end with one; its final newlines are dropped and it
    is cut into lines; every line that is not blank gets [m] spaces in
    front; the lines are joined by newlines and one newline closes the
    block. *)
Definition doc_block (m : nat) (doc : str) : str :=
  let doc := if endswith doc [NL] then doc else doc ++ [NL] in
  join [NL]
       (map (indent_line (repeat SPACE m))
            (splitlines false (rstrip_chars [NL] doc)))
  ++ [NL].

(** A proposal with the indentation it is inserted at. *)
Definition block_of (mp : nat * DocProposal) : str :=
  doc_block (fst mp) (proposed_doc (snd mp)).

(** The 0-based index of the anchor line of a proposal. *)
Definition anchor (p : DocProposal) : nat := Z.to_nat (line p - 1).

End InsertionSpec.

(* ================================================================== *)
(** * Properties of the insertion engine *)
(* ================================================================== *)

Section StrFacts.

Lemma join_empty_cons (x : str) (l : list str) :
  join [] (x :: l) = x ++ join [] l.
Proof.
  destruct l as [|y l]; simpl.
  - now rewrite app_nil_r.
  - reflexivity.
Qed.

Lemma join_empty_concat (l : list str) : join [] l = List.concat l.
Proof.
  induction l as [|x l IH].
  - reflexivity.
  - rewrite join_empty_cons, IH. reflexivity.
Qed.

(** Joining the lines that [splitlines(keepends=True)] produces gives
    back the text that was scanned, whatever was already read. *)
Lemma splitlines_from_join (n : nat) :
  forall (s cur : str), (List.length s <= n)%nat ->
    join [] (splitlines_from true cur s) = rev cur ++ s.
Proof.
  induction n as [|n IH]; intros s cur Hn.
  - destruct s; [|simpl in Hn; lia].
    simpl. destruct cur as [|c cur']; simpl.
    + reflexivity.
    + now rewrite app_nil_r.
  - destruct s as [|c t].
    + simpl. destruct cur as [|c cur']; simpl.
      * reflexivity.
      * now rewrite app_nil_r.
    + simpl in Hn. simpl splitlines_from.
      destruct (is_linebreak c).
      * destruct t as [|d t'].
        -- reflexivity.
        -- destruct (char_eqb c CR && char_eqb d NL)%bool.
           ++ rewrite join_empty_cons, IH by (simpl in Hn; lia).
              simpl. rewrite <- !app_assoc. reflexivity.
           ++ rewrite join_empty_cons, IH by lia.
              simpl. rewrite <- !app_assoc. reflexivity.
      * rewrite IH by lia. simpl. rewrite <- app_assoc. reflexivity.
Qed.

Lemma splitlines_keepends_join (s : str) :
  join [] (splitlines true s) = s.
Proof.
  unfold splitlines. now rewrite (splitlines_from_join (n := List.length s)).
Qed.

End StrFacts.

Section InsertionEngine.

Import DiffViewer Scenarios.

(** ** The stable descending sort *)

Lemma insert_desc_perm (p : DocProposal) (l : list DocProposal) :
  Permutation (p :: l) (insert_desc p l).
Proof.
  induction l as [|q t IH]; simpl.
  - apply Permutation_refl.
  - destruct (line q <=? line p)%Z.
    + apply Permutation_refl.
    + eapply perm_trans; [apply perm_swap|]. now apply perm_skip.
Qed.

Lemma sorted_desc_perm (l : list DocProposal) :
  Permutation l (sorted_desc l).
Proof.
  induction l as [|p l IH]; simpl.
  - constructor.
  - eapply perm_trans; [|apply insert_desc_perm]. now apply perm_skip.
Qed.

Lemma insert_desc_sorted (p : DocProposal) (l : list DocProposal) :
  StronglySorted ge_line l -> StronglySorted ge_line (insert_desc p l).
Proof.
  induction 1 as [|q t Hs IH Hq]; simpl.
  - repeat constructor.
  - destruct (line q <=? line p)%Z eqn:E.
    + apply Z.leb_le in E. constructor.
      * now constructor.
      * constructor; [exact E|].
        eapply Forall_impl; [|exact Hq]. unfold ge_line. intros; lia.
    + apply Z.leb_gt in E. constructor; [exact IH|].
      eapply Permutation_Forall; [apply insert_desc_perm|].
      constructor; [unfold ge_line; lia | exact Hq].
Qed.

Lemma sorted_desc_sorted (l : list DocProposal) :
  StronglySorted ge_line (sorted_desc l).
Proof.
  induction l as [|p l IH]; simpl.
  - constructor.
  - now apply insert_desc_sorted.
Qed.

Lemma same_line_same_proposal (l : list DocProposal) (a b : DocProposal) :
  NoDup (map line l) -> In a l -> In b l -> line a = line b -> a = b.
Proof.
  induction l as [|x l IH]; simpl; intros Hnd Ha Hb E; [contradiction|].
  inversion Hnd as [|? ? Hx Hl]; subst.
  destruct Ha as [->|Ha], Hb as [->|Hb].
  - reflexivity.
  - exfalso. apply Hx. rewrite E. now apply in_map.
  - exfalso. apply Hx. rewrite <- E. now apply in_map.
  - now apply IH.
Qed.

(** Two descending arrangements of the same proposals, at pairwise
    distinct lines, are the same list. *)
Lemma sorted_desc_unique (l1 : list DocProposal) :
  forall l2, StronglySorted ge_line l1 -> StronglySorted ge_line l2 ->
    Permutation l1 l2 -> NoDup (map line l1) -> l1 = l2.
Proof.
  induction l1 as [|a l1 IH]; intros l2 S1 S2 HP Hnd.
  - now apply Permutation_nil in HP.
  - destruct l2 as [|b l2].
    + apply Permutation_sym, Permutation_nil in HP. discriminate.
    + inversion S1 as [|? ? S1' F1]; subst.
      inversion S2 as [|? ? S2' F2]; subst.
      assert (Hab : a = b).
      { assert (Ha : In a (b :: l2))
          by (eapply Permutation_in; [exact HP | now left]).
        assert (Hb : In b (a :: l1))
          by (eapply Permutation_in;
              [apply Permutation_sym; exact HP | now left]).
        destruct Ha as [Ha|Ha]; [now symmetry|].
        destruct Hb as [Hb|Hb]; [exact Hb|].
        rewrite Forall_forall in F1, F2.
        specialize (F1 _ Hb). specialize (F2 _ Ha). unfold ge_line in *.
        apply same_line_same_proposal with (l := a :: l1); simpl; auto; lia. }
      subst b. f_equal.
      apply IH; trivial.
      * now apply Permutation_cons_inv in HP.
      * now inversion Hnd.
Qed.

Lemma sorted_desc_permutation_invariant (l l' : list DocProposal) :
  NoDup (map line l) -> Permutation l l' -> sorted_desc l = sorted_desc l'.
Proof.
  intros Hnd HP.
  apply sorted_desc_unique; try apply sorted_desc_sorted.
  - eapply perm_trans; [apply Permutation_sym, sorted_desc_perm|].
    eapply perm_trans; [exact HP | apply sorted_desc_perm].
  - eapply Permutation_NoDup; [|exact Hnd].
    apply Permutation_map, sorted_desc_perm.
Qed.

(** C1: for every source text, every language and every list of
    proposals at pairwise distinct lines, the engine returns the same
    result for every permutation of the list: it sorts the proposals into
    descending line order itself before it inserts. *)
Theorem C1_order_invariance (source language : str)
  (proposals proposals' : list DocProposal) :
  NoDup (map line proposals) ->
  Permutation proposals proposals' ->
  _apply_proposals_to_source source proposals' language
  = _apply_proposals_to_source source proposals language.
Proof.
  intros Hnd HP.
  unfold _apply_proposals_to_source, final_lines.
  now rewrite (sorted_desc_permutation_invariant Hnd HP).
Qed.

Lemma C1_order_invariance_witness :
  _apply_proposals_to_source scenario_source
    [proposal_line2; scenario_proposal] (lit "python")
  = _apply_proposals_to_source scenario_source
    [scenario_proposal; proposal_line2] (lit "python").
Proof.
  apply C1_order_invariance.
  - repeat constructor; simpl; intuition discriminate.
  - apply perm_swap.
Defined.

(** C10: with no proposal the engine returns the source text unchanged,
    for every source text and every language: splitting into lines with
    their terminators and joining them again is the identity. *)
Theorem C10_empty_proposals_identity (source language : str) :
  _apply_proposals_to_source source [] language = Ok source.
Proof.
  unfold _apply_proposals_to_source, final_lines. simpl.
  now rewrite splitlines_keepends_join.
Qed.

(** C2: on the two-line source of scenario C, python family, one proposal
    anchored at line 1, the engine returns a text whose line 1 is the
    definition, whose line 2 is the doc string behind exactly four spaces,
    and whose line 3 is the original return line, unchanged. *)
Theorem C2_scenario_docstring_inserted :
  _apply_proposals_to_source scenario_source [scenario_proposal]
                             (lit "python")
  = Ok (lit "def f(a, b):" ++ [NL]
        ++ lit "    " ++ scenario_doc ++ [NL]
        ++ lit "    return a + b" ++ [NL])
  /\ (exists out,
        _apply_proposals_to_source scenario_source [scenario_proposal]
                                   (lit "python") = Ok out
        /\ nth_error (splitlines false out) 1
           = Some (repeat SPACE 4 ++ scenario_doc)
        /\ lstrip (repeat SPACE 4 ++ scenario_doc) = scenario_doc
        /\ nth_error (splitlines false out) 2
           = nth_error (splitlines false scenario_source) 1
        /\ nth_error (splitlines false out) 2
           = Some (lit "    return a + b")
        /\ List.length (splitlines false out) = 3%nat).
Proof.
  split.
  - vm_compute. reflexivity.
  - eexists. split; [vm_compute; reflexivity|].
    repeat split; vm_compute; reflexivity.
Qed.

(** ** Skipping of anchors that are out of range *)

Lemma getitem_in_range {A} (l : list A) (i : Z) :
  (0 <= i < len l)%Z -> exists x, getitem l i = Ok x.
Proof.
  intros [H0 H1]. unfold getitem, norm_index.
  destruct (i <? 0)%Z eqn:E; [apply Z.ltb_lt in E; lia|]. rewrite E.
  destruct (nth_error l (Z.to_nat i)) as [x|] eqn:N.
  - now exists x.
  - apply nth_error_None in N. unfold len in H1. lia.
Qed.

Lemma find_body_start_returns (lines : list str) :
  forall steps b, (1 <= b)%Z -> (len lines - b <= Z.of_nat steps)%Z ->
    exists b', find_body_start steps lines b = Ok b'.
Proof.
  induction steps as [|steps IH]; intros b Hb Hs; simpl.
  - destruct (b <? len lines)%Z eqn:E; [apply Z.ltb_lt in E; lia|].
    now exists b.
  - destruct (b <? len lines)%Z eqn:E; [|now exists b].
    apply Z.ltb_lt in E.
    destruct (@getitem_in_range _ lines (b - 1)%Z) as [prev ->]; [lia|].
    simpl. destruct (endswith (rstrip prev) (lit ",")); [|now exists b].
    apply IH; lia.
Qed.

Lemma insert_length {A} (l : list A) (i : Z) (x : A) :
  List.length (insert l i x) = S (List.length l).
Proof.
  unfold insert. rewrite length_app. simpl.
  pose proof (firstn_skipn (clamp l i) l) as H.
  apply (f_equal (@List.length A)) in H. rewrite length_app in H. lia.
Qed.

Lemma insert_In_new {A} (l : list A) (i : Z) (x : A) : In x (insert l i x).
Proof. unfold insert. apply in_or_app. right. now left. Qed.

Lemma insert_In_old {A} (l : list A) (i : Z) (x y : A) :
  In y l -> In y (insert l i x).
Proof.
  unfold insert. intros H.
  rewrite <- (firstn_skipn (clamp l i) l) in H.
  apply in_app_or in H. apply in_or_app. destruct H; [now left|].
  right. now right.
Qed.

(** One iteration either skips the proposal, when the guard holds, or
    inserts its indented doc block as one new element of [lines]. *)
Lemma apply_one_cases (language : str) (lines : list str)
  (p : DocProposal) :
  (out_of_range lines p = true /\ apply_one language lines p = Ok lines)
  \/ (out_of_range lines p = false
      /\ exists m k,
           apply_one language lines p
           = Ok (insert lines k
                   (indent_doc (repeat SPACE m)
                               (with_newline (proposed_doc p))))).
Proof.
  unfold apply_one.
  destruct (out_of_range lines p) eqn:G; [now left|right].
  split; [reflexivity|].
  unfold out_of_range in G. apply orb_false_iff in G. destruct G as [G0 G1].
  apply Z.ltb_ge in G0.
  assert (G1' : (line p - 1 <= len lines)%Z).
  { destruct (Z.gtb_spec (line p - 1) (len lines)); [discriminate|lia]. }
  assert (Hf : exists func_line,
             (if (line p - 1 <? len lines)%Z
              then getitem lines (line p - 1) else Ok []) = Ok func_line).
  { destruct (line p - 1 <? len lines)%Z eqn:E.
    - apply Z.ltb_lt in E. apply getitem_in_range. lia.
    - now exists []. }
  destruct Hf as [func_line ->]. simpl.
  destruct (Str.eqb language (lit "python")).
  - destruct (@find_body_start_returns lines (List.length lines)
                (line p - 1 + 1)%Z) as [b ->]; [lia | unfold len; lia |].
    simpl. eexists (_ + 4)%nat, b.
    rewrite repeat_app. reflexivity.
  - eexists _, _. reflexivity.
Qed.

Lemma insert_desc_front (p : DocProposal) (l : list DocProposal) :
  Forall (ge_line p) l -> insert_desc p l = p :: l.
Proof.
  intros H. destruct l as [|q t]; [reflexivity|]. simpl.
  inversion H as [|? ? Hq _]; subst. unfold ge_line in Hq.
  apply Z.leb_le in Hq. now rewrite Hq.
Qed.

(** Filtering commutes with the stable sort. *)
Lemma filter_insert_desc (f : DocProposal -> bool) (p : DocProposal)
  (l : list DocProposal) :
  StronglySorted ge_line l ->
  filter f (insert_desc p l)
  = if f p then insert_desc p (filter f l) else filter f l.
Proof.
  induction 1 as [|q t Hs IH Hq]; simpl.
  - now destruct (f p).
  - destruct (line q <=? line p)%Z eqn:E; simpl.
    + apply Z.leb_le in E.
      destruct (f p) eqn:Fp; [|reflexivity].
      destruct (f q) eqn:Fq; simpl.
      * apply Z.leb_le in E. now rewrite E.
      * symmetry. apply insert_desc_front.
        apply Forall_forall. intros r Hr.
        apply filter_In in Hr. destruct Hr as [Hr _].
        rewrite Forall_forall in Hq. specialize (Hq _ Hr).
        unfold ge_line in *. lia.
    + rewrite IH. destruct (f q) eqn:Fq, (f p) eqn:Fp; simpl;
        try rewrite E; reflexivity.
Qed.

Lemma filter_sorted_desc (f : DocProposal -> bool) (l : list DocProposal) :
  filter f (sorted_desc l) = sorted_desc (filter f l).
Proof.
  induction l as [|p l IH]; simpl; [reflexivity|].
  rewrite filter_insert_desc by apply sorted_desc_sorted.
  rewrite IH. now destruct (f p).
Qed.

(** The loop over a descending list: the proposals the guard rejects
    against the lines of the source are exactly the ones it rejects when
    their turn comes, and every other one adds one element. *)
Lemma apply_loop_skips (language : str) (lines0 : list str) :
  forall ps lines,
    StronglySorted ge_line ps ->
    (len lines0 <= len lines)%Z ->
    ((len lines0 < len lines)%Z ->
     Forall (fun p => (line p - 1 <= len lines0)%Z) ps) ->
    let kept := filter (fun p => negb (out_of_range lines0 p)) ps in
    exists final,
      apply_loop language lines ps = Ok final
      /\ apply_loop language lines kept = Ok final
      /\ List.length final = (List.length lines + List.length kept)%nat
      /\ (forall x, In x lines -> In x final)
      /\ Forall (fun p => exists m,
                   In (indent_doc (repeat SPACE m)
                                  (with_newline (proposed_doc p))) final)
                kept.
Proof.
  induction ps as [|p ps IH]; intros lines Hs Hlen Hgrown; simpl.
  - exists lines. repeat split; auto.
  - inversion Hs as [|? ? Hs' Hp]; subst.
    destruct (apply_one_cases language lines p) as [[G E]|[G [m [k E]]]].
    + (* skipped now: also out of range against the source *)
      assert (G0 : out_of_range lines0 p = true).
      { unfold out_of_range in *. apply orb_true_iff in G.
        apply orb_true_iff. destruct G as [G|G]; [now left|right].
        destruct (Z.gtb_spec (line p - 1) (len lines)); [|discriminate].
        destruct (Z.gtb_spec (line p - 1) (len lines0)); [reflexivity|lia]. }
      rewrite G0, E. simpl.
      apply IH; trivial.
      intros Hlt. specialize (Hgrown Hlt). now inversion Hgrown.
    + (* inserted now: in range against the source as well *)
      assert (Hbound : (0 <= line p - 1 <= len lines)%Z).
      { unfold out_of_range in G. apply orb_false_iff in G.
        destruct G as [G0 G1]. apply Z.ltb_ge in G0.
        destruct (Z.gtb_spec (line p - 1) (len lines)); [discriminate|lia]. }
      assert (Hp0 : (line p - 1 <= len lines0)%Z).
      { destruct (Z.eq_dec (len lines0) (len lines)) as [Heq|Hne].
        - lia.
        - assert (Hlt : (len lines0 < len lines)%Z) by lia.
          specialize (Hgrown Hlt). now inversion Hgrown. }
      assert (G0 : out_of_range lines0 p = false).
      { unfold out_of_range. apply orb_false_iff. split.
        - apply Z.ltb_ge. lia.
        - destruct (Z.gtb_spec (line p - 1) (len lines0)); [lia|reflexivity]. }
      rewrite G0, E. simpl. rewrite E. simpl.
      set (block := indent_doc (repeat SPACE m)
                               (with_newline (proposed_doc p))) in *.
      destruct (IH (insert lines k block)) as [final [E1 [E2 [L [Keep Ins]]]]].
      * exact Hs'.
      * unfold len in *. rewrite insert_length. lia.
      * intros _. eapply Forall_impl; [|exact Hp].
        unfold ge_line. intros q Hq. lia.
      * exists final. repeat split; trivial.
        -- rewrite L, insert_length. simpl. lia.
        -- intros x Hx. apply Keep. now apply insert_In_old.
        -- constructor; [|exact Ins].
           exists m. apply Keep. apply insert_In_new.
Qed.

(** The boundary of the guard: an anchor one line past the last line
    (0-based index equal to the number of lines) passes the guard and its
    doc block is appended; one line further it is skipped. *)
Example anchor_at_end_is_appended :
  out_of_range (splitlines true scenario_source) proposal_line3 = false
  /\ out_of_range (splitlines true scenario_source) proposal_line4 = true
  /\ _apply_proposals_to_source scenario_source
       [proposal_line4; proposal_line3] (lit "typescript")
     = Ok (scenario_source ++ lit "# end" ++ [NL]).
Proof. repeat split; vm_compute; reflexivity. Qed.

End InsertionEngine.

(* ================================================================== *)
(** * Properties of the grammar-based analyzer *)
(* ================================================================== *)

Section PythonAnalyzerFacts.

Import PythonAnalyzer Scenarios.

Lemma str_eqb_eq (a b : str) : Str.eqb a b = true <-> a = b.
Proof.
  revert b. induction a as [|x a IH]; intros [|y b]; simpl;
    try (split; [discriminate|discriminate]); [tauto|].
  rewrite andb_true_iff. unfold char_eqb. rewrite N.eqb_eq, IH.
  split; [intros [-> ->]; reflexivity | intros H; inversion H; auto].
Qed.

Lemma str_eqb_refl (a : str) : Str.eqb a a = true.
Proof. now apply str_eqb_eq. Qed.

(** ** [ast.walk] empties its queue *)

Lemma size_children (n : node) :
  size n = S (list_sum (map size (iter_child_nodes n))).
Proof. destruct n; reflexivity. Qed.

Lemma walk_queue_length :
  forall steps todo, (list_sum (map size todo) <= steps)%nat ->
    List.length (walk_queue steps todo) = list_sum (map size todo).
Proof.
  induction steps as [|steps IH]; intros todo H.
  - simpl. lia.
  - destruct todo as [|n rest]; [reflexivity|].
    simpl in *. rewrite size_children in *.
    rewrite IH; rewrite map_app, list_sum_app; lia.
Qed.

(** The walk yields as many nodes as the tree has: the step bound of the
    model never cuts it short. *)
Lemma walk_complete (tree : node) : List.length (walk tree) = size tree.
Proof.
  unfold walk. rewrite walk_queue_length; simpl; lia.
Qed.

(** ** Decorators *)

Lemma verb_is_not_route (m : str) :
  str_in m HTTP_METHODS = true -> Str.eqb m (lit "ROUTE") = false.
Proof.
  unfold str_in, HTTP_METHODS. simpl. rewrite !orb_true_iff.
  rewrite !str_eqb_eq.
  intros H; repeat destruct H as [H|H]; subst; try reflexivity; discriminate.
Qed.

(** C4: when parsing the input fails with a syntax error, [analyze]
    returns the empty symbol list and raises nothing. *)
Theorem C4_syntax_error_returns_empty
  (ast_parse : str -> result node) (db : DB) (content : str) :
  ast_parse content = Raise SyntaxError ->
  analyze ast_parse db content = Ok [].
Proof.
  intros H. unfold analyze. now rewrite H.
Qed.

Lemma C4_syntax_error_witness :
  analyze example_parse ascii_db malformed_source = Ok [].
Proof.
  apply C4_syntax_error_returns_empty. vm_compute. reflexivity.
Defined.

(** C5, the claim as stated, fails: a decorator whose receiver is
    [accounts], not a listed name, with the attribute [get] and a constant
    path, is an endpoint decorator, and [analyze] reports the decorated
    function as an endpoint. *)
Lemma C5_unlisted_receiver_counterexample :
  receiver_listed (Name (lit "accounts")) = false
  /\ _decorator_to_endpoint ascii_db unlisted_decorator
     = Some (lit "GET", users_path)
  /\ analyze example_parse ascii_db unlisted_source
     = Ok [{| name := lit "get_users"; sym_line := 2; type := TEndpoint;
              has_docs := false; endpoint_method := Some (lit "GET");
              endpoint_path := Some users_path;
              source_lines := [lit "async def get_users():";
                               lit "    return []"] |}].
Proof.
  repeat split; vm_compute; reflexivity.
Qed.

(** C5, amended: a call-style decorator [receiver.attr(args)] whose
    attribute, upper-cased, is an HTTP method name is an endpoint decorator
    exactly when its first positional argument is a constant; the method is
    the upper-cased attribute and the path the text of that constant.  The
    receiver is any expression: it is not inspected. *)
Theorem C5_verb_decorator_any_receiver (db : DB) (receiver : expr)
  (attr : str) (args : list expr) (keywords : list keyword) :
  str_in (upper db attr) HTTP_METHODS = true ->
  _decorator_to_endpoint db (Call (Attribute receiver attr) args keywords)
  = match first_arg_constant args with
    | Some c => Some (upper db attr, py_str c)
    | None => None
    end.
Proof.
  intros H. unfold _decorator_to_endpoint. rewrite H.
  destruct (first_arg_constant args) as [c|]; [reflexivity|].
  now rewrite (verb_is_not_route _ H).
Qed.

Lemma C5_verb_decorator_witness :
  _decorator_to_endpoint ascii_db
    (Call (Attribute (Name (lit "accounts")) (lit "get"))
          [Constant (CStr users_path)] [])
  = Some (lit "GET", users_path).
Proof.
  apply (@C5_verb_decorator_any_receiver ascii_db (Name (lit "accounts"))
           (lit "get") [Constant (CStr users_path)] []).
  vm_compute. reflexivity.
Defined.

Lemma methods_keyword_absent (db : DB) (path : str) (keywords : list keyword) :
  Forall (fun kw => match kw with
                    | Keyword arg _ => arg_is arg (lit "methods") = false
                    end) keywords ->
  methods_keyword db keywords path = None.
Proof.
  induction 1 as [|[arg value] rest Hk _ IH]; simpl; [reflexivity|].
  now rewrite Hk.
Qed.

Lemma scan_decorators_first (db : DB) (d : expr) (later : list expr)
  (m p : str) :
  _decorator_to_endpoint db d = Some (m, p) ->
  scan_decorators db (d :: later) = (Some m, Some p, TEndpoint).
Proof. intros E. simpl. now rewrite E. Qed.

(** C8: a route decorator (attribute [route] in any letter case) with a
    constant first argument and no [methods] keyword gives the endpoint
    [(GET, path)]; the decorated function gets method GET, that path and
    the endpoint type.  The function is total: nothing is raised. *)
Theorem C8_route_without_methods_is_get (db : DB) (receiver : expr)
  (attr : str) (c : constant) (args : list expr) (keywords : list keyword)
  (later : list expr) :
  upper db attr = lit "ROUTE" ->
  Forall (fun kw => match kw with
                    | Keyword arg _ => arg_is arg (lit "methods") = false
                    end) keywords ->
  let decorator :=
    Call (Attribute receiver attr) (Constant c :: args) keywords in
  _decorator_to_endpoint db decorator = Some (lit "GET", py_str c)
  /\ scan_decorators db (decorator :: later)
     = (Some (lit "GET"), Some (py_str c), TEndpoint).
Proof.
  intros Hr Hk decorator.
  assert (E : _decorator_to_endpoint db decorator = Some (lit "GET", py_str c)).
  { unfold decorator, _decorator_to_endpoint. rewrite Hr. simpl.
    now rewrite (methods_keyword_absent db (py_str c) Hk). }
  split; [exact E|]. now apply scan_decorators_first.
Qed.

Lemma C8_route_without_methods_witness :
  _decorator_to_endpoint ascii_db route_decorator
  = Some (lit "GET", users_path)
  /\ scan_decorators ascii_db [route_decorator]
     = (Some (lit "GET"), Some users_path, TEndpoint).
Proof.
  apply (@C8_route_without_methods_is_get ascii_db (Name (lit "app"))
           (lit "route") (CStr users_path) []
           [Keyword (Some (lit "strict_slashes"))
                    (Constant (COther (lit "False")))] []).
  - vm_compute. reflexivity.
  - repeat constructor.
Defined.

(** Scenario B of the specification, on the model. *)
Example scenario_b_endpoint :
  analyze example_parse ascii_db scenario_b_source
  = Ok [{| name := lit "get_users"; sym_line := 2; type := TEndpoint;
           has_docs := false; endpoint_method := Some (lit "GET");
           endpoint_path := Some users_path;
           source_lines := [lit "async def get_users():";
                            lit "    return []"] |}].
Proof. vm_compute. reflexivity. Qed.

(** ** The endpoint fields are set together *)

Lemma scan_decorators_paired (db : DB) (decorator_list : list expr) :
  match scan_decorators db decorator_list with
  | (Some _, Some _, _) | (None, None, _) => True
  | _ => False
  end.
Proof.
  induction decorator_list as [|d rest IH]; simpl; [exact I|].
  destruct (_decorator_to_endpoint db d) as [[m p]|]; [exact I|exact IH].
Qed.

Lemma visit_paired (db : DB) (lines : list str) (symbols : list SymbolInfo)
  (n : node) :
  Forall paired symbols -> Forall paired (visit db lines symbols n).
Proof.
  intros H. destruct n as [a fname decs body lineno e| |]; simpl; trivial.
  destruct (startswith fname (lit "__")
            && negb (Str.eqb fname (lit "__init__")))%bool; trivial.
  pose proof (scan_decorators_paired db decs) as P.
  destruct (scan_decorators db decs) as [[em ep] ty].
  destruct (negb (_has_docstring body)); trivial.
  apply Forall_app. split; trivial.
  constructor; [|constructor]. unfold paired. simpl.
  destruct em, ep; trivial.
Qed.

Lemma fold_visit_paired (db : DB) (lines : list str) (nodes : list node) :
  forall symbols, Forall paired symbols ->
    Forall paired (fold_left (visit db lines) nodes symbols).
Proof.
  induction nodes as [|n nodes IH]; intros symbols H; simpl; trivial.
  apply IH. now apply visit_paired.
Qed.

Lemma python_analyze_paired (ast_parse : str -> result node) (db : DB)
  (content : str) :
  match analyze ast_parse db content with
  | Ok symbols => Forall paired symbols
  | Raise e => ast_parse content = Raise e /\ e <> SyntaxError
  end.
Proof.
  unfold analyze. destruct (ast_parse content) as [tree|e].
  - apply fold_visit_paired. constructor.
  - destruct e; try (split; [reflexivity|discriminate]). constructor.
Qed.

End PythonAnalyzerFacts.

(* ================================================================== *)
(** * Properties of the pattern matcher *)
(* ================================================================== *)

Section RegexFacts.

Import Re.

Lemma star_greedy_sound (gr : bool) (p : char -> bool) :
  forall aft bef g k res,
    star_greedy p bef aft g k = Some res ->
    exists st', derives (Star gr p) (pos bef aft g) st' /\ k st' = Some res.
Proof.
  induction aft as [|c t IH]; intros bef g k res H; simpl in H.
  - eexists. split; [apply D_StarStop | exact H].
  - destruct (p c) eqn:Pc.
    + unfold orelse in H.
      destruct (star_greedy p (c :: bef) t g k) as [r|] eqn:E.
      * inversion H; subst r. apply IH in E. destruct E as [st' [D K]].
        exists st'. split; [now apply D_StarStep | exact K].
      * eexists. split; [apply D_StarStop | exact H].
    + eexists. split; [apply D_StarStop | exact H].
Qed.

Lemma star_lazy_sound (gr : bool) (p : char -> bool) :
  forall aft bef g k res,
    star_lazy p bef aft g k = Some res ->
    exists st', derives (Star gr p) (pos bef aft g) st' /\ k st' = Some res.
Proof.
  induction aft as [|c t IH]; intros bef g k res H; simpl in H;
    unfold orelse in H.
  - destruct (k (pos bef [] g)) as [r|] eqn:E; [|discriminate].
    inversion H; subst r. eexists. split; [apply D_StarStop | exact E].
  - destruct (k (pos bef (c :: t) g)) as [r|] eqn:E.
    + inversion H; subst r. eexists. split; [apply D_StarStop | exact E].
    + destruct (p c) eqn:Pc; [|discriminate].
      apply IH in H. destruct H as [st' [D K]].
      exists st'. split; [now apply D_StarStep | exact K].
Qed.

(** Every result of the matcher comes from a way of matching the
    pattern that the continuation accepts. *)
Lemma run_sound (r : regex) :
  forall st k res,
    run r st k = Some res ->
    exists st', derives r st st' /\ k st' = Some res.
Proof.
  induction r as [|p|a IHa b IHb|a IHa b IHb|gr p|n a IHa| |];
    intros st k res H; simpl in H.
  - exists st. split; [constructor | exact H].
  - destruct st as [bef aft g]. simpl in H.
    destruct aft as [|c t]; [discriminate|].
    destruct (p c) eqn:Pc; [|discriminate].
    eexists. split; [now apply D_Class | exact H].
  - apply IHa in H. destruct H as [st1 [D1 H]].
    apply IHb in H. destruct H as [st2 [D2 H]].
    exists st2. split; [now apply D_Seq with st1 | exact H].
  - unfold orelse in H. destruct (run a st k) as [r|] eqn:E.
    + inversion H; subst r. apply IHa in E. destruct E as [st' [D K]].
      exists st'. split; [now apply D_AltL | exact K].
    + apply IHb in H. destruct H as [st' [D K]].
      exists st'. split; [now apply D_AltR | exact K].
  - destruct st as [bef aft g].
    destruct gr; simpl in H.
    + now apply star_greedy_sound.
    + now apply star_lazy_sound.
  - apply IHa in H. destruct H as [st' [D K]].
    eexists. split; [apply D_Group; exact D | exact K].
  - destruct (at_bol (before st)) eqn:E; [|discriminate].
    exists st. split; [now constructor | exact H].
  - destruct (at_eos (after st)) eqn:E; [|discriminate].
    exists st. split; [now constructor | exact H].
Qed.

Lemma star_greedy_stop (p : char -> bool) (bef aft : str)
  (g : list (nat * str)) (k : cont) (res' : mstate) :
  k (pos bef aft g) = Some res' ->
  exists res, star_greedy p bef aft g k = Some res.
Proof.
  intros H. destruct aft as [|c t]; simpl.
  - now exists res'.
  - destruct (p c); [|now exists res'].
    unfold orelse. destruct (star_greedy p (c :: bef) t g k) as [r|].
    + now exists r.
    + now exists res'.
Qed.

Lemma star_lazy_stop (p : char -> bool) (bef aft : str)
  (g : list (nat * str)) (k : cont) (res' : mstate) :
  k (pos bef aft g) = Some res' ->
  exists res, star_lazy p bef aft g k = Some res.
Proof.
  intros H. destruct aft as [|c t]; simpl; rewrite H; simpl; now exists res'.
Qed.

(** Every way of matching the pattern that the continuation accepts
    makes the matcher succeed. *)
Lemma run_complete (r : regex) (st st' : mstate) :
  derives r st st' ->
  forall k res', k st' = Some res' -> exists res, run r st k = Some res.
Proof.
  induction 1 as [st|p c t bef g Pc|a b st1 st2 st3 D1 IH1 D2 IH2
                  |a b st st' D IH|a b st st' D IH
                  |gr p st|gr p c t bef g st' Pc D IH
                  |n a st st' D IH|st E|st E];
    intros k res' K; simpl.
  - now exists res'.
  - rewrite Pc. now exists res'.
  - destruct (IH2 _ _ K) as [r2 E2].
    exact (IH1 (fun st' => run b st' k) r2 E2).
  - destruct (IH _ _ K) as [r E]. rewrite E. now exists r.
  - unfold orelse. destruct (run a st k) as [r|]; [now exists r|].
    exact (IH _ _ K).
  - destruct st as [bef aft g]. destruct gr; simpl.
    + now apply star_greedy_stop with res'.
    + now apply star_lazy_stop with res'.
  - destruct (IH _ _ K) as [r E]. destruct gr; simpl in *.
    + rewrite Pc, E. now exists r.
    + rewrite Pc. unfold orelse.
      destruct (k (pos bef (c :: t) g)) as [r0|]; [now exists r0|].
      now exists r.
  - exact (IH (fun st'0 => k (pos (before st'0) (after st'0)
                                  ((n, consumed st st'0) :: groups st'0)))
              res' K).
  - rewrite E. now exists res'.
  - rewrite E. now exists res'.
Qed.

(** ** Captured groups *)

Lemma derives_groups_kept (n : nat) (r : regex) (st st' : mstate) :
  derives r st st' ->
  lookup_group n (groups st) <> None -> lookup_group n (groups st') <> None.
Proof.
  induction 1; simpl; auto.
  intros Hn. destruct (Nat.eqb n0 n); [discriminate|auto].
Qed.

Lemma derives_sets_group (n : nat) (r : regex) (st st' : mstate) :
  derives r st st' -> sets n r = true ->
  lookup_group n (groups st') <> None.
Proof.
  induction 1 as [st|p c t bef g Pc|a b st1 st2 st3 D1 IH1 D2 IH2
                  |a b st st' D IH|a b st st' D IH
                  |gr p st|gr p c t bef g st' Pc D IH
                  |m a st st' D IH|st E|st E];
    simpl; intros S; try discriminate.
  - apply orb_true_iff in S. destruct S as [S|S].
    + apply (derives_groups_kept n D2). now apply IH1.
    + now apply IH2.
  - apply andb_true_iff in S. now apply IH.
  - apply andb_true_iff in S. now apply IH.
  - destruct (Nat.eqb m n) eqn:E; [discriminate|]. simpl in S. now apply IH.
Qed.

Lemma match_at_sound (r : regex) (bef aft : str) (m : rmatch) :
  match_at r bef aft = Some m ->
  exists st', derives r (pos bef aft []) st' /\ m_groups m = groups st'.
Proof.
  unfold match_at. intros H.
  destruct (run r (pos bef aft []) (fun st => Some st)) as [st|] eqn:E;
    [|discriminate].
  inversion H; subst m. simpl.
  apply run_sound in E. destruct E as [st' [D K]].
  inversion K; subst st'. now exists st.
Qed.

Lemma match_at_group (n : nat) (r : regex) (bef aft : str) (m : rmatch) :
  sets n r = true -> match_at r bef aft = Some m -> group m n <> None.
Proof.
  intros S H. apply match_at_sound in H. destruct H as [st' [D G]].
  unfold group. rewrite G. now apply (derives_sets_group n D).
Qed.

Lemma scan_groups (n : nat) (r : regex) :
  sets n r = true ->
  forall aft bef skip,
    Forall (fun m => group m n <> None) (scan r bef aft skip).
Proof.
  intros S. induction aft as [|c t IH]; intros bef skip.
  - destruct skip; simpl; [|constructor].
    destruct (match_at r bef []) as [m|] eqn:E; constructor.
    + now apply (match_at_group n _ _ _ S E).
    + constructor.
  - destruct skip; simpl; [|apply IH].
    destruct (match_at r bef (c :: t)) as [m|] eqn:E; [|apply IH].
    constructor; [|apply IH].
    now apply (match_at_group n _ _ _ S E).
Qed.

Lemma finditer_groups (n : nat) (r : regex) (s : str) :
  sets n r = true -> Forall (fun m => group m n <> None) (finditer r s).
Proof. intros S. now apply scan_groups. Qed.

(** ** [search] *)

Lemma search_from_sound (r : regex) :
  forall aft bef m,
    search_from r bef aft = Some m ->
    exists pre post st',
      aft = pre ++ post /\ derives r (pos (rev pre ++ bef) post []) st'.
Proof.
  induction aft as [|c t IH]; intros bef m H; simpl in H.
  - destruct (match_at r bef []) as [m'|] eqn:E; [|discriminate].
    apply match_at_sound in E. destruct E as [st' [D _]].
    now exists [], [], st'.
  - destruct (match_at r bef (c :: t)) as [m'|] eqn:E.
    + apply match_at_sound in E. destruct E as [st' [D _]].
      now exists [], (c :: t), st'.
    + apply IH in H. destruct H as [pre [post [st' [-> D]]]].
      exists (c :: pre), post, st'. split; [reflexivity|].
      simpl. now rewrite <- app_assoc.
Qed.

Lemma match_at_complete (r : regex) (bef aft : str) (st' : mstate) :
  derives r (pos bef aft []) st' -> exists m, match_at r bef aft = Some m.
Proof.
  intros D. unfold match_at.
  destruct (run_complete D (fun st => Some st) eq_refl) as [res ->].
  eexists. reflexivity.
Qed.

Lemma search_from_complete (r : regex) :
  forall pre bef post st',
    derives r (pos (rev pre ++ bef) post []) st' ->
    exists m, search_from r bef (pre ++ post) = Some m.
Proof.
  induction pre as [|c pre IH]; intros bef post st' D; simpl in *.
  - destruct (match_at_complete D) as [m E].
    destruct post; simpl; rewrite E; now exists m.
  - destruct (match_at r bef (c :: pre ++ post)) as [m|]; [now exists m|].
    apply IH with st'. now rewrite <- app_assoc in D.
Qed.

(** ** Literal text and repetition *)

Lemma derives_text_inv (s : str) :
  forall st st',
    derives (text s) st st' ->
    after st = s ++ after st' /\ before st' = rev s ++ before st
    /\ groups st' = groups st.
Proof.
  induction s as [|c s IH]; intros st st' D; simpl in D.
  - inversion D; subst. auto.
  - inversion D as [| |a b st1 st2 st3 D1 D2| | | | | | |]; subst.
    inversion D1 as [|p c' t bef g Pc| | | | | | | |]; subst.
    apply IH in D2. simpl in D2. destruct D2 as [A [B G]].
    unfold char_eqb in Pc. apply N.eqb_eq in Pc. subst c'.
    simpl. rewrite A, B, G, <- app_assoc. auto.
Qed.

Lemma derives_text_intro (s : str) :
  forall bef rest g,
    derives (text s) (pos bef (s ++ rest) g) (pos (rev s ++ bef) rest g).
Proof.
  induction s as [|c s IH]; intros bef rest g; simpl.
  - constructor.
  - eapply D_Seq.
    + apply D_Class. unfold char_eqb. apply N.eqb_refl.
    + rewrite <- app_assoc. apply IH.
Qed.

Lemma derives_star_inv (gr : bool) (p : char -> bool) (st st' : mstate) :
  derives (Star gr p) st st' ->
  exists w, forallb p w = true /\ after st = w ++ after st'.
Proof.
  intros D. remember (Star gr p) as r eqn:R.
  induction D as [| | | | |gr' p' st|gr' p' c t bef g st' Pc D IH| | |];
    try discriminate.
  - now exists [].
  - inversion R; subst gr' p'. destruct (IH eq_refl) as [w [F A]].
    exists (c :: w). simpl in *. now rewrite Pc, F, A.
Qed.

Lemma derives_star_intro (gr : bool) (p : char -> bool) :
  forall w bef rest g,
    forallb p w = true ->
    derives (Star gr p) (pos bef (w ++ rest) g) (pos (rev w ++ bef) rest g).
Proof.
  induction w as [|c w IH]; intros bef rest g F; simpl in *.
  - constructor.
  - apply andb_true_iff in F. destruct F as [Pc F].
    apply D_StarStep; [exact Pc|].
    rewrite <- app_assoc. now apply IH.
Qed.

End RegexFacts.

(* ================================================================== *)
(** * Properties of the pattern-based analyzer *)
(* ================================================================== *)

Section TypeScriptAnalyzerFacts.

Import Re TypeScriptAnalyzer Scenarios.

(** ** Documentation presence *)

Lemma at_eos_space (aft : str) : at_eos aft = true -> forallb isspace aft = true.
Proof.
  destruct aft as [|c [|d t]]; simpl; try discriminate; [reflexivity|].
  unfold char_eqb. rewrite N.eqb_eq. intros ->. reflexivity.
Qed.

Lemma forallb_any_char (s : str) : forallb any_char s = true.
Proof. induction s; simpl; auto. Qed.

(** The search for the JSDoc pattern succeeds exactly on the texts that
    end with a doc comment, up to trailing whitespace. *)
Lemma jsdoc_search_iff (s : str) :
  (exists m, search _JSDOC_RE s = Some m) <-> doc_block_at_end s.
Proof.
  split.
  - intros [m H]. apply search_from_sound in H.
    destruct H as [pre [rest [st' [-> D]]]].
    unfold _JSDOC_RE, star in D. cbn [seq] in D.
    inversion D as [| |a1 b1 s0 s1 s5 D1 R1| | | | | | |]; subst.
    inversion R1 as [| |a2 b2 s1' s2 s5' D2 R2| | | | | | |]; subst.
    inversion R2 as [| |a3 b3 s2' s3 s5' D3 R3| | | | | | |]; subst.
    inversion R3 as [| |a4 b4 s3' s4 s5' D4 R4| | | | | | |]; subst.
    inversion R4 as [| | | | | | | | |s4' E]; subst.
    apply (@derives_text_inv DOC_OPEN) in D1. destruct D1 as [A1 _].
    apply derives_star_inv in D2. destruct D2 as [mid [_ A2]].
    apply (@derives_text_inv DOC_CLOSE) in D3. destruct D3 as [A3 _].
    apply derives_star_inv in D4. destruct D4 as [w [W A4]].
    simpl in A1. exists pre, mid, (w ++ after st'). split.
    + unfold DOC_OPEN, DOC_CLOSE. now rewrite A1, A2, A3, A4.
    + rewrite forallb_app. unfold ws in W. rewrite W. simpl.
      now apply at_eos_space.
  - intros [pre [mid [post [-> W]]]].
    unfold search.
    apply search_from_complete
      with (st' := pos (rev post ++ rev DOC_CLOSE ++ rev mid ++ rev DOC_OPEN
                        ++ rev pre ++ []) [] []).
    unfold _JSDOC_RE, star. cbn [seq].
    eapply D_Seq; [apply derives_text_intro|].
    eapply D_Seq; [apply derives_star_intro, forallb_any_char|].
    eapply D_Seq; [apply derives_text_intro|].
    eapply D_Seq.
    + rewrite <- (app_nil_r post) at 1.
      apply derives_star_intro. exact W.
    + now constructor.
Qed.

Lemma slice_window_length {A} (l : list A) (n : nat) :
  (List.length (slice l (Z.max 0 (Z.of_nat n - 20)) (Z.of_nat n)) <= 20)%nat.
Proof.
  unfold slice. etransitivity; [apply firstn_le_length|].
  unfold clamp, norm_index.
  destruct (Z.ltb_spec (Z.max 0 (Z.of_nat n - 20)) 0); [lia|].
  destruct (Z.ltb_spec (Z.of_nat n) 0); [lia|].
  unfold len. lia.
Qed.

(** C6, the claim as stated, fails: with a doc comment on the first
    line, another statement on the second and the candidate on the third,
    the window of the candidate holds a doc comment, opened and closed,
    and yet the candidate is judged undocumented.  When the comment is on
    the line just before the candidate it is judged documented. *)
Lemma C6_separated_block_counterexample :
  doc_block_anywhere (window separated_lines 2)
  /\ _has_jsdoc_before separated_lines 2 = false
  /\ _has_jsdoc_before adjacent_lines 1 = true.
Proof.
  split; [|split; vm_compute; reflexivity].
  exists [], (lit " Adds. "), (NL :: lit "const x = 1;").
  vm_compute. reflexivity.
Qed.

(** C6, amended: a candidate line is judged to have documentation iff it
    is not the first line and the window of up to 20 lines just before
    it, joined by newlines, holds a doc-comment opening token followed
    later by a block-comment closing token after which the window holds
    only whitespace: the comment has to end the window. *)
Theorem C6_doc_block_must_end_window (lines : list str) (func_line_idx : Z)
  (n : nat) :
  (_has_jsdoc_before lines func_line_idx = true
   <-> func_line_idx <> 0%Z
       /\ doc_block_at_end (window lines func_line_idx))
  /\ window lines (Z.of_nat n)
     = join [NL] (slice lines (Z.max 0 (Z.of_nat n - 20)) (Z.of_nat n))
  /\ (List.length (slice lines (Z.max 0 (Z.of_nat n - 20)) (Z.of_nat n))
      <= 20)%nat.
Proof.
  split; [|split; [reflexivity | apply slice_window_length]].
  unfold _has_jsdoc_before.
  destruct (Z.eqb_spec func_line_idx 0) as [->|Hne].
  - split; [discriminate | intros [H _]; now elim H].
  - rewrite <- jsdoc_search_iff.
    destruct (search _JSDOC_RE (window lines func_line_idx)) as [m|].
    + split; [intros _; split; [exact Hne | now exists m] | reflexivity].
    + split; [discriminate | intros [_ [m H]]; discriminate].
Qed.

(** Scenario A of the specification and [test_empty_source], on the
    model. *)
Example scenario_a_one_symbol :
  analyze ascii_db scenario_a_source
  = Ok [{| name := lit "greet"; sym_line := 1; type := TFunction;
           has_docs := false; endpoint_method := None;
           endpoint_path := None;
           source_lines := splitlines false scenario_a_source |}].
Proof. vm_compute. reflexivity. Qed.

Example empty_source_no_symbol : analyze ascii_db [] = Ok [].
Proof. vm_compute. reflexivity. Qed.

(** ** Endpoint paths *)

(** C7: the controller base path [/api/] and the method path [users]
    combine to exactly [/api/users]; a function under such a controller
    and method decorator is reported with that path. *)
Theorem C7_nest_path_normalized :
  full_path_of (lit "/api/") (lit "users") = lit "/api/users"
  /\ analyze ascii_db nest_source
     = Ok [{| name := lit "list"; sym_line := 3; type := TEndpoint;
              has_docs := false; endpoint_method := Some (lit "GET");
              endpoint_path := Some (lit "/api/users");
              source_lines := [lit "function list() {}"] |}].
Proof.
  split; vm_compute; reflexivity.
Qed.

(** ** The endpoint fields are set together *)

Section Paired.

Variable db : DB.

Lemma for_each_inv {A S} (f : S -> A -> result S)
  (P : S -> Prop) (Q : A -> Prop) :
  (forall s x, P s -> Q x -> exists s', f s x = Ok s' /\ P s') ->
  forall l s, Forall Q l -> P s ->
    exists s', for_each f l s = Ok s' /\ P s'.
Proof.
  intros Hf. induction l as [|x l IH]; intros s HQ HP; simpl.
  - now exists s.
  - inversion HQ as [|? ? Qx Ql]; subst.
    destruct (Hf s x HP Qx) as [s1 [-> P1]]. simpl.
    now apply IH.
Qed.

Lemma dict_set_values {V} (Q : V -> Prop) (k : Z) (v : V)
  (d : list (Z * V)) :
  Q v -> Forall (fun kv => Q (snd kv)) d ->
  Forall (fun kv => Q (snd kv)) (dict_set k v d).
Proof.
  intros Qv. induction 1 as [|[k' v'] rest Hk Hr IH]; simpl.
  - repeat constructor. exact Qv.
  - destruct (k' =? k)%Z; constructor; auto.
Qed.

Lemma attr_of_some (g : option str) :
  g <> None -> exists s, g = Some s /\ attr_of g = Ok s.
Proof. destruct g as [s|]; [now exists s | congruence]. Qed.

Lemma nestjs_loop_returns (content controller_base : str) :
  forall ms d, Forall (fun m => group m 1 <> None) ms ->
    exists d', nestjs_loop db content controller_base ms d = Ok d'.
Proof.
  induction ms as [|m ms IH]; intros d H; simpl.
  - now exists d.
  - inversion H as [|? ? Hm Hms]; subst.
    destruct (attr_of_some Hm) as [g1 [_ ->]]. simpl. now apply IH.
Qed.

Lemma express_loop_returns (content : str) :
  forall ms d,
    Forall (fun m => group m 1 <> None) ms ->
    Forall (fun m => group m 2 <> None) ms ->
    Forall has_path d ->
    exists d', express_loop db content ms d = Ok d' /\ Forall has_path d'.
Proof.
  induction ms as [|m ms IH]; intros d H1 H2 Hd; simpl.
  - now exists d.
  - inversion H1 as [|? ? Hm1 Hms1]; subst.
    inversion H2 as [|? ? Hm2 Hms2]; subst.
    destruct (attr_of_some Hm1) as [g1 [_ ->]]. simpl.
    apply IH; trivial.
    apply (@dict_set_values _ (fun v => snd v <> None)); trivial.
Qed.

Lemma near_express_has_path (d : list (Z * (str * option str)))
  (line_no : Z) (v : str * option str) :
  Forall has_path d -> near_express d line_no = Some v -> snd v <> None.
Proof.
  induction 1 as [|[k w] rest Hk Hr IH]; simpl; [discriminate|].
  destruct (Z.abs (k - line_no) <=? 1)%Z; [|exact IH].
  intros E. inversion E; subst. exact Hk.
Qed.

Lemma func_step_returns (content : str) (lines : list str)
  (express_endpoints : list (Z * (str * option str)))
  (nestjs_endpoints : list (Z * (str * str))) (a : acc) (m : rmatch) :
  Forall has_path express_endpoints ->
  symbols_paired a -> group m 1 <> None ->
  exists a', func_step content lines express_endpoints
                       nestjs_endpoints a m = Ok a'
             /\ symbols_paired a'.
Proof.
  intros He Ha Hm. destruct a as [symbols seen_lines].
  unfold func_step.
  destruct (set_mem (line_of content m) seen_lines); [now eexists|].
  destruct (attr_of_some Hm) as [fname [_ ->]]. simpl.
  destruct (startswith fname (lit "_")); [now eexists|].
  destruct (near_express express_endpoints (line_of content m))
    as [[em ep]|] eqn:E.
  - apply (near_express_has_path _ He) in E. simpl in E.
    destruct ep as [ep|]; [|congruence].
    destruct (negb (_has_jsdoc_before lines (line_of content m)));
      eexists; (split; [reflexivity|]); trivial.
    apply Forall_app. split; [exact Ha|]. repeat constructor.
  - destruct (at_nestjs nestjs_endpoints (line_of content m)) as [[em ep]|];
      destruct (negb (_has_jsdoc_before lines (line_of content m)));
      eexists; (split; [reflexivity|]); trivial;
      apply Forall_app; (split; [exact Ha|]); repeat constructor.
Qed.

Lemma standalone_step_returns (lines : list str) (a : acc)
  (item : Z * (str * option str)) :
  symbols_paired a -> has_path item ->
  exists a', standalone_step db lines a item = Ok a' /\ symbols_paired a'.
Proof.
  intros Ha Hi. destruct a as [symbols seen_lines].
  destruct item as [ep_line [ep_method ep_path]].
  unfold has_path in Hi. simpl in Hi.
  destruct ep_path as [p|]; [|congruence].
  unfold standalone_step.
  destruct (negb (set_mem ep_line seen_lines)); [|now eexists].
  destruct (negb (_has_jsdoc_before lines ep_line)); simpl;
    eexists; (split; [reflexivity|]); trivial.
  apply Forall_app. split; [exact Ha|]. repeat constructor.
Qed.

Lemma insert_by_line_paired (s : SymbolInfo) (l : list SymbolInfo) :
  paired s -> Forall paired l -> Forall paired (insert_by_line s l).
Proof.
  intros Hs. induction 1 as [|t rest Ht Hr IH]; simpl.
  - now repeat constructor.
  - destruct (sym_line s <=? sym_line t)%Z; repeat constructor; auto.
Qed.

Lemma sort_by_line_paired (l : list SymbolInfo) :
  Forall paired l -> Forall paired (sort_by_line l).
Proof.
  induction 1 as [|s l Hs Hl IH]; simpl.
  - constructor.
  - now apply insert_by_line_paired.
Qed.

(** The pattern-based analyzer returns for every text, and every symbol
    it returns has both endpoint fields or neither. *)
Lemma typescript_analyze_paired (content : str) :
  exists symbols,
    analyze db content = Ok symbols /\ Forall paired symbols.
Proof.
  unfold analyze. cbv zeta.
  set (base := match search _NESTJS_CONTROLLER_RE content with
               | Some controller_match => or_empty (group controller_match 1)
               | None => []
               end).
  destruct (@nestjs_loop_returns content base
              (finditer _NESTJS_ENDPOINT_RE content) [])
    as [nestjs ->]; [now apply finditer_groups|]. cbn [bind].
  destruct (@express_loop_returns content
              (finditer _EXPRESS_RE content) [])
    as [express [-> He]];
    [now apply finditer_groups | now apply finditer_groups | constructor|].
  cbn [bind].
  destruct (@for_each_inv _ _
              (fun a pattern =>
                 for_each (func_step content (splitlines false content)
                                     express nestjs)
                          (finditer pattern content) a)
              symbols_paired (fun pattern => sets 1 pattern = true))
    with (l := _FUNC_PATTERNS db) (s := ([], []) : acc)
    as [a1 [-> P1]].
  - intros a pattern Pa Qp.
    apply for_each_inv with (Q := fun m => group m 1 <> None); trivial.
    + intros a0 m Pa0 Qm. now apply func_step_returns.
    + now apply finditer_groups.
  - repeat constructor.
  - constructor.
  - cbn [bind].
    destruct (@for_each_inv _ _ (standalone_step db (splitlines false content))
                symbols_paired has_path)
      with (l := express) (s := a1) as [a2 [-> P2]]; trivial.
    + intros a item Pa Qi. now apply standalone_step_returns.
    + cbn [bind]. eexists. split; [reflexivity|].
      now apply sort_by_line_paired.
Qed.

End Paired.

(** C9: for every input text, each symbol returned by either analyzer
    has [endpoint_method] and [endpoint_path] both present or both
    absent.  The pattern-based analyzer returns for every text; the
    grammar-based one returns unless the parser raises something other
    than a syntax error, which it passes on. *)
Theorem C9_endpoint_fields_paired
  (ast_parse : str -> result PythonAnalyzer.node) (db : DB) (content : str) :
  match PythonAnalyzer.analyze ast_parse db content with
  | Ok symbols => Forall paired symbols
  | Raise e => ast_parse content = Raise e /\ e <> SyntaxError
  end
  /\ exists symbols,
       analyze db content = Ok symbols /\ Forall paired symbols.
Proof.
  split.
  - apply python_analyze_paired.
  - apply typescript_analyze_paired.
Qed.

End TypeScriptAnalyzerFacts.

(* ================================================================== *)
(** * Further properties of the insertion engine *)
(* ================================================================== *)

Section InsertionEngineMore.

Import DiffViewer DiffViewerSpec Scenarios.

Lemma subsequence_refl {A} (l : list A) : subsequence l l.
Proof. induction l; constructor; auto. Qed.

Lemma subsequence_trans {A} (l1 l2 l3 : list A) :
  subsequence l1 l2 -> subsequence l2 l3 -> subsequence l1 l3.
Proof.
  intros H12 H23. revert l1 H12.
  induction H23 as [l|x a b H IH|x a b H IH]; intros l1 H12.
  - inversion H12; subst. constructor.
  - inversion H12; subst.
    + constructor.
    + constructor. now apply IH.
    + apply sub_skip. now apply IH.
  - apply sub_skip. now apply IH.
Qed.

Lemma subsequence_app_take {A} (pre l1 l2 : list A) :
  subsequence l1 l2 -> subsequence (pre ++ l1) (pre ++ l2).
Proof. induction pre; simpl; auto. intros. apply sub_take. auto. Qed.

Lemma insert_subsequence {A} (l : list A) (i : Z) (x : A) :
  subsequence l (insert l i x).
Proof.
  unfold insert.
  rewrite <- (firstn_skipn (clamp l i) l) at 1.
  apply subsequence_app_take, sub_skip, subsequence_refl.
Qed.

Lemma apply_loop_subsequence (language : str) :
  forall ps lines,
    exists final,
      apply_loop language lines ps = Ok final
      /\ subsequence lines final
      /\ (List.length final <= List.length lines + List.length ps)%nat.
Proof.
  induction ps as [|p ps IH]; intros lines; simpl.
  - exists lines. repeat split; [apply subsequence_refl | lia].
  - destruct (apply_one_cases language lines p) as [[_ E]|[_ [m [k E]]]];
      rewrite E; simpl.
    + destruct (IH lines) as [final [E' [S L]]].
      exists final. repeat split; trivial. lia.
    + destruct (IH (insert lines k
                      (indent_doc (repeat SPACE m)
                                  (with_newline (proposed_doc p)))))
        as [final [E' [S L]]].
      exists final. repeat split; trivial.
      * eapply subsequence_trans; [apply insert_subsequence | exact S].
      * rewrite insert_length in L. lia.
Qed.

(** X1: whatever the proposals are (any order, any anchors, repeated
    lines), the lines of the source all survive, unchanged and in their
    original order: the engine only ever adds elements between them. *)
Theorem X1_source_lines_survive_in_order (source language : str)
  (proposals : list DocProposal) :
  exists final,
    final_lines source proposals language = Ok final
    /\ _apply_proposals_to_source source proposals language
       = Ok (join [] final)
    /\ subsequence (splitlines true source) final
    /\ (List.length final
        <= List.length (splitlines true source) + List.length proposals)%nat.
Proof.
  destruct (apply_loop_subsequence language (sorted_desc proposals)
              (splitlines true source)) as [final [E [S L]]].
  exists final. unfold _apply_proposals_to_source, final_lines.
  rewrite E. simpl. repeat split; trivial.
  rewrite <- (Permutation_length (sorted_desc_perm proposals)) in L. exact L.
Qed.

(** ** One proposal *)

Lemma getitem_nth {A} (l : list A) (i : Z) (d : A) :
  (0 <= i < len l)%Z -> getitem l i = Ok (nth (Z.to_nat i) l d).
Proof.
  intros [H0 H1]. unfold getitem, norm_index.
  destruct (Z.ltb_spec i 0); [lia|].
  destruct (Z.ltb_spec i 0); [lia|].
  destruct (nth_error l (Z.to_nat i)) as [x|] eqn:N.
  - now rewrite (nth_error_nth _ _ d N).
  - apply nth_error_None in N. unfold len in H1. lia.
Qed.

Lemma clamp_in_range {A} (l : list A) (i : Z) :
  (0 <= i)%Z -> clamp l i = Nat.min (Z.to_nat i) (List.length l).
Proof.
  intros H. unfold clamp, norm_index, len.
  destruct (Z.ltb_spec i 0); lia.
Qed.

Lemma insert_at_position {A} (l : list A) (i : Z) (x : A) :
  (0 <= i)%Z ->
  insert l i x = firstn (Z.to_nat i) l ++ x :: skipn (Z.to_nat i) l.
Proof.
  intros H. unfold insert. rewrite clamp_in_range by exact H.
  destruct (Nat.le_gt_cases (Z.to_nat i) (List.length l)) as [Hle|Hgt].
  - now rewrite Nat.min_l.
  - rewrite Nat.min_r by lia.
    rewrite !firstn_all2, !skipn_all2 by lia. reflexivity.
Qed.

Lemma func_line_read (lines : list str) (i : Z) :
  (0 <= i <= len lines)%Z ->
  (if (i <? len lines)%Z then getitem lines i else Ok [])
  = Ok (line_at lines (Z.to_nat i)).
Proof.
  intros H. unfold line_at. destruct (Z.ltb_spec i (len lines)).
  - apply getitem_nth. lia.
  - rewrite nth_overflow; [reflexivity|]. unfold len in *. lia.
Qed.

Lemma indent_nat (s : str) :
  Z.to_nat (len s - len (lstrip s)) = indent_of s.
Proof. unfold indent_of, len. lia. Qed.

Lemma out_of_range_false (lines : list str) (p : DocProposal) :
  (1 <= line p <= len lines + 1)%Z -> out_of_range lines p = false.
Proof.
  intros H. unfold out_of_range. apply orb_false_iff. split.
  - apply Z.ltb_ge. lia.
  - destruct (Z.gtb_spec (line p - 1) (len lines)); [lia|reflexivity].
Qed.

Lemma single_proposal_run (source language : str) (p : DocProposal) :
  _apply_proposals_to_source source [p] language
  = (l <- apply_one language (splitlines true source) p ;; Ok (join [] l)).
Proof.
  unfold _apply_proposals_to_source, final_lines.
  change (sorted_desc [p]) with [p]. cbn [apply_loop].
  now destruct (apply_one language (splitlines true source) p).
Qed.

(** X2: outside the python family, one proposal anchored at a line of
    the source (or one line past its end) yields the source with the doc
    block spliced in just before that line: the text before the anchor
    line and the text from it on are unchanged, and every non-blank line
    of the block is indented by as many spaces as the anchor line has
    leading whitespace characters. *)
Theorem X2_comment_block_goes_above_anchor (source language : str)
  (p : DocProposal) :
  Str.eqb language (lit "python") = false ->
  (1 <= line p <= len (splitlines true source) + 1)%Z ->
  let lines := splitlines true source in
  let k := Z.to_nat (line p - 1) in
  _apply_proposals_to_source source [p] language
  = Ok (join [] (firstn k lines)
        ++ block_for (line_at lines k) 0 p
        ++ join [] (skipn k lines)).
Proof.
  intros Hl Hr. cbv zeta.
  rewrite single_proposal_run.
  unfold apply_one. rewrite (out_of_range_false _ _ Hr).
  rewrite func_line_read by lia. cbn [bind]. rewrite Hl.
  rewrite indent_nat. cbn [bind].
  rewrite insert_at_position by lia.
  rewrite !join_empty_concat, concat_app. simpl.
  unfold block_for. now rewrite Nat.add_0_r.
Qed.

Lemma X2_comment_block_witness :
  _apply_proposals_to_source scenario_source [proposal_line2]
                             (lit "typescript")
  = Ok (join [] (firstn 1 (splitlines true scenario_source))
        ++ block_for (line_at (splitlines true scenario_source) 1) 0
                     proposal_line2
        ++ join [] (skipn 1 (splitlines true scenario_source))).
Proof.
  apply (@X2_comment_block_goes_above_anchor scenario_source
           (lit "typescript") proposal_line2).
  - reflexivity.
  - vm_compute. split; discriminate.
Defined.

(** What the [while] loop returns: it only moves forward, it passes
    lines that end in a comma, and it stops at the end of the list or
    behind a line that does not end in one. *)
Lemma find_body_start_spec (lines : list str) :
  forall steps b0 b,
    (1 <= b0)%Z ->
    find_body_start steps lines b0 = Ok b ->
    (b0 <= b <= Z.max b0 (len lines))%Z
    /\ (forall j, (b0 <= j < b)%Z ->
                  continues (line_at lines (Z.to_nat (j - 1))) = true)
    /\ ((b < len lines)%Z ->
        continues (line_at lines (Z.to_nat (b - 1))) = false).
Proof.
  induction steps as [|steps IH]; intros b0 b H0 H; simpl in H.
  - destruct (Z.ltb_spec b0 (len lines)) as [Hlt|Hge].
    + rewrite (@getitem_nth _ lines (b0 - 1)%Z []) in H by lia. simpl in H.
      destruct (endswith _ _) eqn:E; [discriminate|].
      inversion H; subst b. repeat split; try lia. intros _. exact E.
    + inversion H; subst b. repeat split; lia.
  - destruct (Z.ltb_spec b0 (len lines)) as [Hlt|Hge].
    + rewrite (@getitem_nth _ lines (b0 - 1)%Z []) in H by lia. simpl in H.
      destruct (endswith _ _) eqn:E.
      * apply IH in H; [|lia]. destruct H as [Hb [Hc Hs]].
        repeat split; try lia; trivial.
        intros j Hj. destruct (Z.eq_dec j b0) as [->|Hne].
        -- exact E.
        -- apply Hc. lia.
      * inversion H; subst b. repeat split; try lia. intros _. exact E.
    + inversion H; subst b. repeat split; lia.
Qed.

(** X3: in the python family, one proposal anchored at a line of the
    source is inserted below that line, never above it: the insertion
    index [b] is past the anchor, every line from the anchor up to the one
    before the insertion point except the last ends in a comma (after
    trailing whitespace is dropped), and the line just above the
    insertion point does not, unless the end of the file was reached.
    The block is indented four spaces deeper than the anchor line. *)
Theorem X3_docstring_goes_below_anchor (source : str) (p : DocProposal) :
  (1 <= line p <= len (splitlines true source) + 1)%Z ->
  let lines := splitlines true source in
  let k := Z.to_nat (line p - 1) in
  exists b : nat,
    (k < b <= Nat.max (k + 1) (List.length lines))%nat
    /\ _apply_proposals_to_source source [p] (lit "python")
       = Ok (join [] (firstn b lines)
             ++ block_for (line_at lines k) 4 p
             ++ join [] (skipn b lines))
    /\ (forall j, (k <= j)%nat -> (j + 1 < b)%nat ->
                  continues (line_at lines j) = true)
    /\ ((b < List.length lines)%nat ->
        continues (line_at lines (b - 1)) = false).
Proof.
  intros Hr. cbv zeta.
  set (lines := splitlines true source) in *.
  destruct (@find_body_start_returns lines (List.length lines)
              (line p - 1 + 1)%Z) as [b E]; [lia | unfold len; lia |].
  assert (H1 : (1 <= line p - 1 + 1)%Z) by lia.
  destruct (find_body_start_spec _ _ H1 E) as [Hb [Hc Hs]].
  exists (Z.to_nat b). repeat split.
  - lia.
  - unfold len in *. lia.
  - rewrite single_proposal_run. fold lines.
    unfold apply_one. rewrite (out_of_range_false _ _ Hr).
    rewrite func_line_read by lia. cbn [bind].
    replace (Str.eqb (lit "python") (lit "python")) with true by reflexivity.
    rewrite E. cbn [bind]. rewrite indent_nat.
    rewrite insert_at_position by lia.
    rewrite !join_empty_concat, concat_app. simpl.
    unfold block_for. rewrite repeat_app. reflexivity.
  - intros j Hk Hj.
    specialize (Hc (Z.of_nat j + 1)%Z).
    replace (Z.to_nat (Z.of_nat j + 1 - 1)) with j in Hc by lia.
    apply Hc. lia.
  - intros Hlt.
    replace (Z.to_nat b - 1)%nat with (Z.to_nat (b - 1)) by lia.
    apply Hs. unfold len. lia.
Qed.

Lemma X3_docstring_below_witness :
  exists b : nat,
    (Z.to_nat (line scenario_proposal - 1) < b
     <= Nat.max (Z.to_nat (line scenario_proposal - 1) + 1)
                (List.length (splitlines true scenario_source)))%nat
    /\ _apply_proposals_to_source scenario_source [scenario_proposal]
                                  (lit "python")
       = Ok (join [] (firstn b (splitlines true scenario_source))
             ++ block_for (line_at (splitlines true scenario_source)
                                   (Z.to_nat (line scenario_proposal - 1)))
                          4 scenario_proposal
             ++ join [] (skipn b (splitlines true scenario_source)))
    /\ (forall j, (Z.to_nat (line scenario_proposal - 1) <= j)%nat ->
                  (j + 1 < b)%nat ->
                  continues (line_at (splitlines true scenario_source) j)
                  = true)
    /\ ((b < List.length (splitlines true scenario_source))%nat ->
        continues (line_at (splitlines true scenario_source) (b - 1))
        = false).
Proof.
  apply (@X3_docstring_goes_below_anchor scenario_source scenario_proposal).
  vm_compute. split; discriminate.
Defined.

End InsertionEngineMore.

(* ================================================================== *)
(** * Further properties of the analyzers *)
(* ================================================================== *)

Section AnalyzerInvariants.

Import Re TypeScriptAnalyzer AnalyzerSpec Scenarios.

Lemma bind_ok {A B} (m : result A) (f : A -> result B) (b : B) :
  bind m f = Ok b -> exists a, m = Ok a /\ f a = Ok b.
Proof. destruct m as [a|e]; simpl; [now exists a | discriminate]. Qed.

Lemma for_each_preserves {A S} (f : S -> A -> result S) (P : S -> Prop) :
  (forall s x s', P s -> f s x = Ok s' -> P s') ->
  forall l s s', P s -> for_each f l s = Ok s' -> P s'.
Proof.
  intros Hf. induction l as [|x l IH]; intros s s' HP H; simpl in H.
  - now inversion H; subst.
  - apply bind_ok in H. destruct H as [s1 [E1 E2]].
    apply (IH s1); [now apply (Hf s x)|exact E2].
Qed.

(** ** Line numbers *)

Lemma count_firstn (c : char) (k : nat) (s : str) :
  (count c (firstn k s) <= count c s)%nat.
Proof.
  unfold count. rewrite <- (firstn_skipn k s) at 2.
  rewrite filter_app, length_app. lia.
Qed.

Lemma line_of_bounds (content : str) (m : rmatch) :
  (0 <= line_of content m <= newlines content)%Z.
Proof.
  unfold line_of, newlines.
  pose proof (count_firstn NL (m_start m) content). lia.
Qed.

Lemma set_mem_add_same (x : Z) (s : list Z) : set_mem x (set_add x s) = true.
Proof.
  unfold set_add. destruct (set_mem x s) eqn:E; [exact E|].
  simpl. now rewrite Z.eqb_refl.
Qed.

Lemma set_mem_add_mono (x y : Z) (s : list Z) :
  set_mem x s = true -> set_mem x (set_add y s) = true.
Proof.
  intros H. unfold set_add. destruct (set_mem y s); [exact H|].
  simpl. rewrite H. apply orb_true_r.
Qed.

Lemma slice_cap {A} (l : list A) (lo hi : Z) (n : nat) :
  (0 <= lo)%Z -> (0 <= hi)%Z -> (hi <= lo + Z.of_nat n)%Z ->
  (List.length (slice l lo hi) <= n)%nat.
Proof.
  intros H0 H1 H. unfold slice.
  etransitivity; [apply firstn_le_length|].
  rewrite !clamp_in_range by lia. lia.
Qed.

(** Appending a symbol on a line not seen so far keeps the invariant. *)
Lemma ts_inv_append (content : str) (symbols : list SymbolInfo)
  (seen_lines : list Z) (line_no : Z) (s : SymbolInfo) :
  ts_inv content (symbols, seen_lines) ->
  set_mem line_no seen_lines = false ->
  sym_line s = (line_no + 1)%Z ->
  ts_symbol_ok content s ->
  ts_inv content (symbols ++ [s], set_add line_no seen_lines).
Proof.
  intros [Hok [Hnd Hseen]] Hnew Hline Hs. simpl in *.
  repeat split; simpl.
  - apply Forall_app. split; [exact Hok|].
    constructor; [exact Hs | constructor].
  - rewrite map_app. simpl.
    apply (Permutation_NoDup (l := sym_line s :: map sym_line symbols)).
    + apply Permutation_cons_append.
    + constructor; [|exact Hnd].
      intros Hin. apply in_map_iff in Hin. destruct Hin as [t [Et Ht]].
      rewrite Forall_forall in Hseen. specialize (Hseen _ Ht).
      rewrite Et, Hline in Hseen.
      replace (line_no + 1 - 1)%Z with line_no in Hseen by lia. congruence.
  - apply Forall_app. split.
    + eapply Forall_impl; [|exact Hseen].
      intros t Ht. now apply set_mem_add_mono.
    + constructor; [|constructor]. rewrite Hline.
      replace (line_no + 1 - 1)%Z with line_no by lia.
      apply set_mem_add_same.
Qed.

Lemma ts_inv_seen (content : str) (symbols : list SymbolInfo)
  (seen_lines : list Z) (line_no : Z) :
  ts_inv content (symbols, seen_lines) ->
  ts_inv content (symbols, set_add line_no seen_lines).
Proof.
  intros [Hok [Hnd Hseen]]. repeat split; trivial. simpl in *.
  eapply Forall_impl; [|exact Hseen]. intros t Ht.
  now apply set_mem_add_mono.
Qed.

Lemma func_step_inv (content : str) (lines : list str)
  (express_endpoints : list (Z * (str * option str)))
  (nestjs_endpoints : list (Z * (str * str))) (a a' : acc) (m : rmatch) :
  ts_inv content a ->
  func_step content lines express_endpoints nestjs_endpoints a m = Ok a' ->
  ts_inv content a'.
Proof.
  intros Ha H. destruct a as [symbols seen_lines]. unfold func_step in H.
  destruct (set_mem (line_of content m) seen_lines) eqn:Seen;
    [now inversion H; subst|].
  apply bind_ok in H. destruct H as [fname [_ H]].
  destruct (startswith fname (lit "_")) eqn:Priv.
  { inversion H; subst. now apply ts_inv_seen. }
  pose proof (line_of_bounds content m) as Hb.
  assert (Hcap : forall lo, (0 <= lo)%Z ->
            (List.length (slice lines lo (Z.min (len lines) (lo + 30)))
             <= 30)%nat).
  { intros lo Hlo. apply slice_cap; unfold len; lia. }
  destruct (near_express express_endpoints (line_of content m))
    as [[em ep]|];
    [|destruct (at_nestjs nestjs_endpoints (line_of content m))
        as [[em ep]|]];
    (destruct (negb (_has_jsdoc_before lines (line_of content m)));
     inversion H; subst; [|now apply ts_inv_seen];
     apply ts_inv_append; trivial;
     unfold ts_symbol_ok, kind_matches; simpl;
     repeat split; try discriminate; try congruence; try lia;
     try (apply Hcap; lia)).
Qed.

Lemma standalone_step_inv (db : DB) (content : str) (lines : list str)
  (a a' : acc) (item : Z * (str * option str)) :
  ts_inv content a -> key_in_text content item ->
  standalone_step db lines a item = Ok a' ->
  ts_inv content a'.
Proof.
  intros Ha Hk H. destruct a as [symbols seen_lines].
  destruct item as [ep_line [ep_method ep_path]].
  unfold key_in_text in Hk. simpl in Hk. unfold standalone_step in H.
  destruct (set_mem ep_line seen_lines) eqn:Seen; simpl in H;
    [now inversion H; subst|].
  destruct (negb (_has_jsdoc_before lines ep_line)).
  - apply bind_ok in H. destruct H as [p [_ H]]. inversion H; subst.
    apply ts_inv_append; trivial.
    unfold ts_symbol_ok, kind_matches; simpl.
    repeat split; try discriminate; try congruence; try lia.
    apply slice_cap; unfold len; lia.
  - inversion H; subst. now apply ts_inv_seen.
Qed.

Lemma dict_set_keys {V} (P : Z -> Prop) (k : Z) (v : V) (d : list (Z * V)) :
  P k -> Forall (fun kv => P (fst kv)) d ->
  Forall (fun kv => P (fst kv)) (dict_set k v d).
Proof.
  intros Pk. induction 1 as [|[k' v'] rest Hk Hr IH]; simpl.
  - repeat constructor. exact Pk.
  - destruct (k' =? k)%Z; constructor; auto.
Qed.

Lemma express_loop_keys (db : DB) (content : str) :
  forall ms d d',
    Forall (key_in_text content) d ->
    express_loop db content ms d = Ok d' ->
    Forall (key_in_text content) d'.
Proof.
  induction ms as [|m ms IH]; intros d d' Hd H; simpl in H.
  - now inversion H; subst.
  - apply bind_ok in H. destruct H as [g1 [_ H]].
    apply IH in H; trivial.
    apply (@dict_set_keys _ (fun k => (0 <= k <= newlines content)%Z));
      trivial.
    apply line_of_bounds.
Qed.

Lemma for_each_items_preserves {A S} (f : S -> A -> result S)
  (P : S -> Prop) (Q : A -> Prop) :
  (forall s x s', P s -> Q x -> f s x = Ok s' -> P s') ->
  forall l s s', Forall Q l -> P s -> for_each f l s = Ok s' -> P s'.
Proof.
  intros Hf. induction l as [|x l IH]; intros s s' HQ HP H; simpl in H.
  - now inversion H; subst.
  - inversion HQ as [|? ? Qx Ql]; subst.
    apply bind_ok in H. destruct H as [s1 [E1 E2]].
    apply (IH s1); trivial. now apply (Hf s x).
Qed.

(** The accumulator that [analyze] sorts at the end satisfies the
    invariant. *)
Lemma analyze_accumulator (db : DB) (content : str)
  (symbols : list SymbolInfo) :
  analyze db content = Ok symbols ->
  exists a, symbols = sort_by_line (fst a) /\ ts_inv content a.
Proof.
  unfold analyze. cbv zeta. intros H.
  apply bind_ok in H. destruct H as [nestjs [_ H]].
  apply bind_ok in H. destruct H as [express [Ex H]].
  apply bind_ok in H. destruct H as [a1 [E1 H]].
  apply bind_ok in H. destruct H as [a2 [E2 H]].
  inversion H; subst symbols. exists a2. split; [reflexivity|].
  apply express_loop_keys in Ex; [|constructor].
  assert (I1 : ts_inv content a1).
  { revert E1. apply for_each_preserves.
    - intros a pattern a' Ha. apply for_each_preserves; trivial.
      intros a0 m a0' Ha0. now apply func_step_inv.
    - repeat split; simpl; constructor. }
  revert E2. apply for_each_items_preserves with (Q := key_in_text content);
    trivial.
  intros a item a' Ha Hi. now apply standalone_step_inv.
Qed.

(** ** The final sort *)

Lemma insert_by_line_perm (s : SymbolInfo) (l : list SymbolInfo) :
  Permutation (s :: l) (insert_by_line s l).
Proof.
  induction l as [|t l IH]; simpl; [apply Permutation_refl|].
  destruct (sym_line s <=? sym_line t)%Z; [apply Permutation_refl|].
  eapply perm_trans; [apply perm_swap|]. now apply perm_skip.
Qed.

Lemma sort_by_line_perm (l : list SymbolInfo) :
  Permutation l (sort_by_line l).
Proof.
  induction l as [|s l IH]; simpl; [constructor|].
  eapply perm_trans; [|apply insert_by_line_perm]. now apply perm_skip.
Qed.

Lemma insert_by_line_sorted (s : SymbolInfo) (l : list SymbolInfo) :
  StronglySorted le_line l -> StronglySorted le_line (insert_by_line s l).
Proof.
  induction 1 as [|t l Hs IH Ht]; simpl.
  - repeat constructor.
  - destruct (sym_line s <=? sym_line t)%Z eqn:E.
    + apply Z.leb_le in E. constructor; [now constructor|].
      constructor; [exact E|].
      eapply Forall_impl; [|exact Ht]. unfold le_line. intros; lia.
    + apply Z.leb_gt in E. constructor; [exact IH|].
      eapply Permutation_Forall; [apply insert_by_line_perm|].
      constructor; [unfold le_line; lia | exact Ht].
Qed.

Lemma sort_by_line_sorted (l : list SymbolInfo) :
  StronglySorted le_line (sort_by_line l).
Proof.
  induction l as [|s l IH]; simpl; [constructor|].
  now apply insert_by_line_sorted.
Qed.

Lemma sorted_distinct_strict (l : list SymbolInfo) :
  StronglySorted le_line l -> NoDup (map sym_line l) ->
  StronglySorted lt_line l.
Proof.
  induction 1 as [|s l Hs IH Hl]; intros Hnd; [constructor|].
  simpl in Hnd. inversion Hnd as [|? ? Hnotin Hnd']; subst.
  constructor; [now apply IH|].
  rewrite Forall_forall in *. intros t Ht.
  specialize (Hl _ Ht). unfold le_line, lt_line in *.
  destruct (Z.eq_dec (sym_line s) (sym_line t)) as [E|NE]; [|lia].
  exfalso. apply Hnotin. rewrite E. now apply in_map.
Qed.

(** X4: the symbols the pattern-based analyzer returns are in strictly
    ascending line order: sorted by line, and no two on the same line.
    Their lines can therefore serve as the pairwise distinct anchors the
    insertion engine needs for an order-independent result. *)
Theorem X4_typescript_lines_strictly_ascending (db : DB) (content : str) :
  exists symbols,
    analyze db content = Ok symbols
    /\ StronglySorted lt_line symbols
    /\ NoDup (map sym_line symbols).
Proof.
  destruct (typescript_analyze_paired db content) as [symbols [E _]].
  exists symbols. split; [exact E|].
  destruct (analyze_accumulator _ _ E) as [a [-> [_ [Hnd _]]]].
  assert (Hnd' : NoDup (map sym_line (sort_by_line (fst a)))).
  { eapply Permutation_NoDup; [|exact Hnd].
    apply Permutation_map, sort_by_line_perm. }
  split; [|exact Hnd'].
  apply sorted_distinct_strict; [apply sort_by_line_sorted | exact Hnd'].
Qed.

Lemma typescript_symbols_ok (db : DB) (content : str) :
  exists symbols,
    analyze db content = Ok symbols
    /\ Forall (ts_symbol_ok content) symbols.
Proof.
  destruct (typescript_analyze_paired db content) as [symbols [E _]].
  exists symbols. split; [exact E|].
  destruct (analyze_accumulator _ _ E) as [a [-> [Hok _]]].
  eapply Permutation_Forall; [apply sort_by_line_perm | exact Hok].
Qed.

(** X5: every line number the pattern-based analyzer reports is a line
    of the text, counted from 1: it lies between 1 and the number of
    newline characters of the text plus 1. *)
Theorem X5_typescript_lines_within_text (db : DB) (content : str) :
  exists symbols,
    analyze db content = Ok symbols
    /\ Forall (fun s => (1 <= sym_line s <= newlines content + 1)%Z) symbols.
Proof.
  destruct (typescript_symbols_ok db content) as [symbols [E H]].
  exists symbols. split; [exact E|].
  eapply Forall_impl; [|exact H]. unfold ts_symbol_ok. tauto.
Qed.

(** X6: the context captured with a symbol by the pattern-based analyzer
    never exceeds 30 lines. *)
Theorem X6_typescript_context_capped (db : DB) (content : str) :
  exists symbols,
    analyze db content = Ok symbols
    /\ Forall (fun s => (List.length (source_lines s) <= 30)%nat) symbols.
Proof.
  destruct (typescript_symbols_ok db content) as [symbols [E H]].
  exists symbols. split; [exact E|].
  eapply Forall_impl; [|exact H]. unfold ts_symbol_ok. tauto.
Qed.

(** X7: the pattern-based analyzer never reports a plain function whose
    name starts with an underscore. *)
Theorem X7_typescript_private_functions_skipped (db : DB) (content : str) :
  exists symbols,
    analyze db content = Ok symbols
    /\ Forall (fun s => type s = TFunction ->
                        startswith (name s) (lit "_") = false) symbols.
Proof.
  destruct (typescript_symbols_ok db content) as [symbols [E H]].
  exists symbols. split; [exact E|].
  eapply Forall_impl; [|exact H]. unfold ts_symbol_ok. tauto.
Qed.

End AnalyzerInvariants.

Section PythonAnalyzerMore.

Import PythonAnalyzer AnalyzerSpec PythonAnalyzerSpec Scenarios MoreScenarios.

Lemma scan_decorators_kind (db : DB) (decorator_list : list expr) :
  match scan_decorators db decorator_list with
  | (Some _, Some _, TEndpoint) | (None, None, TFunction) => True
  | _ => False
  end.
Proof.
  induction decorator_list as [|d rest IH]; simpl; [exact I|].
  destruct (_decorator_to_endpoint db d) as [[m p]|]; [exact I|exact IH].
Qed.

Lemma visit_ok (db : DB) (lines : list str) (symbols : list SymbolInfo)
  (n : node) :
  Forall py_symbol_ok symbols -> Forall py_symbol_ok (visit db lines symbols n).
Proof.
  intros H. destruct n as [a fname decs body lineno e| |]; simpl; trivial.
  fold (excluded_name fname).
  destruct (excluded_name fname) eqn:X; trivial.
  pose proof (scan_decorators_kind db decs) as K.
  destruct (scan_decorators db decs) as [[em ep] ty].
  destruct (negb (_has_docstring body)); trivial.
  apply Forall_app. split; trivial.
  constructor; [|constructor].
  unfold py_symbol_ok, kind_matches. simpl.
  destruct em, ep, ty; try contradiction;
    repeat split; try discriminate; try congruence.
Qed.

Lemma fold_visit_ok (db : DB) (lines : list str) (nodes : list node) :
  forall symbols, Forall py_symbol_ok symbols ->
    Forall py_symbol_ok (fold_left (visit db lines) nodes symbols).
Proof.
  induction nodes as [|n nodes IH]; intros symbols H; simpl; trivial.
  apply IH. now apply visit_ok.
Qed.

Lemma python_symbols_ok (ast_parse : str -> result node) (db : DB)
  (content : str) :
  match analyze ast_parse db content with
  | Ok symbols => Forall py_symbol_ok symbols
  | Raise e => ast_parse content = Raise e /\ e <> SyntaxError
  end.
Proof.
  unfold analyze. destruct (ast_parse content) as [tree|e].
  - apply fold_visit_ok. constructor.
  - destruct e; try (split; [reflexivity|discriminate]). constructor.
Qed.

(** X8: no analyzer ever returns a symbol marked as documented: every
    symbol returned, by either analyzer, has [has_docs = False]. *)
Theorem X8_returned_symbols_lack_docs
  (ast_parse : str -> result node) (db : DB) (content : str) :
  match analyze ast_parse db content with
  | Ok symbols => Forall (fun s => has_docs s = false) symbols
  | Raise e => ast_parse content = Raise e /\ e <> SyntaxError
  end
  /\ exists symbols,
       TypeScriptAnalyzer.analyze db content = Ok symbols
       /\ Forall (fun s => has_docs s = false) symbols.
Proof.
  split.
  - pose proof (python_symbols_ok ast_parse db content) as H.
    destruct (analyze ast_parse db content); [|exact H].
    eapply Forall_impl; [|exact H]. unfold py_symbol_ok. tauto.
  - destruct (typescript_symbols_ok db content) as [symbols [E H]].
    exists symbols. split; [exact E|].
    eapply Forall_impl; [|exact H]. unfold ts_symbol_ok. tauto.
Qed.

(** X9: for every symbol returned by either analyzer, the kind is
    [endpoint] exactly when an endpoint method is present. *)
Theorem X9_kind_agrees_with_endpoint_fields
  (ast_parse : str -> result node) (db : DB) (content : str) :
  match analyze ast_parse db content with
  | Ok symbols => Forall kind_matches symbols
  | Raise e => ast_parse content = Raise e /\ e <> SyntaxError
  end
  /\ exists symbols,
       TypeScriptAnalyzer.analyze db content = Ok symbols
       /\ Forall kind_matches symbols.
Proof.
  split.
  - pose proof (python_symbols_ok ast_parse db content) as H.
    destruct (analyze ast_parse db content); [|exact H].
    eapply Forall_impl; [|exact H]. unfold py_symbol_ok. tauto.
  - destruct (typescript_symbols_ok db content) as [symbols [E H]].
    exists symbols. split; [exact E|].
    eapply Forall_impl; [|exact H]. unfold ts_symbol_ok. tauto.
Qed.

(** ** What the grammar-based analyzer reports *)

Lemma fold_visit_names (db : DB) (lines : list str) (nodes : list node) :
  forall symbols,
    map symbol_name_and_line (fold_left (visit db lines) nodes symbols)
    = map symbol_name_and_line symbols
      ++ map name_and_line (filter reported nodes).
Proof.
  induction nodes as [|n nodes IH]; intros symbols; simpl.
  - now rewrite app_nil_r.
  - rewrite IH. destruct n as [a fname decs body lineno e| |]; simpl; trivial.
    fold (excluded_name fname).
    destruct (excluded_name fname); simpl; trivial.
    destruct (scan_decorators db decs) as [[em ep] ty].
    destruct (negb (_has_docstring body)); simpl; trivial.
    rewrite map_app, <- app_assoc. reflexivity.
Qed.

Lemma python_reports (ast_parse : str -> result node) (db : DB)
  (content : str) (tree : node) :
  ast_parse content = Ok tree ->
  exists symbols,
    analyze ast_parse db content = Ok symbols
    /\ map symbol_name_and_line symbols
       = map name_and_line (filter reported (walk tree)).
Proof.
  intros H. unfold analyze. rewrite H. eexists. split; [reflexivity|].
  now rewrite fold_visit_names.
Qed.

(** X10: when the text parses, the grammar-based analyzer reports, in
    the order of the breadth-first walk, exactly the function definitions
    that have no docstring and whose name is not excluded (two leading
    underscores, other than [__init__]), each under its own name and
    line: nothing is added, nothing is left out, a documented function is
    never reported. *)
Theorem X10_python_reports_exactly_undocumented_defs
  (ast_parse : str -> result node) (db : DB) (content : str) (tree : node) :
  ast_parse content = Ok tree ->
  exists symbols,
    analyze ast_parse db content = Ok symbols
    /\ map symbol_name_and_line symbols
       = map name_and_line (filter reported (walk tree)).
Proof. apply python_reports. Qed.

Lemma X10_python_reports_witness :
  exists symbols,
    analyze nested_parse ascii_db nested_source = Ok symbols
    /\ map symbol_name_and_line symbols
       = map name_and_line (filter reported (walk nested_tree)).
Proof.
  apply (@X10_python_reports_exactly_undocumented_defs
           nested_parse ascii_db nested_source nested_tree).
  vm_compute. reflexivity.
Defined.

Lemma nodes_of_children (n : node) :
  nodes_of n = n :: flat_map nodes_of (iter_child_nodes n).
Proof. destruct n; reflexivity. Qed.

Lemma walk_queue_covers :
  forall steps todo n,
    (list_sum (map size todo) <= steps)%nat ->
    In n (flat_map nodes_of todo) -> In n (walk_queue steps todo).
Proof.
  induction steps as [|steps IH]; intros todo n Hs Hin.
  - destruct todo as [|x rest]; [contradiction|].
    simpl in Hs. rewrite size_children in Hs. lia.
  - destruct todo as [|x rest]; [contradiction|].
    simpl in Hs, Hin. rewrite size_children in Hs.
    rewrite nodes_of_children in Hin. simpl in Hin.
    destruct Hin as [->|Hin]; [now left|]. right.
    apply IH.
    + rewrite map_app, list_sum_app. lia.
    + rewrite flat_map_app. apply in_or_app.
      apply in_app_or in Hin. tauto.
Qed.

(** X11: a function definition anywhere in the parsed tree, however
    deeply nested in classes, functions or compound statements, is
    reported under its name and line when it has no docstring and its
    name is not excluded. *)
Theorem X11_python_finds_nested_defs
  (ast_parse : str -> result node) (db : DB) (content : str)
  (tree n : node) :
  ast_parse content = Ok tree ->
  In n (nodes_of tree) ->
  reported n = true ->
  exists symbols s,
    analyze ast_parse db content = Ok symbols
    /\ In s symbols
    /\ symbol_name_and_line s = name_and_line n.
Proof.
  intros Hp Hin Hr.
  destruct (@python_reports ast_parse db content tree Hp)
    as [symbols [E M]].
  assert (Hw : In (name_and_line n)
                  (map name_and_line (filter reported (walk tree)))).
  { apply in_map, filter_In. split; [|exact Hr].
    unfold walk. apply walk_queue_covers; simpl; [lia|].
    rewrite app_nil_r. exact Hin. }
  rewrite <- M in Hw. apply in_map_iff in Hw. destruct Hw as [s [Es Hs]].
  now exists symbols, s.
Qed.

Lemma X11_python_nested_witness :
  exists symbols s,
    analyze nested_parse ascii_db nested_source = Ok symbols
    /\ In s symbols
    /\ symbol_name_and_line s = name_and_line inner_def.
Proof.
  apply (@X11_python_finds_nested_defs nested_parse ascii_db nested_source
           nested_tree inner_def).
  - vm_compute. reflexivity.
  - simpl. tauto.
  - reflexivity.
Defined.

(** ** Decorators *)

Lemma first_arg_constant_some (args : list expr) (c : constant) :
  first_arg_constant args = Some c ->
  exists rest, args = Constant c :: rest.
Proof.
  destruct args as [|[ | |c'| | | ] rest]; simpl; try discriminate.
  intros H. inversion H; subst. now exists rest.
Qed.

Lemma methods_keyword_path (db : DB) (path : str) :
  forall keywords m p,
    methods_keyword db keywords path = Some (m, p) -> p = path.
Proof.
  induction keywords as [|[arg value] rest IH]; intros m p H; simpl in H;
    [discriminate|].
  destruct (if arg_is arg (lit "methods")
            then match value with ListE elts => first_constant elts
                 | _ => None end
            else None) as [c|].
  - now inversion H.
  - now apply IH in H.
Qed.

(** X12: whenever a decorator is classified as an endpoint, it is a call
    on an attribute whose first positional argument is a constant, and
    the endpoint path is the text of that constant.  The method is the
    upper-cased attribute when that is an HTTP method name; otherwise the
    attribute is [route] (in any letter case) and the method comes from
    the [methods] keyword or is GET. *)
Theorem X12_endpoint_decorator_shape (db : DB) (decorator : expr)
  (m p : str) :
  _decorator_to_endpoint db decorator = Some (m, p) ->
  exists receiver attr c rest keywords,
    decorator = Call (Attribute receiver attr) (Constant c :: rest) keywords
    /\ p = py_str c
    /\ ((str_in (upper db attr) HTTP_METHODS = true /\ m = upper db attr)
        \/ (upper db attr = lit "ROUTE"
            /\ (methods_keyword db keywords p = Some (m, p)
                \/ (methods_keyword db keywords p = None
                    /\ m = lit "GET")))).
Proof.
  intros H.
  destruct decorator as [func args keywords| | | | |]; try discriminate.
  destruct func as [|receiver attr| | | |]; try discriminate.
  unfold _decorator_to_endpoint in H.
  destruct (first_arg_constant args) as [c|] eqn:A.
  - destruct (first_arg_constant_some _ A) as [rest ->].
    exists receiver, attr, c, rest, keywords.
    destruct (str_in (upper db attr) HTTP_METHODS) eqn:V.
    + inversion H; subst. auto.
    + destruct (Str.eqb (upper db attr) (lit "ROUTE")) eqn:R;
        [|discriminate].
      apply str_eqb_eq in R.
      destruct (methods_keyword db keywords (py_str c)) as [[m' p']|] eqn:K.
      * inversion H; subst m' p'.
        pose proof (methods_keyword_path _ _ _ K) as ->.
        repeat split; auto.
      * inversion H; subst. repeat split; auto.
  - destruct (str_in (upper db attr) HTTP_METHODS);
      destruct (Str.eqb (upper db attr) (lit "ROUTE")); discriminate.
Qed.

Lemma X12_endpoint_decorator_witness :
  exists receiver attr c rest keywords,
    route_decorator
    = Call (Attribute receiver attr) (Constant c :: rest) keywords
    /\ users_path = py_str c
    /\ ((str_in (upper ascii_db attr) HTTP_METHODS = true
         /\ lit "GET" = upper ascii_db attr)
        \/ (upper ascii_db attr = lit "ROUTE"
            /\ (methods_keyword ascii_db keywords users_path
                = Some (lit "GET", users_path)
                \/ (methods_keyword ascii_db keywords users_path = None
                    /\ lit "GET" = lit "GET")))).
Proof.
  apply (@X12_endpoint_decorator_shape ascii_db route_decorator
           (lit "GET") users_path).
  vm_compute. reflexivity.
Defined.

Lemma methods_keyword_first (db : DB) (path : str) (elts : list expr)
  (k : constant) (later : list keyword) :
  forall before,
    Forall not_methods before ->
    first_constant elts = Some k ->
    methods_keyword db
      (before ++ Keyword (Some (lit "methods")) (ListE elts) :: later) path
    = Some (upper db (py_str k), path).
Proof.
  induction before as [|[arg value] before IH]; intros Hb Hk; simpl.
  - now rewrite Hk.
  - inversion Hb as [|? ? Hkw Hrest]; subst. simpl in Hkw. rewrite Hkw.
    now apply IH.
Qed.

(** X13: for a route decorator with a constant path, the endpoint method
    is the first constant of the first [methods=[...]] list, upper-cased;
    further entries of the list and later keywords are not looked at. *)
Theorem X13_route_takes_first_listed_method (db : DB) (receiver : expr)
  (attr : str) (c k : constant) (args elts : list expr)
  (before later : list keyword) :
  upper db attr = lit "ROUTE" ->
  Forall not_methods before ->
  first_constant elts = Some k ->
  _decorator_to_endpoint db
    (Call (Attribute receiver attr) (Constant c :: args)
          (before ++ Keyword (Some (lit "methods")) (ListE elts) :: later))
  = Some (upper db (py_str k), py_str c).
Proof.
  intros Hr Hb Hk. unfold _decorator_to_endpoint. rewrite Hr. simpl.
  now rewrite (@methods_keyword_first db (py_str c) elts k later before
                 Hb Hk).
Qed.

Lemma X13_route_first_method_witness :
  _decorator_to_endpoint ascii_db route_with_methods
  = Some (upper ascii_db (py_str (CStr (lit "post"))),
          py_str (CStr users_path)).
Proof.
  apply (@X13_route_takes_first_listed_method ascii_db (Name (lit "bp"))
           (lit "route") (CStr users_path) (CStr (lit "post")) []
           [Constant (CStr (lit "post")); Constant (CStr (lit "put"))]
           [Keyword (Some (lit "strict_slashes"))
                    (Constant (COther (lit "False")))] []).
  - vm_compute. reflexivity.
  - repeat constructor.
  - reflexivity.
Defined.

(** X14: among the decorators of a function the first one that is an
    endpoint decorator decides method, path and kind; the decorators
    after it are not looked at. *)
Theorem X14_first_endpoint_decorator_wins (db : DB)
  (before later : list expr) (d : expr) (m p : str) :
  Forall (fun e => _decorator_to_endpoint db e = None) before ->
  _decorator_to_endpoint db d = Some (m, p) ->
  scan_decorators db (before ++ d :: later) = (Some m, Some p, TEndpoint).
Proof.
  intros Hb Hd. induction Hb as [|e before He _ IH]; simpl.
  - now rewrite Hd.
  - now rewrite He.
Qed.

Lemma X14_first_endpoint_decorator_witness :
  scan_decorators ascii_db
    ([Name (lit "cached")] ++ route_with_methods :: [route_decorator])
  = (Some (lit "POST"), Some users_path, TEndpoint).
Proof.
  apply (@X14_first_endpoint_decorator_wins ascii_db [Name (lit "cached")]
           [route_decorator] route_with_methods (lit "POST") users_path).
  - repeat constructor.
  - vm_compute. reflexivity.
Defined.

End PythonAnalyzerMore.


(* ================================================================== *)
(** * Endpoint paths and the documentation window *)
(* ================================================================== *)

Section PathFacts.

Import TypeScriptAnalyzer PathSpec Scenarios.

Lemma dropwhile_head (p : char -> bool) (s : str) :
  dropwhile p s = [] \/ exists c t, dropwhile p s = c :: t /\ p c = false.
Proof.
  induction s as [|c s IH]; simpl; [now left|].
  destruct (p c) eqn:E; [exact IH|]. right. now exists c, s.
Qed.

Lemma dropwhile_suffix (p : char -> bool) (s : str) :
  exists pre, s = pre ++ dropwhile p s.
Proof.
  induction s as [|c s [pre IH]]; simpl; [now exists []|].
  destruct (p c); [|now exists []].
  exists (c :: pre). simpl. now rewrite <- IH.
Qed.

Lemma rstrip_chars_last (cs s : str) :
  rstrip_chars cs s = []
  \/ exists t c, rstrip_chars cs s = t ++ [c] /\ mem cs c = false.
Proof.
  unfold rstrip_chars.
  destruct (dropwhile_head (mem cs) (rev s)) as [->|[c [t [-> Hc]]]].
  - now left.
  - right. exists (rev t), c. simpl. auto.
Qed.

Lemma strip_chars_last (cs s : str) :
  strip_chars cs s = []
  \/ exists t c, strip_chars cs s = t ++ [c] /\ mem cs c = false.
Proof.
  unfold strip_chars, lstrip_chars.
  destruct (dropwhile_suffix (mem cs) (rstrip_chars cs s)) as [pre E].
  destruct (rstrip_chars_last cs s) as [R|[t [c [R Hc]]]].
  - rewrite R in *. simpl. now left.
  - destruct (dropwhile (mem cs) (rstrip_chars cs s)) as [|x xs] eqn:D;
      [now left|right].
    destruct (exists_last (l := x :: xs)) as [t' [c' E']]; [discriminate|].
    rewrite E' in E. rewrite R, app_assoc in E.
    apply app_inj_tail in E. destruct E as [_ ->].
    now exists t', c'.
Qed.

Lemma rstrip_chars_keep (cs s : str) (c : char) :
  mem cs c = false -> rstrip_chars cs (s ++ [c]) = s ++ [c].
Proof.
  intros H. unfold rstrip_chars. rewrite rev_app_distr. simpl.
  rewrite H. simpl. now rewrite rev_involutive.
Qed.

Lemma rstrip_chars_drop (cs s : str) (c : char) :
  mem cs c = true -> rstrip_chars cs (s ++ [c]) = rstrip_chars cs s.
Proof.
  intros H. unfold rstrip_chars. rewrite rev_app_distr. simpl.
  now rewrite H.
Qed.

Lemma startswith_same_head (c : char) (s : str) :
  startswith (c :: s) [c] = true.
Proof.
  simpl. unfold char_eqb. rewrite N.eqb_refl. now destruct s.
Qed.

Lemma startswith_single (c d : char) (s : str) :
  startswith (c :: s) [d] = char_eqb d c.
Proof. simpl. destruct s; apply andb_true_r. Qed.

Lemma joined_path_nonempty (b t : str) (c : char) :
  joined_path b (t ++ [c]) = [SLASH] ++ b ++ [SLASH] ++ t ++ [c].
Proof.
  unfold joined_path. destruct (t ++ [c]) eqn:E; [now destruct t|].
  reflexivity.
Qed.

Lemma joined_path_base_only (t : str) (c : char) :
  joined_path (t ++ [c]) [] = [SLASH] ++ t ++ [c].
Proof.
  unfold joined_path. destruct (t ++ [c]) eqn:E; [now destruct t|].
  reflexivity.
Qed.

Lemma full_path_joined (controller_base path_part : str) :
  full_path_of controller_base path_part
  = joined_path (trim_slashes controller_base) (trim_slashes path_part).
Proof.
  unfold full_path_of, trim_slashes.
  destruct (strip_chars_last [SLASH] path_part) as [->|[t [c [-> Hc]]]].
  - destruct (strip_chars_last [SLASH] controller_base)
      as [->|[t [c [-> Hc]]]].
    + reflexivity.
    + rewrite joined_path_base_only.
      replace ([SLASH] ++ (t ++ [c]) ++ [SLASH] ++ [])
        with (([SLASH] ++ t ++ [c]) ++ [SLASH])
        by (now rewrite app_nil_r, <- !app_assoc).
      rewrite rstrip_chars_drop by reflexivity.
      rewrite (app_assoc [SLASH] t [c]).
      rewrite rstrip_chars_keep by exact Hc.
      rewrite <- (app_assoc [SLASH] t [c]).
      cbn [app]. now rewrite startswith_same_head.
  - rewrite joined_path_nonempty.
    replace ([SLASH] ++ strip_chars [SLASH] controller_base
             ++ [SLASH] ++ t ++ [c])
      with (([SLASH] ++ strip_chars [SLASH] controller_base
             ++ [SLASH] ++ t) ++ [c])
      by (now rewrite <- !app_assoc).
    rewrite rstrip_chars_keep by exact Hc.
    cbn [app]. now rewrite startswith_same_head.
Qed.

(** X15: the full path of a decorator-style endpoint depends on base and
    method path only through their slash-trimmed forms [b] and [p]: it is
    [/] when both are empty, [/b] when only [p] is empty, and [/b/p]
    otherwise.  With an empty base and a non-empty method path this
    is [//p]: the path then starts with two slashes. *)
Theorem X15_full_path_by_cases (controller_base path_part : str) :
  full_path_of controller_base path_part
  = joined_path (trim_slashes controller_base) (trim_slashes path_part)
  /\ joined_path [] (lit "users") = lit "//users".
Proof.
  split; [apply full_path_joined | reflexivity].
Qed.

(** X16: the full path always starts with a slash and never ends with
    one, unless it is the root path [/] itself. *)
Theorem X16_full_path_normal_form (controller_base path_part : str) :
  startswith (full_path_of controller_base path_part) [SLASH] = true
  /\ (full_path_of controller_base path_part = [SLASH]
      \/ endswith (full_path_of controller_base path_part) [SLASH] = false).
Proof.
  rewrite full_path_joined. unfold trim_slashes.
  assert (Hend : forall pre t c, mem [SLASH] c = false ->
            endswith (pre ++ t ++ [c]) [SLASH] = false).
  { intros pre t c Hc. unfold endswith.
    rewrite app_assoc, rev_app_distr.
    change (rev [c]) with [c]. change (rev [SLASH]) with [SLASH].
    cbn [app]. rewrite startswith_single.
    unfold mem in Hc. cbn [existsb] in Hc. rewrite orb_false_r in Hc.
    unfold char_eqb in *. now rewrite N.eqb_sym. }
  destruct (strip_chars_last [SLASH] path_part) as [->|[t [c [-> Hc]]]].
  - destruct (strip_chars_last [SLASH] controller_base)
      as [->|[t [c [-> Hc]]]].
    + split; [reflexivity | now left].
    + rewrite joined_path_base_only.
      split; [apply startswith_same_head | right; now apply Hend].
  - rewrite joined_path_nonempty.
    split; [apply startswith_same_head | right].
    replace ([SLASH] ++ strip_chars [SLASH] controller_base
             ++ [SLASH] ++ t ++ [c])
      with (([SLASH] ++ strip_chars [SLASH] controller_base ++ [SLASH])
            ++ t ++ [c])
      by (now rewrite <- !app_assoc).
    now apply Hend.
Qed.

(** ** Which lines the documentation test reads *)

(** ** Which lines the documentation test reads *)

Lemma window_of_recent (earlier recent later : list str) :
  List.length recent = 20%nat ->
  window (earlier ++ recent ++ later) (len (earlier ++ recent))
  = join [NL] recent.
Proof.
  intros Hr. unfold window. f_equal. unfold slice.
  rewrite !clamp_in_range by (unfold len; lia).
  unfold len. rewrite !length_app. rewrite Hr.
  replace (Nat.min (Z.to_nat (Z.of_nat (List.length earlier + 20)))
                   (List.length earlier + (20 + List.length later)))
    with (List.length earlier + 20)%nat by lia.
  replace (Nat.min
             (Z.to_nat (Z.max 0 (Z.of_nat (List.length earlier + 20) - 20)))
             (List.length earlier + (20 + List.length later)))
    with (List.length earlier) by lia.
  replace (List.length earlier + 20 - List.length earlier)%nat
    with 20%nat by lia.
  rewrite skipn_app, Nat.sub_diag, skipn_all. cbn [app skipn].
  rewrite firstn_app, Hr, Nat.sub_diag, firstn_O, app_nil_r.
  apply firstn_all2. lia.
Qed.

(** X17: the documentation test reads the 20 lines just above the
    candidate and nothing else: lines further up, the candidate line
    itself and the lines below it have no influence on the verdict. *)
Theorem X17_only_the_20_lines_above_matter
  (earlier recent later : list str) :
  List.length recent = 20%nat ->
  window (earlier ++ recent ++ later) (len (earlier ++ recent))
  = join [NL] recent
  /\ _has_jsdoc_before (earlier ++ recent ++ later)
                       (len (earlier ++ recent))
     = _has_jsdoc_before recent 20.
Proof.
  intros Hr. split; [now apply window_of_recent|].
  unfold _has_jsdoc_before.
  rewrite window_of_recent by exact Hr.
  pose proof (@window_of_recent [] recent [] Hr) as W.
  simpl in W. rewrite app_nil_r in W. unfold len in W. rewrite Hr in W.
  change (Z.of_nat 20) with 20%Z in W. rewrite W.
  destruct (Z.eqb_spec (len (earlier ++ recent)) 0) as [E|_].
  - unfold len in E. rewrite length_app in E. lia.
  - reflexivity.
Qed.

Lemma X17_only_the_20_lines_above_witness :
  window ([lit "/** far */"; lit "code();"] ++ twenty_lines
          ++ [lit "function f() {}"])
         (len ([lit "/** far */"; lit "code();"] ++ twenty_lines))
  = join [NL] twenty_lines
  /\ _has_jsdoc_before ([lit "/** far */"; lit "code();"] ++ twenty_lines
                        ++ [lit "function f() {}"])
                       (len ([lit "/** far */"; lit "code();"]
                             ++ twenty_lines))
     = _has_jsdoc_before twenty_lines 20.
Proof.
  apply (@X17_only_the_20_lines_above_matter
           [lit "/** far */"; lit "code();"] twenty_lines
           [lit "function f() {}"]).
  reflexivity.
Defined.

End PathFacts.

(* ================================================================== *)
(** * Properties of the confirmation loop *)
(* ================================================================== *)

Section PromptingFacts.

Import Prompting Scenarios.

(** Whatever was decided before, the loop extends [accepted] and
    [rejected] by two complementary parts of the proposals it is given. *)
Lemma decide_partition :
  forall proposals accept_all answers acc rej acc' rej' answers',
    decide proposals accept_all answers acc rej = Some (acc', rej', answers') ->
    exists a r,
      acc' = acc ++ a /\ rej' = rej ++ r
      /\ Permutation (a ++ r) proposals
      /\ subsequence a proposals /\ subsequence r proposals.
Proof.
  induction proposals as [|p ps IH];
    intros accept_all answers acc rej acc' rej' answers' H; simpl in H.
  - inversion H; subst. exists [], []. rewrite !app_nil_r.
    repeat split; constructor.
  - assert (Hacc : forall flag ans,
              decide ps flag ans (acc ++ [p]) rej = Some (acc', rej', answers') ->
              exists a r,
                acc' = acc ++ a /\ rej' = rej ++ r
                /\ Permutation (a ++ r) (p :: ps)
                /\ subsequence a (p :: ps) /\ subsequence r (p :: ps)).
    { intros flag ans E. apply IH in E.
      destruct E as [a [r [-> [-> [P [Sa Sr]]]]]].
      exists (p :: a), r. rewrite <- app_assoc. simpl.
      repeat split; [now constructor | now constructor | now apply sub_skip]. }
    assert (Hrej : forall flag ans,
              decide ps flag ans acc (rej ++ [p]) = Some (acc', rej', answers') ->
              exists a r,
                acc' = acc ++ a /\ rej' = rej ++ r
                /\ Permutation (a ++ r) (p :: ps)
                /\ subsequence a (p :: ps) /\ subsequence r (p :: ps)).
    { intros flag ans E. apply IH in E.
      destruct E as [a [r [-> [-> [P [Sa Sr]]]]]].
      exists a, (p :: r). rewrite <- app_assoc. simpl.
      repeat split; [|now apply sub_skip | now constructor].
      eapply perm_trans; [apply Permutation_sym, Permutation_middle|].
      now constructor. }
    destruct accept_all; [now apply Hacc in H|].
    destruct (ask answers) as [[[ | | | ] ans]|]; try discriminate;
      eauto.
Qed.

(** X18: when the confirmation loop returns, every proposal of the file
    is in exactly one of [accepted] and [rejected]: the two lists together
    are a rearrangement of the proposals, and each keeps the proposals in
    their original order. *)
Theorem X18_decision_partitions_proposals (path : str)
  (proposals : list DocProposal) (accept_all : bool)
  (answers answers' : list answer) (d : Decision) :
  show_file_proposals path proposals accept_all answers = Some (d, answers') ->
  Permutation (accepted d ++ rejected d) proposals
  /\ subsequence (accepted d) proposals
  /\ subsequence (rejected d) proposals
  /\ file_path d = path.
Proof.
  unfold show_file_proposals. destruct proposals as [|p ps].
  - intros H. inversion H; subst. simpl. repeat split; constructor.
  - destruct (decide (p :: ps) accept_all answers [] [])
      as [[[acc rej] ans]|] eqn:E; [|discriminate].
    intros H. inversion H; subst. simpl.
    apply decide_partition in E.
    destruct E as [a [r [-> [-> [P [Sa Sr]]]]]]. simpl. auto.
Qed.

Lemma X18_decision_partition_witness :
  Permutation
    (accepted {| file_path := lit "a.py"; accepted := [scenario_proposal];
                 rejected := [proposal_line2] |}
     ++ rejected {| file_path := lit "a.py"; accepted := [scenario_proposal];
                    rejected := [proposal_line2] |})
    [scenario_proposal; proposal_line2]
  /\ subsequence
       (accepted {| file_path := lit "a.py"; accepted := [scenario_proposal];
                    rejected := [proposal_line2] |})
       [scenario_proposal; proposal_line2]
  /\ subsequence
       (rejected {| file_path := lit "a.py"; accepted := [scenario_proposal];
                    rejected := [proposal_line2] |})
       [scenario_proposal; proposal_line2]
  /\ file_path {| file_path := lit "a.py"; accepted := [scenario_proposal];
                  rejected := [proposal_line2] |} = lit "a.py".
Proof.
  apply (@X18_decision_partitions_proposals (lit "a.py")
           [scenario_proposal; proposal_line2] false
           [AnsS; AnsY; AnsN; AnsY] [AnsY]).
  reflexivity.
Defined.

Lemma decide_accept_all :
  forall proposals answers acc rej,
    decide proposals true answers acc rej
    = Some (acc ++ proposals, rej, answers).
Proof.
  induction proposals as [|p ps IH]; intros answers acc rej; simpl.
  - now rewrite app_nil_r.
  - rewrite IH, <- app_assoc. reflexivity.
Qed.

Lemma ask_after_s (n : nat) (choice : answer) (rest : list answer) :
  choice <> AnsS ->
  ask (repeat AnsS n ++ choice :: rest) = Some (choice, rest).
Proof.
  intros H. induction n as [|n IH]; simpl; [|exact IH].
  destruct choice; congruence.
Qed.

(** X19: with [accept_all] set, every proposal is accepted, none is
    rejected and no answer is read, whatever the answers are.  The answer
    [a] to the first prompt, after any number of [s], has the same effect
    for all proposals of the file. *)
Theorem X19_accept_all_accepts_everything (path : str)
  (proposals : list DocProposal) (answers : list answer)
  (p : DocProposal) (n : nat) :
  show_file_proposals path proposals true answers
  = Some ({| file_path := path; accepted := proposals; rejected := [] |},
          answers)
  /\ show_file_proposals path (p :: proposals) false
       (repeat AnsS n ++ AnsA :: answers)
     = Some ({| file_path := path; accepted := p :: proposals;
                rejected := [] |}, answers).
Proof.
  split.
  - unfold show_file_proposals. destruct proposals as [|q qs];
      [reflexivity|].
    now rewrite decide_accept_all.
  - unfold show_file_proposals. cbn [decide].
    rewrite ask_after_s by discriminate.
    now rewrite decide_accept_all.
Qed.

End PromptingFacts.

(* ================================================================== *)
(** * Properties of the reply clean-up *)
(* ================================================================== *)

Section ClientFacts.

Import Client.

Lemma is_linebreak_NL : is_linebreak NL = true.
Proof. reflexivity. Qed.

(** A line without boundary, closed by a newline, is one line of the
    split. *)
Lemma splitlines_from_line (s : str) :
  forall cur rest,
    one_line s ->
    splitlines_from false cur (s ++ NL :: rest)
    = (rev cur ++ s) :: splitlines_from false [] rest.
Proof.
  induction s as [|c s IH]; intros cur rest Hs.
  - simpl app. rewrite app_nil_r.
    cbn [splitlines_from]. rewrite is_linebreak_NL.
    destruct rest as [|d t]; reflexivity.
  - inversion Hs as [|? ? Hc Hs']; subst.
    cbn [app splitlines_from]. rewrite Hc.
    rewrite IH by exact Hs'. simpl. now rewrite <- app_assoc.
Qed.

Lemma splitlines_from_last (s : str) :
  forall cur,
    one_line s -> rev cur ++ s <> [] ->
    splitlines_from false cur s = [rev cur ++ s].
Proof.
  induction s as [|c s IH]; intros cur Hs Hne.
  - rewrite app_nil_r in *. simpl.
    destruct cur; [simpl in Hne; congruence|reflexivity].
  - inversion Hs as [|? ? Hc Hs']; subst.
    cbn [splitlines_from]. rewrite Hc.
    rewrite IH; simpl; rewrite <- ?app_assoc; trivial;
      try (destruct (rev cur); discriminate).
Qed.

(** Joining lines by newlines and splitting again gives the lines back,
    when no line holds a boundary and the last one is not empty. *)
Lemma splitlines_join (ls : list str) (z : str) :
  Forall one_line ls -> one_line z -> z <> [] ->
  splitlines false (join [NL] (ls ++ [z])) = ls ++ [z].
Proof.
  intros Hls Hz Hne. unfold splitlines.
  induction Hls as [|x ls Hx Hls IH].
  - simpl. now rewrite splitlines_from_last.
  - change (join [NL] ((x :: ls) ++ [z]))
      with (join [NL] (x :: (ls ++ [z]))).
    assert (E : join [NL] (x :: ls ++ [z])
                = x ++ NL :: join [NL] (ls ++ [z])).
    { simpl. destruct (ls ++ [z]) eqn:D; [now destruct ls|reflexivity]. }
    rewrite E, splitlines_from_line by exact Hx.
    simpl. now rewrite IH.
Qed.

Lemma startswith_app (s t prefix : str) :
  startswith s prefix = true -> startswith (s ++ t) prefix = true.
Proof.
  revert s. induction prefix as [|p prefix IH]; intros s H.
  - now destruct (s ++ t).
  - destruct s as [|c s]; [discriminate|]. simpl in *.
    apply andb_true_iff in H. destruct H as [-> H]. simpl. now apply IH.
Qed.

Lemma getitem_last {A} (l : list A) (x : A) :
  getitem (l ++ [x]) (-1) = Ok x.
Proof.
  unfold getitem, norm_index, len. rewrite length_app. cbn [List.length].
  replace (-1 <? 0)%Z with true by reflexivity.
  destruct (Z.ltb_spec (-1 + Z.of_nat (List.length l + 1)) 0); [lia|].
  replace (Z.to_nat (-1 + Z.of_nat (List.length l + 1)))
    with (List.length l) by lia.
  rewrite nth_error_app2 by lia. now rewrite Nat.sub_diag.
Qed.

Lemma slice_inner {A} (a z : A) (l : list A) :
  slice ((a :: l) ++ [z]) 1 (-1) = l.
Proof.
  unfold slice, clamp, norm_index, len. rewrite length_app.
  cbn [List.length].
  replace (1 <? 0)%Z with false by reflexivity.
  replace (-1 <? 0)%Z with true by reflexivity.
  replace (Z.to_nat (Z.min (Z.max 1 0)
                           (Z.of_nat (S (List.length l) + 1))))
    with 1%nat by lia.
  replace (Z.to_nat
             (Z.min (Z.max (-1 + Z.of_nat (S (List.length l) + 1)) 0)
                    (Z.of_nat (S (List.length l) + 1))))
    with (S (List.length l)) by lia.
  cbn [app skipn]. replace (S (List.length l) - 1)%nat
    with (List.length l) by lia.
  rewrite firstn_app, Nat.sub_diag, firstn_O, app_nil_r.
  apply firstn_all.
Qed.

(** X20: a reply wrapped in a fence (an opening line that starts with
    three backticks, the payload lines, a closing line of three
    backticks) is unwrapped to exactly the payload, its lines joined by
    newlines, provided no line holds a line boundary character. *)
Theorem X20_fence_is_unwrapped (opening : str) (payload : list str) :
  startswith opening FENCE = true ->
  one_line opening ->
  Forall one_line payload ->
  strip_fence (join [NL] (opening :: payload ++ [FENCE]))
  = Ok (join [NL] payload).
Proof.
  intros Ho Hl Hp. unfold strip_fence.
  assert (Hstart : startswith (join [NL] (opening :: payload ++ [FENCE]))
                              FENCE = true).
  { simpl. destruct (payload ++ [FENCE]) eqn:D; [now destruct payload|].
    now apply startswith_app. }
  rewrite Hstart.
  change (opening :: payload ++ [FENCE])
    with ((opening :: payload) ++ [FENCE]).
  rewrite splitlines_join;
    [|now constructor | repeat constructor | discriminate].
  rewrite getitem_last. cbn [bind]. rewrite str_eqb_refl.
  f_equal. f_equal. apply slice_inner.
Qed.

Lemma X20_fence_is_unwrapped_witness :
  strip_fence fenced_reply = Ok (join [NL] payload_lines).
Proof.
  apply (@X20_fence_is_unwrapped (FENCE ++ lit "json") payload_lines).
  - reflexivity.
  - repeat constructor.
  - repeat constructor.
Defined.

Lemma splitlines_from_nonempty (keepends : bool) (s : str) :
  forall cur, s <> [] -> splitlines_from keepends cur s <> [].
Proof.
  induction s as [|c s IH]; intros cur H; [congruence|].
  cbn [splitlines_from]. destruct (is_linebreak c).
  - destruct s as [|d t]; [discriminate|].
    destruct (char_eqb c CR && char_eqb d NL)%bool; discriminate.
  - destruct s as [|d t].
    + simpl. discriminate.
    + apply IH. discriminate.
Qed.

(** X21: the clean-up never fails on the index [lines[-1]]: for every
    reply it returns a text, and a reply that does not start with three
    backticks is returned unchanged. *)
Theorem X21_strip_fence_always_returns (raw : str) :
  (exists cleaned, strip_fence raw = Ok cleaned)
  /\ (startswith raw FENCE = true \/ strip_fence raw = Ok raw).
Proof.
  unfold strip_fence. destruct (startswith raw FENCE) eqn:S.
  - split; [|now left].
    assert (Hne : raw <> []) by (destruct raw; [discriminate|discriminate]).
    pose proof (@splitlines_from_nonempty false raw [] Hne) as Hl.
    unfold splitlines.
    destruct (exists_last Hl) as [l' [x E]].
    rewrite E, getitem_last. cbn [bind]. eexists. reflexivity.
  - split; [now exists raw | now right].
Qed.

End ClientFacts.

(* ================================================================== *)
(** * Indentation of a doc block *)
(* ================================================================== *)

Section IndentFacts.

Import DiffViewer DiffViewerSpec Client.

Lemma join_ends_with_last (sep : str) (ls : list str) (z : str) :
  exists pre, join sep (ls ++ [z]) = pre ++ z.
Proof.
  induction ls as [|x ls [pre IH]].
  - now exists [].
  - exists (x ++ sep ++ pre).
    change ((x :: ls) ++ [z]) with (x :: (ls ++ [z])).
    simpl. destruct (ls ++ [z]) eqn:E; [now destruct ls|].
    rewrite IH, <- !app_assoc. reflexivity.
Qed.

Lemma endswith_last (s : str) (c d : char) :
  endswith (s ++ [c]) [d] = char_eqb d c.
Proof.
  unfold endswith. rewrite rev_app_distr.
  change (rev [c]) with [c]. change (rev [d]) with [d]. cbn [app].
  apply startswith_single.
Qed.

(** X25: a doc block given as lines joined by newlines, with or without
    a final newline to begin with, is inserted line by line: every line
    that is not blank gets the indentation in front, a blank line is left
    as it is, and the block ends with exactly one newline.  (No line
    holds a line boundary character and the last line is not empty.) *)
Theorem X25_doc_block_indented_line_by_line (prefix : str)
  (ls : list str) (z : str) :
  Forall single_line ls -> single_line z -> z <> [] ->
  indent_doc prefix (with_newline (join [NL] (ls ++ [z])))
  = join [NL] (map (indent_line prefix) (ls ++ [z])) ++ [NL]
  /\ indent_doc prefix (with_newline (join [NL] (ls ++ [z]) ++ [NL]))
     = join [NL] (map (indent_line prefix) (ls ++ [z])) ++ [NL].
Proof.
  intros Hls Hz Hne.
  destruct (join_ends_with_last [NL] ls z) as [pre E].
  destruct (exists_last Hne) as [t [c Ez]].
  assert (Hc : is_linebreak c = false).
  { unfold single_line in Hz. rewrite Forall_forall in Hz. apply Hz.
    rewrite Ez. apply in_or_app. right. now left. }
  assert (Hnl : char_eqb NL c = false).
  { unfold char_eqb. destruct (N.eqb_spec NL c) as [<-|]; [|reflexivity].
    discriminate. }
  assert (Hmem : mem [NL] c = false).
  { unfold mem. cbn [existsb]. rewrite orb_false_r.
    unfold char_eqb in *. now rewrite N.eqb_sym. }
  assert (Hstrip : rstrip_chars [NL] (join [NL] (ls ++ [z]) ++ [NL])
                   = join [NL] (ls ++ [z])).
  { rewrite rstrip_chars_drop by reflexivity.
    rewrite E, Ez, app_assoc. now apply rstrip_chars_keep. }
  assert (Hbody : indent_doc prefix (join [NL] (ls ++ [z]) ++ [NL])
                  = join [NL] (map (indent_line prefix) (ls ++ [z])) ++ [NL]).
  { unfold indent_doc. rewrite Hstrip.
    rewrite splitlines_join by assumption. reflexivity. }
  split.
  - unfold with_newline.
    assert (Hend : endswith (join [NL] (ls ++ [z])) [NL] = false).
    { rewrite E, Ez, app_assoc, endswith_last. exact Hnl. }
    rewrite Hend. exact Hbody.
  - unfold with_newline. rewrite endswith_last.
    unfold char_eqb. rewrite N.eqb_refl. exact Hbody.
Qed.

Lemma X25_doc_block_indented_witness :
  indent_doc (lit "  ") (with_newline (join [NL] (doc_lines ++ [doc_last_line])))
  = join [NL] (map (indent_line (lit "  ")) (doc_lines ++ [doc_last_line]))
    ++ [NL]
  /\ indent_doc (lit "  ")
       (with_newline (join [NL] (doc_lines ++ [doc_last_line]) ++ [NL]))
     = join [NL] (map (indent_line (lit "  "))
                      (doc_lines ++ [doc_last_line])) ++ [NL].
Proof.
  apply (@X25_doc_block_indented_line_by_line (lit "  ") doc_lines
           doc_last_line).
  - repeat constructor.
  - repeat constructor.
  - discriminate.
Defined.

End IndentFacts.

(* ================================================================== *)
(** * Properties of the OpenAPI update *)
(* ================================================================== *)

Section OpenApiFacts.

Import OpenApi.

Lemma str_eqb_neq (a b : str) : a <> b -> Str.eqb a b = false.
Proof.
  intros H. destruct (Str.eqb a b) eqn:E; [|reflexivity].
  apply str_eqb_eq in E. contradiction.
Qed.

Lemma dict_get_put_same (k : str) (v : json) (d : dict) :
  dict_get k (dict_put k v d) = Some v.
Proof.
  induction d as [|[k' v'] d IH]; simpl.
  - now rewrite str_eqb_refl.
  - destruct (Str.eqb k' k) eqn:E; simpl.
    + now rewrite str_eqb_refl.
    + now rewrite E.
Qed.

Lemma dict_get_put_other (k k' : str) (v : json) (d : dict) :
  k' <> k -> dict_get k' (dict_put k v d) = dict_get k' d.
Proof.
  intros H. induction d as [|[k0 v0] d IH]; simpl.
  - rewrite str_eqb_neq; [reflexivity|congruence].
  - destruct (Str.eqb k0 k) eqn:E; simpl.
    + apply str_eqb_eq in E. subst k0.
      rewrite !str_eqb_neq; congruence.
    + destruct (Str.eqb k0 k'); [reflexivity|exact IH].
Qed.

Lemma dict_put_same (k : str) (v : json) (d : dict) :
  dict_get k d = Some v -> dict_put k v d = d.
Proof.
  induction d as [|[k' v'] d IH]; simpl; [discriminate|].
  destruct (Str.eqb k' k) eqn:E.
  - apply str_eqb_eq in E. subst k'. intros H. now inversion H.
  - intros H. now rewrite IH.
Qed.

Lemma dict_get_absent (k : str) (d : dict) :
  ~ In k (map fst d) -> dict_get k d = None.
Proof.
  induction d as [|[k' v'] d IH]; simpl; [reflexivity|].
  intros H. rewrite str_eqb_neq by tauto. apply IH. tauto.
Qed.

(** A key of the merged dictionary has the new value when the operation
    has the key, and the old one otherwise. *)
Lemma dict_get_merge (k : str) :
  forall operation existing,
    NoDup (map fst operation) ->
    dict_get k (merge existing operation)
    = match dict_get k operation with
      | Some v => Some v
      | None => dict_get k existing
      end.
Proof.
  unfold merge.
  induction operation as [|[k1 v1] op IH]; intros existing Hnd; simpl;
    [reflexivity|].
  inversion Hnd as [|? ? Hk1 Hop]; subst.
  rewrite IH by exact Hop.
  destruct (Str.eqb k1 k) eqn:E.
  - apply str_eqb_eq in E. subst k1.
    rewrite (dict_get_absent _ _ Hk1). apply dict_get_put_same.
  - destruct (dict_get k op); [reflexivity|].
    apply dict_get_put_other. intros ->. now rewrite str_eqb_refl in E.
Qed.

Lemma merge_already_there :
  forall operation d,
    (forall k v, In (k, v) operation -> dict_get k d = Some v) ->
    merge d operation = d.
Proof.
  unfold merge.
  induction operation as [|[k1 v1] op IH]; intros d H; simpl;
    [reflexivity|].
  rewrite dict_put_same by (apply H; now left).
  apply IH. intros k v Hin. apply H. now right.
Qed.

Lemma dict_get_in (k : str) (v : json) (d : dict) :
  NoDup (map fst d) -> In (k, v) d -> dict_get k d = Some v.
Proof.
  induction d as [|[k' v'] d IH]; simpl; intros Hnd Hin; [contradiction|].
  inversion Hnd as [|? ? Hk Hd]; subst.
  destruct Hin as [E|Hin].
  - inversion E; subst. now rewrite str_eqb_refl.
  - rewrite str_eqb_neq; [now apply IH|].
    intros ->. apply Hk. apply in_map_iff. now exists (k, v).
Qed.

Lemma merge_idempotent (existing operation : dict) :
  NoDup (map fst operation) ->
  merge (merge existing operation) operation = merge existing operation.
Proof.
  intros Hnd. apply merge_already_there. intros k v Hin.
  rewrite dict_get_merge by exact Hnd.
  now rewrite (@dict_get_in k v operation Hnd Hin).
Qed.

Lemma ensure_get (k : str) (d : dict) :
  exists v, dict_get k (ensure k d) = Some v
            /\ (dict_get k d = None -> v = JDict [])
            /\ (forall w, dict_get k d = Some w -> v = w).
Proof.
  unfold ensure, has_key. destruct (dict_get k d) as [w|] eqn:E.
  - exists w. rewrite E. repeat split; congruence.
  - exists (JDict []). rewrite dict_get_put_same.
    repeat split; congruence.
Qed.

Lemma ensure_other (k k' : str) (d : dict) :
  k' <> k -> dict_get k' (ensure k d) = dict_get k' d.
Proof.
  intros H. unfold ensure. destruct (has_key k d); [reflexivity|].
  now apply dict_get_put_other.
Qed.

Lemma put_ensure (k : str) (v : json) (d : dict) :
  dict_put k v (ensure k d) = dict_put k v d.
Proof.
  unfold ensure, has_key. destruct (dict_get k d) eqn:E; [reflexivity|].
  revert E. induction d as [|[k' v'] d IH]; simpl.
  - now rewrite str_eqb_refl.
  - destruct (Str.eqb k' k) eqn:Ek; [discriminate|].
    intros E. simpl. rewrite Ek. now rewrite IH.
Qed.

(** What a successful update is made of. *)
Lemma update_operation_done (db : DB) (data data' : json)
  (http_method endpoint_path : str) (operation : dict) :
  update_operation db data http_method endpoint_path operation = Done data' ->
  exists top paths item existing,
    data = JDict top
    /\ dict_get PATHS (ensure PATHS top) = Some (JDict paths)
    /\ dict_get (path_key_of endpoint_path)
                (ensure (path_key_of endpoint_path) paths)
       = Some (JDict item)
    /\ existing = entries_at data (path_key_of endpoint_path)
                             (lower db http_method)
    /\ (dict_get (lower db http_method) item = None
        \/ dict_get (lower db http_method) item = Some (JDict existing))
    /\ data' = JDict (dict_put PATHS
                 (JDict (dict_put (path_key_of endpoint_path)
                    (JDict (dict_put (lower db http_method)
                              (JDict (merge existing operation)) item))
                    paths)) top).
Proof.
  intros H. destruct data as [| | | | |top]; try discriminate.
  unfold update_operation, subscript in H.
  destruct (ensure_get PATHS top) as [pv [Ep [Ep0 Ep1]]].
  rewrite Ep in H.
  destruct pv as [| | | | |paths]; try discriminate.
  destruct (ensure_get (path_key_of endpoint_path) paths)
    as [iv [Ei [Ei0 Ei1]]].
  rewrite Ei in H.
  destruct iv as [| | | | |item]; try discriminate.
  assert (Hat : operation_at (JDict top) (path_key_of endpoint_path)
                             (lower db http_method)
                = dict_get (lower db http_method) item).
  { unfold operation_at.
    destruct (dict_get PATHS top) as [w|] eqn:Et.
    - rewrite <- (Ep1 _ eq_refl).
      destruct (dict_get (path_key_of endpoint_path) paths) as [w'|] eqn:Ek.
      + now rewrite <- (Ei1 _ eq_refl).
      + specialize (Ei0 eq_refl). inversion Ei0; subst. reflexivity.
    - specialize (Ep0 eq_refl). inversion Ep0; subst. simpl in Ei.
      rewrite str_eqb_refl in Ei. inversion Ei; subst. reflexivity. }
  destruct (dict_get (lower db http_method) item) as [ev|] eqn:Em.
  - destruct ev as [| | | | |existing]; try discriminate.
    inversion H; subst data'.
    exists top, paths, item, existing.
    rewrite !put_ensure. unfold entries_at. rewrite Hat.
    repeat split; auto.
  - inversion H; subst data'.
    exists top, paths, item, [].
    rewrite !put_ensure. unfold entries_at. rewrite Hat.
    repeat split; auto.
Qed.

(** X22: after a successful update, the operation stored under the path
    key (the endpoint path with a leading slash) and the lower-cased
    method is the merge of the old operation with the new one: a key of
    the new operation has the new value, any other key keeps the value it
    had before. *)
Theorem X22_updated_operation_is_merge (db : DB) (data data' : json)
  (http_method endpoint_path : str) (operation : dict) (k : str) :
  NoDup (map fst operation) ->
  update_operation db data http_method endpoint_path operation = Done data' ->
  exists merged,
    operation_at data' (path_key_of endpoint_path) (lower db http_method)
    = Some (JDict merged)
    /\ dict_get k merged
       = match dict_get k operation with
         | Some v => Some v
         | None => dict_get k (entries_at data (path_key_of endpoint_path)
                                          (lower db http_method))
         end
    /\ startswith (path_key_of endpoint_path) (lit "/") = true.
Proof.
  intros Hnd H.
  destruct (update_operation_done _ _ _ _ _ H)
    as [top [paths [item [existing [-> [Ep [Ei [Ee [_ ->]]]]]]]]].
  exists (merge existing operation). repeat split.
  - unfold operation_at. rewrite !dict_get_put_same. reflexivity.
  - rewrite dict_get_merge by exact Hnd. now rewrite Ee.
  - unfold path_key_of.
    destruct (startswith endpoint_path (lit "/")) eqn:S; [exact S|].
    apply (startswith_same_head 47%N endpoint_path).
Qed.

Lemma X22_updated_operation_witness :
  exists merged,
    operation_at sample_updated (path_key_of (lit "users"))
                 (lower ascii_db (lit "GET"))
    = Some (JDict merged)
    /\ dict_get (lit "tags") merged
       = match dict_get (lit "tags") sample_operation with
         | Some v => Some v
         | None => dict_get (lit "tags")
                     (entries_at sample_spec (path_key_of (lit "users"))
                                 (lower ascii_db (lit "GET")))
         end
    /\ startswith (path_key_of (lit "users")) (lit "/") = true.
Proof.
  apply (@X22_updated_operation_is_merge ascii_db sample_spec sample_updated
           (lit "GET") (lit "users") sample_operation (lit "tags")).
  - repeat constructor; simpl; intuition discriminate.
  - vm_compute. reflexivity.
Defined.

(** X24: the update is idempotent: applying the same operation again to
    the updated data succeeds and changes nothing. *)
Theorem X24_update_is_idempotent (db : DB) (data data' : json)
  (http_method endpoint_path : str) (operation : dict) :
  NoDup (map fst operation) ->
  update_operation db data http_method endpoint_path operation = Done data' ->
  update_operation db data' http_method endpoint_path operation = Done data'.
Proof.
  intros Hnd H.
  destruct (update_operation_done _ _ _ _ _ H)
    as [top [paths [item [existing [-> [Ep [Ei [_ [_ ->]]]]]]]]].
  unfold update_operation, subscript.
  assert (E1 : forall k v d, ensure k (dict_put k v d) = dict_put k v d).
  { intros k v d. unfold ensure, has_key. now rewrite dict_get_put_same. }
  rewrite E1, dict_get_put_same, E1, dict_get_put_same, dict_get_put_same.
  rewrite merge_idempotent by exact Hnd.
  assert (E2 : forall k v d, dict_put k v (dict_put k v d) = dict_put k v d).
  { intros k v d. apply dict_put_same, dict_get_put_same. }
  now rewrite !E2.
Qed.

Lemma X24_update_is_idempotent_witness :
  update_operation ascii_db sample_updated (lit "GET") (lit "users")
                   sample_operation
  = Done sample_updated.
Proof.
  apply (@X24_update_is_idempotent ascii_db sample_spec sample_updated
           (lit "GET") (lit "users") sample_operation).
  - repeat constructor; simpl; intuition discriminate.
  - vm_compute. reflexivity.
Defined.

End OpenApiFacts.

(* ================================================================== *)
(** * [update_operation] assigns in place *)
(* ================================================================== *)

Section OpenApiStoreFacts.

Import OpenApi OpenApiStore.















(** ** The frame relation *)







(** ** [ensure] *)








(** The alias at work: after the update of [GET /users] the operation
    read under [/people] is the merged one as well, the two keys holding
    one object; before the update it was the old one. *)
Example alias_sees_the_update :
  OpenApiStore.update_operation ascii_db aliased_store (VRef 0)
    (lit "GET") (lit "users") aliased_operation
  = Done aliased_updated
  /\ entry aliased_store 1 (lit "/people") = Some (VRef 2)
  /\ entry aliased_store 1 (lit "/users") = Some (VRef 2)
  /\ entry aliased_store 2 (lit "get") = Some (VRef 3)
  /\ entry aliased_updated 1 (lit "/people") = Some (VRef 2)
  /\ entry aliased_updated 2 (lit "get") = Some (VRef 5).
Proof. repeat split; vm_compute; reflexivity. Qed.

End OpenApiStoreFacts.

(* ================================================================== *)
(** * Anchors out of range *)
(* ================================================================== *)

Section OutOfRange.

Import DiffViewer DiffViewerSpec InsertionSpec.

Lemma doc_block_is_indent_doc (m : nat) (doc : str) :
  indent_doc (repeat SPACE m) (with_newline doc) = doc_block m doc.
Proof. reflexivity. Qed.

Lemma doc_block_length (m : nat) (doc : str) :
  (1 <= List.length (doc_block m doc))%nat.
Proof. unfold doc_block. rewrite length_app. simpl. lia. Qed.

Lemma clamp_le {A} (l : list A) (i : Z) : (clamp l i <= List.length l)%nat.
Proof. unfold clamp, len. lia. Qed.

Lemma nth_error_insert_new {A} (l : list A) (i : Z) (x : A) :
  nth_error (insert l i x) (clamp l i) = Some x.
Proof.
  unfold insert. pose proof (clamp_le l i) as H.
  rewrite nth_error_app2 by (rewrite length_firstn; lia).
  rewrite length_firstn, Nat.min_l, Nat.sub_diag by exact H. reflexivity.
Qed.

Lemma nth_error_shift {A} (a b : list A) (y x : A) (i : nat) :
  nth_error (a ++ b) i = Some x ->
  exists i', (i <= i')%nat /\ nth_error (a ++ y :: b) i' = Some x.
Proof.
  intros H. destruct (Nat.lt_ge_cases i (List.length a)) as [Hlt|Hge].
  - exists i. split; [lia|].
    rewrite nth_error_app1 in * by exact Hlt. exact H.
  - exists (S i). split; [lia|].
    rewrite nth_error_app2 in * by lia.
    replace (S i - List.length a)%nat with (S (i - List.length a)) by lia.
    exact H.
Qed.

Lemma nth_error_insert_old {A} (l : list A) (k : Z) (y x : A) (i : nat) :
  nth_error l i = Some x ->
  exists i', (i <= i')%nat /\ nth_error (insert l k y) i' = Some x.
Proof.
  intros H. unfold insert. apply nth_error_shift.
  now rewrite firstn_skipn.
Qed.

Lemma insert_perm {A} (l : list A) (k : Z) (x : A) :
  Permutation (insert l k x) (x :: l).
Proof.
  unfold insert. apply Permutation_sym.
  rewrite <- (firstn_skipn (clamp l k) l) at 1.
  apply Permutation_middle.
Qed.

(** One iteration on a proposal that passes the guard: its block, as
    written from its doc, goes in at or after its anchor. *)
Lemma apply_one_inserts (language : str) (lines : list str)
  (p : DocProposal) :
  out_of_range lines p = false ->
  exists m k,
    (line p - 1 <= k)%Z
    /\ apply_one language lines p
       = Ok (insert lines k (doc_block m (proposed_doc p))).
Proof.
  intros G. unfold apply_one. rewrite G.
  assert (Hr : (0 <= line p - 1 <= len lines)%Z).
  { unfold out_of_range in G. apply orb_false_iff in G.
    destruct G as [G0 G1]. apply Z.ltb_ge in G0.
    destruct (Z.gtb_spec (line p - 1) (len lines)); [discriminate|lia]. }
  rewrite func_line_read by exact Hr. cbn [bind].
  destruct (Str.eqb language (lit "python")).
  - destruct (@find_body_start_returns lines (List.length lines)
                (line p - 1 + 1)%Z) as [b E]; [lia | unfold len; lia |].
    assert (H1 : (1 <= line p - 1 + 1)%Z) by lia.
    destruct (find_body_start_spec _ _ H1 E) as [Hb _].
    rewrite E. cbn [bind]. eexists (_ + 4)%nat, b. split; [lia|].
    rewrite <- doc_block_is_indent_doc, repeat_app. reflexivity.
  - eexists _, (line p - 1)%Z. split; [lia|reflexivity].
Qed.

Lemma apply_one_keeps_elements (language : str) (lines lines' : list str)
  (p : DocProposal) (i : nat) (x : str) :
  apply_one language lines p = Ok lines' ->
  nth_error lines i = Some x ->
  exists i', (i <= i')%nat /\ nth_error lines' i' = Some x.
Proof.
  intros E H.
  destruct (apply_one_cases language lines p) as [[_ E']|[_ [m [k E']]]];
    rewrite E' in E; inversion E; subst lines'.
  - now exists i.
  - now apply nth_error_insert_old.
Qed.

Lemma apply_loop_keeps_elements (language : str) :
  forall ps lines final i x,
    apply_loop language lines ps = Ok final ->
    nth_error lines i = Some x ->
    exists i', (i <= i')%nat /\ nth_error final i' = Some x.
Proof.
  induction ps as [|p ps IH]; intros lines final i x E H; simpl in E.
  - inversion E; subst. now exists i.
  - apply bind_ok in E. destruct E as [lines' [E1 E2]].
    destruct (apply_one_keeps_elements _ _ _ _ E1 H) as [i1 [H1 N1]].
    destruct (IH _ _ _ _ E2 N1) as [i2 [H2 N2]].
    exists i2. split; [lia|exact N2].
Qed.

(** The loop over a descending list, traced: the elements of the final
    list are the lines it started from and one block per proposal that
    passes the guard against the lines of the source, each block written
    from its doc and sitting at or after its anchor. *)
Lemma apply_loop_trace (language : str) (lines0 : list str) :
  forall ps lines,
    StronglySorted ge_line ps ->
    (len lines0 <= len lines)%Z ->
    ((len lines0 < len lines)%Z ->
     Forall (fun p => (line p - 1 <= len lines0)%Z) ps) ->
    exists final mps,
      apply_loop language lines ps = Ok final
      /\ map snd mps = filter (fun p => negb (out_of_range lines0 p)) ps
      /\ Permutation final (lines ++ map block_of mps)
      /\ Forall (fun mp => exists i,
                   (anchor (snd mp) <= i)%nat
                   /\ nth_error final i = Some (block_of mp)) mps.
Proof.
  induction ps as [|p ps IH]; intros lines Hs Hlen Hgrown; simpl.
  - exists lines, []. simpl. rewrite app_nil_r. repeat split; auto.
  - inversion Hs as [|? ? Hs' Hp]; subst.
    destruct (out_of_range lines p) eqn:G.
    + (* skipped now: also out of range against the source *)
      assert (G0 : out_of_range lines0 p = true).
      { unfold out_of_range in *. apply orb_true_iff in G.
        apply orb_true_iff. destruct G as [G|G]; [now left|right].
        destruct (Z.gtb_spec (line p - 1) (len lines)); [|discriminate].
        destruct (Z.gtb_spec (line p - 1) (len lines0)); [reflexivity|lia]. }
      unfold apply_one. rewrite G, G0. cbn [bind negb].
      apply IH; trivial.
      intros Hlt. specialize (Hgrown Hlt). now inversion Hgrown.
    + (* inserted now: in range against the source as well *)
      assert (Hbound : (0 <= line p - 1 <= len lines)%Z).
      { unfold out_of_range in G. apply orb_false_iff in G.
        destruct G as [G0 G1]. apply Z.ltb_ge in G0.
        destruct (Z.gtb_spec (line p - 1) (len lines)); [discriminate|lia]. }
      assert (Hp0 : (line p - 1 <= len lines0)%Z).
      { destruct (Z.eq_dec (len lines0) (len lines)) as [Heq|Hne].
        - lia.
        - assert (Hlt : (len lines0 < len lines)%Z) by lia.
          specialize (Hgrown Hlt). now inversion Hgrown. }
      assert (G0 : out_of_range lines0 p = false).
      { unfold out_of_range. apply orb_false_iff. split.
        - apply Z.ltb_ge. lia.
        - destruct (Z.gtb_spec (line p - 1) (len lines0)); [lia|reflexivity]. }
      destruct (apply_one_inserts language lines p G) as [m [k [Hk E]]].
      rewrite E, G0. cbn [bind negb].
      set (block := doc_block m (proposed_doc p)) in *.
      destruct (IH (insert lines k block)) as [final [mps [E1 [M [P F]]]]].
      * exact Hs'.
      * unfold len in *. rewrite insert_length. lia.
      * intros _. eapply Forall_impl; [|exact Hp].
        unfold ge_line. intros q Hq. lia.
      * exists final, ((m, p) :: mps). repeat split.
        -- exact E1.
        -- simpl. now rewrite M.
        -- eapply perm_trans; [exact P|]. simpl.
           eapply perm_trans;
             [apply Permutation_app_tail, insert_perm|].
           simpl. apply Permutation_middle.
        -- constructor; [|exact F].
           destruct (@apply_loop_keeps_elements language ps
                       (insert lines k block) final (clamp lines k) block E1)
             as [i [Hi Ni]]; [apply nth_error_insert_new|].
           exists i. split; [|exact Ni].
           unfold anchor. simpl.
           rewrite clamp_in_range in Hi by lia. unfold len in *. lia.
Qed.

Lemma concat_length_perm {A} (l l' : list (list A)) :
  Permutation l l' ->
  List.length (List.concat l) = List.length (List.concat l').
Proof.
  induction 1; simpl; rewrite ?length_app; lia.
Qed.

Lemma concat_length_sum {A} (l : list (list A)) :
  List.length (List.concat l) = list_sum (map (@List.length A) l).
Proof.
  induction l as [|x l IH]; simpl; [reflexivity|].
  rewrite length_app. lia.
Qed.

Lemma sum_at_least_count (mps : list (nat * DocProposal)) :
  (List.length mps
   <= list_sum (map (fun mp => List.length (block_of mp)) mps))%nat.
Proof.
  induction mps as [|mp mps IH]; simpl; [lia|].
  pose proof (doc_block_length (fst mp) (proposed_doc (snd mp))).
  unfold block_of at 1. lia.
Qed.

(** C3: for every source text, language and proposal list the engine
    returns a text (it raises nothing).  A proposal is out of range when
    its line is below 1 or above the number of lines plus 1 (0-based
    index negative, or beyond the number of lines; the index equal to the
    number of lines is the append position and is in range).  Such
    proposals leave no trace: the result is the one of the call that
    receives only the other proposals.  Every other proposal is inserted:
    the list that is joined into the returned text consists of the lines
    of the source, in their order, and exactly one block per in-range
    proposal; each block is the text written from the proposal's doc
    ([doc_block]: its lines, indented, closed by a newline) and sits at
    or after the anchor of its proposal; the returned text is longer than
    the source by the lengths of these blocks, so by at least one
    character per in-range proposal. *)
Theorem C3_out_of_range_skipped (source language : str)
  (proposals : list DocProposal) :
  let lines := splitlines true source in
  let kept := filter (fun p => negb (out_of_range lines p)) proposals in
  exists final mps,
    final_lines source proposals language = Ok final
    /\ _apply_proposals_to_source source proposals language
       = Ok (join [] final)
    /\ _apply_proposals_to_source source kept language = Ok (join [] final)
    /\ List.length final = (List.length lines + List.length kept)%nat
    /\ (forall x, In x lines -> In x final)
    /\ Forall (fun p => exists m,
                 In (indent_doc (repeat SPACE m)
                                (with_newline (proposed_doc p))) final)
              kept
    /\ (forall p, out_of_range lines p = false
                  <-> (1 <= line p <= len lines + 1)%Z)
    /\ map snd mps = sorted_desc kept
    /\ Permutation final (lines ++ map block_of mps)
    /\ subsequence lines final
    /\ Forall (fun mp => exists i,
                 (anchor (snd mp) <= i)%nat
                 /\ nth_error final i = Some (block_of mp)) mps
    /\ List.length (join [] final)
       = (List.length source
          + list_sum (map (fun mp => List.length (block_of mp)) mps))%nat
    /\ (List.length source + List.length kept
        <= List.length (join [] final))%nat.
Proof.
  intros lines kept.
  destruct (@apply_loop_skips language lines (sorted_desc proposals) lines)
    as [final [E1 [E2 [L [Keep Ins]]]]];
    [apply sorted_desc_sorted | lia | intros; lia |].
  destruct (@apply_loop_trace language lines (sorted_desc proposals) lines)
    as [final' [mps [E1' [M [P F]]]]];
    [apply sorted_desc_sorted | lia | intros; lia |].
  rewrite E1 in E1'. inversion E1'; subst final'. clear E1'.
  destruct (apply_loop_subsequence language (sorted_desc proposals) lines)
    as [final' [E1' [S _]]].
  rewrite E1 in E1'. inversion E1'; subst final'. clear E1'.
  rewrite filter_sorted_desc in E2, L, Ins, M.
  fold kept in E2, L, Ins, M.
  assert (Hlen : List.length (join [] final)
                 = (List.length source
                    + list_sum (map (fun mp => List.length (block_of mp))
                                    mps))%nat).
  { rewrite join_empty_concat, (concat_length_perm P), concat_app.
    rewrite length_app, <- join_empty_concat.
    unfold lines. rewrite splitlines_keepends_join.
    now rewrite concat_length_sum, map_map. }
  exists final, mps. unfold _apply_proposals_to_source, final_lines.
  fold lines. rewrite E1, E2. cbn [bind].
  repeat match goal with |- _ /\ _ => split end; trivial.
  - rewrite L. f_equal. symmetry.
    apply Permutation_length, sorted_desc_perm.
  - eapply Permutation_Forall; [|exact Ins].
    apply Permutation_sym, sorted_desc_perm.
  - intros p. unfold out_of_range. rewrite orb_false_iff, Z.ltb_ge.
    destruct (Z.gtb_spec (line p - 1) (len lines)) as [Hgt|Hle].
    + split; [intros [_ Hf]; discriminate | lia].
    + split; [intros [H0 _]; lia | intros H0; split; [lia|reflexivity]].
  - rewrite Hlen.
    pose proof (sum_at_least_count mps) as Hs.
    assert (Hm : List.length mps = List.length kept).
    { rewrite <- (length_map snd mps), M.
      symmetry. apply Permutation_length, sorted_desc_perm. }
    lia.
Qed.

(** The block of a three-line doc whose middle line is blank, at an
    indentation of two spaces: the blank line stays empty, and the block
    is the same whether or not the doc ends with a newline. *)
Example doc_block_of_three_lines :
  doc_block 2 (lit "/**" ++ [NL] ++ [NL] ++ lit " */")
  = lit "  /**" ++ [NL] ++ [NL] ++ lit "   */" ++ [NL]
  /\ doc_block 2 (lit "/**" ++ [NL] ++ [NL] ++ lit " */" ++ [NL])
     = lit "  /**" ++ [NL] ++ [NL] ++ lit "   */" ++ [NL].
Proof. split; vm_compute; reflexivity. Qed.

End OutOfRange.
